(** * Compressing_BOAD: the W^T P_l compression of a SOAP power spectrum

    A shallow embedding of the notebook [Compression_Example.ipynb]:
    [ps2slices], [compress_ps], [gen_random_key], [get_IR] and
    [uncompress_slice], together with the driver cell that compresses and
    uncompresses every structure of the dataset, and the two helper
    functions [dataset_to_params] and [params2quippy_str].

    numpy arrays are lists (rows of a matrix are lists of numbers); the
    element type and its arithmetic are a parameter [arith], instantiated
    with IEEE binary64 (what numpy runs on) and with any ordered field
    (exact arithmetic).  LAPACK's routines behind [np.linalg.matrix_rank]
    and [np.linalg.eigh] are oracles passed as arguments.  Python
    exceptions are values of [exn] in the error monad [res]. *)

Set Warnings "-notation-overridden,-ambiguous-paths,-inexact-float".
Set Warnings "-notation-incompatible-prefix,-deprecated".
From HB Require Import structures.
From mathcomp Require Import boot order algebra algC.
From Stdlib Require Import ZArith Floats String.

Set Implicit Arguments.
Unset Strict Implicit.
Unset Printing Implicit Defensive.

(** ** Python exceptions and the error monad *)

Inductive exn : Type :=
| NameError (name : string)
| KeyError (key : string)
| TypeError
| ValueError
| OverflowError
| IndexError
| AssertionError
| LinAlgError.

Inductive res (A : Type) : Type :=
| Ok (a : A)
| Err (e : exn).
Arguments Ok {A} a.
Arguments Err {A} e.

Definition bind {A B : Type} (m : res A) (k : A -> res B) : res B :=
  match m with
  | Ok a => k a
  | Err e => Err e
  end.

Notation "x <- m ;; k" := (bind m (fun x => k))
  (at level 100, m at next level, right associativity).
Notation "' p <- m ;; k" := (bind m (fun x => let p := x in k))
  (at level 100, p pattern, m at next level, right associativity).

(** [assert b]: raises [AssertionError] when [b] is false. *)
Definition assert (b : bool) : res unit :=
  if b then Ok tt else Err AssertionError.

(** A [for] loop over [s] threading the state [a], stopping at the first
    exception. *)
Fixpoint foldM {A X : Type} (f : X -> A -> res A) (a : A) (s : seq X)
  : res A :=
  match s with
  | [::] => Ok a
  | x :: s' => a' <- f x a ;; foldM f a' s'
  end.

Fixpoint mapM {A B : Type} (f : A -> res B) (s : seq A) : res (seq B) :=
  match s with
  | [::] => Ok [::]
  | x :: s' => y <- f x ;; ys <- mapM f s' ;; Ok (y :: ys)
  end.

(** [s[i]] for [0 <= i]: [IndexError] out of range. *)
Definition getitem {A : Type} (s : seq A) (i : nat) : res A :=
  match drop i s with
  | x :: _ => Ok x
  | [::] => Err IndexError
  end.

(** [s[i] = x] for an index the loops below keep in range. *)
Fixpoint setitem {A : Type} (s : seq A) (i : nat) (x : A) : seq A :=
  match s, i with
  | [::], _ => [::]
  | _ :: s', 0 => x :: s'
  | y :: s', i'.+1 => y :: setitem s' i' x
  end.

(** ** The arithmetic of the array elements *)

Record arith (F : Type) : Type := Arith {
  f0 : F;                      (* 0.0 *)
  fadd : F -> F -> F;
  fsub : F -> F -> F;
  fmul : F -> F -> F;
  fdiv : F -> F -> F;
  fabs : F -> F;
  fsqrt : F -> F;
  fltb : F -> F -> bool;       (* x < y *)
  fleb : F -> F -> bool;       (* x <= y *)
  feqb : F -> F -> bool;       (* x == y *)
  fisfinite : F -> bool;       (* np.isfinite *)
  pow_neg_half : F -> F;       (* x ** -0.5 *)
  two_pow_neg_half : F;        (* 2 ** -0.5 *)
  f_0_1 : F;                   (* 0.1 *)
  f_0_8 : F;                   (* 0.8 *)
  f_1e_15 : F;                 (* 1e-15 *)
  rtol : F;                    (* np.allclose's rtol = 1e-05 *)
  atol : F                     (* np.allclose's atol = 1e-08 *)
}.

Declare Scope num_scope.
Delimit Scope num_scope with F.

Section Numeric.

Variable F : Type.
Variable A : arith F.

Definition vector : Type := seq F.
Definition matrix : Type := seq (seq F).

Local Notation "0" := (f0 A) : num_scope.
Local Notation "x + y" := (fadd A x y) : num_scope.
Local Notation "x - y" := (fsub A x y) : num_scope.
Local Notation "x * y" := (fmul A x y) : num_scope.
Local Notation "x / y" := (fdiv A x y) : num_scope.

(** *** numpy on lists *)

Definition nrows (M : matrix) : nat := size M.
Definition ncols (M : matrix) : nat := size (head [::] M).

(** A list of rows is a [m] x [n] array. *)
Definition wf (m n : nat) (M : matrix) : bool :=
  (size M == m) && all (fun r => size r == n) M.

(** [np.zeros((m, n))] and [np.zeros((k, m, n))]. *)
Definition zeros (m n : nat) : matrix := nseq m (nseq n 0%F).
Definition zeros3 (k m n : nat) : seq matrix := nseq k (zeros m n).

(** [M.T] *)
Definition transpose (M : matrix) : matrix :=
  mkseq (fun j => [seq nth 0%F r j | r <- M]) (ncols M).

(** The inner product BLAS accumulates, taken from left to right. *)
Definition dotp (u v : vector) : F :=
  foldl (fun acc xy => acc + xy.1 * xy.2)%F 0%F (zip u v).

Definition col (j : nat) (M : matrix) : vector := [seq nth 0%F r j | r <- M].

(** [np.dot(M1, M2)] of two 2-d arrays: [ValueError] when the shapes are
    not aligned. *)
Definition dot (M1 M2 : matrix) : res matrix :=
  if ncols M1 == nrows M2 then
    Ok [seq mkseq (fun j => dotp r (col j M2)) (ncols M2) | r <- M1]
  else Err ValueError.

(** [M[:, :k]] *)
Definition take_cols (k : nat) (M : matrix) : matrix := [seq take k r | r <- M].

(** [M[inds, :]] and [M[:, inds]] with a list of indices. *)
Definition select_rows (inds : seq nat) (M : matrix) : res matrix :=
  mapM (getitem M) inds.
Definition select_cols (inds : seq nat) (M : matrix) : res matrix :=
  mapM (fun r => mapM (getitem r) inds) M.

(** [np.diag(v)] of a 1-d sequence. *)
Definition diag (v : vector) : matrix :=
  mkseq (fun i => mkseq (fun j => if i == j then nth 0%F v i else 0%F) (size v))
        (size v).

(** [np.linalg.norm(v)] of a 1-d array. *)
Definition norm (v : vector) : F := fsqrt A (dotp v v).

(** [np.isclose(a, b)] with the default tolerances, [equal_nan=False]. *)
Definition isclose (a b : F) : bool :=
  if fisfinite A a && fisfinite A b then
    fleb A (fabs A (a - b)%F) (atol A + rtol A * fabs A b)%F
  else feqb A a b.

(** numpy's broadcast of two dimensions. *)
Definition broadcast_dim (a b : nat) : res nat :=
  if a == b then Ok a
  else if a == 1 then Ok b
  else if b == 1 then Ok a
  else Err ValueError.

(** [np.allclose(M1, M2)] of two 2-d arrays. *)
Definition allclose (M1 M2 : matrix) : res bool :=
  m <- broadcast_dim (nrows M1) (nrows M2) ;;
  n <- broadcast_dim (ncols M1) (ncols M2) ;;
  let at_ (M : matrix) i j :=
    nth 0%F (nth [::] M (if nrows M == 1 then 0 else i))
          (if ncols M == 1 then 0 else j) in
  Ok (all (fun i => all (fun j => isclose (at_ M1 i j) (at_ M2 i j)) (iota 0 n))
          (iota 0 m)).

(** *** Cell 3: the compression functions *)

(** [l_slices[l][n1][n2] = p] *)
Definition set3 (ls : seq matrix) (l n1 n2 : nat) (p : F) : seq matrix :=
  setitem ls l (setitem (nth [::] ls l) n1
                        (setitem (nth [::] (nth [::] ls l) n1) n2 p)).

(** The body of the innermost loop of [ps2slices], for one [l]. *)
Definition ps2slices_l (ps : vector) (L n1 n2 i : nat) (l : nat)
           (l_slices : seq matrix) : res (seq matrix) :=
  let c := two_pow_neg_half A in
  p <- getitem ps ((L + 1) * i + l) ;;
  if n1 == n2 then Ok (set3 l_slices l n1 n2 p)
  else
    let p := (p * c)%F in
    let l_slices := set3 l_slices l n1 n2 p in
    Ok (set3 l_slices l n2 n1 p).

(** The body of the loop over [n2]: all [l] of one pair, then [i += 1]. *)
Definition ps2slices_n2 (ps : vector) (L n1 : nat) (n2 : nat)
           (st : seq matrix * nat) : res (seq matrix * nat) :=
  let '(l_slices, i) := st in
  l_slices <- foldM (ps2slices_l ps L n1 n2 i) l_slices (iota 0 (L + 1)) ;;
  Ok (l_slices, i + 1).

Definition ps2slices_n1 (ps : vector) (L : nat) (n1 : nat)
           (st : seq matrix * nat) : res (seq matrix * nat) :=
  foldM (ps2slices_n2 ps L n1) st (iota 0 (n1 + 1)).

(** [ps2slices(ps, NS, L)]: the power spectrum as an [(L+1, NS, NS)] array
    of l-slices. *)
Definition ps2slices (ps : vector) (NS L : nat) : res (seq matrix) :=
  let l_slices := zeros3 (L + 1) NS NS in
  st <- foldM (ps2slices_n1 ps L) (l_slices, 0) (iota 0 NS) ;;
  Ok st.1.

(** The loop of [compress_ps] over [l]: [short += list(np.dot(W.T, Pl)
    .flatten())] with [W = random_key[:, :2*l+1]]. *)
Definition compress_l (l_slices : seq matrix) (random_key : matrix) (l : nat)
           (short : vector) : res vector :=
  Pl <- getitem l_slices l ;;
  let W := take_cols (2 * l + 1) random_key in
  WtP <- dot (transpose W) Pl ;;
  Ok (short ++ flatten WtP).

(** [short = short/np.linalg.norm(short)] *)
Definition normalize (short : vector) : vector :=
  let n := norm short in [seq (x / n)%F | x <- short].

(** Step 2 of [compress_ps] and its normalisation, from the l-slices on. *)
Definition compress_slices (l_slices : seq matrix) (L : nat)
           (random_key : matrix) (norm : bool) : res vector :=
  short <- foldM (compress_l l_slices random_key) [::] (iota 0 (L + 1)) ;;
  if norm then Ok (normalize short) else Ok short.

(** *** Python values, [params] and the global namespace *)

Inductive pyval : Type :=
| PyInt (z : Z)
| PyFloat (x : float)
| PyStr (s : string).

(** [round(x)] of a float: to the nearest integer, ties to even. *)
Definition round_float (x : float) : res Z :=
  match Prim2SF x with
  | S754_zero _ => Ok 0%Z
  | S754_infinity _ => Err OverflowError
  | S754_nan => Err ValueError
  | S754_finite sgn m e =>
      let m := Z.pos m in
      let q :=
        (if 0 <=? e then m * 2 ^ e
         else
           let d := 2 ^ (- e) in
           let q := m / d in
           let r := m mod d in
           if 2 * r <? d then q
           else if d <? 2 * r then q + 1
           else if Z.even q then q else q + 1)%Z in
      Ok (if sgn then (- q)%Z else q)
  end.

Definition round (v : pyval) : res Z :=
  match v with
  | PyInt z => Ok z
  | PyFloat x => round_float x
  | PyStr _ => Err TypeError
  end.

(** A dict with string keys, as the list of its items. *)
Definition dict : Type := seq (string * pyval).

(** [params[key]] *)
Fixpoint lookup (params : dict) (key : string) : res pyval :=
  match params with
  | [::] => Err (KeyError key)
  | (k, v) :: params' => if String.eqb k key then Ok v else lookup params' key
  end.

(** What a global name of the notebook can be bound to: a function of the
    signature of [ps2slices], or anything else. *)
Inductive pyobj : Type :=
| PyFun (f : vector -> Z -> Z -> res (seq matrix))
| PyOther.

Definition globals : Type := seq (string * pyobj).

(** Reading a global name: [NameError] when nothing binds it. *)
Fixpoint load_global (G : globals) (name : string) : res pyobj :=
  match G with
  | [::] => Err (NameError name)
  | (k, o) :: G' => if String.eqb k name then Ok o else load_global G' name
  end.

Definition call (o : pyobj) (ps : vector) (NS L : Z) : res (seq matrix) :=
  match o with
  | PyFun f => f ps NS L
  | PyOther => Err TypeError
  end.

(** [ps2slices] called with Python integers: [np.zeros] refuses a negative
    dimension; for [L = -1] the array has no slice and the loop over [l]
    no turn. *)
Definition ps2slices_py (ps : vector) (NS L : Z) : res (seq matrix) :=
  if ((L + 1 <? 0) || (NS <? 0))%Z then Err ValueError
  else if (L + 1 =? 0)%Z then Ok [::]
  else ps2slices ps (Z.to_nat NS) (Z.to_nat L).

(** [compress_ps(ps, params, random_key, norm)] run with the global
    namespace [G].  For [L < 0] the range of the loop is empty and [short]
    stays the empty array, also after the division by its norm. *)
Definition compress_ps (G : globals) (ps : vector) (params : dict)
           (random_key : matrix) (norm : bool) : res vector :=
  N <- (v <- lookup params "n_max" ;; round v) ;;
  L <- (v <- lookup params "l_max" ;; round v) ;;
  S <- (v <- lookup params "n_Z" ;; round v) ;;
  split_ps2 <- load_global G "split_ps2" ;;
  l_slices <- call split_ps2 ps (N * S)%Z L ;;
  if (L <? 0)%Z then Ok [::]
  else compress_slices l_slices (Z.to_nat L) random_key norm.

(** [gen_random_key(params)]; [sample i j] is the number
    [np.random.sample] draws for the entry [(i, j)]. *)
Definition gen_random_key (sample : nat -> nat -> F) (params : dict)
  : res matrix :=
  N <- (v <- lookup params "n_max" ;; round v) ;;
  L <- (v <- lookup params "l_max" ;; round v) ;;
  S <- (v <- lookup params "n_Z" ;; round v) ;;
  let ncols := Z.min (N * S) (2 * L + 1) in
  let nrows := (N * S)%Z in
  if ((nrows <? 0) || (ncols <? 0))%Z then Err ValueError
  else
    Ok (mkseq (fun i => mkseq (fun j => f_0_1 A + f_0_8 A * sample i j)%F
                              (Z.to_nat ncols))
              (Z.to_nat nrows)).

(** *** Cell 4: undoing the compression *)

Section Decompression.

(** [np.linalg.matrix_rank] and [np.linalg.eigh]. *)
Variable matrix_rank : matrix -> res nat.
Variable eigh : matrix -> res (vector * matrix).

(** One turn of the loop of [get_IR] on row [i]. *)
Definition get_IR_step (irow : nat * vector)
           (st : matrix * seq nat * nat) : res (matrix * seq nat * nat) :=
  let '(i, row) := irow in
  let '(T, inds, cur_rank) := st in
  let T := rcons T row in
  rank <- matrix_rank T ;;
  if cur_rank < rank then Ok (T, rcons inds i, rank)
  else Ok (take (size T).-1 T, inds, cur_rank).

(** [get_IR(A)]: linearly independent rows of [A] and their indices. *)
Definition get_IR (M : matrix) : res (matrix * seq nat) :=
  st <- foldM get_IR_step ([::], [::], 0) (zip (iota 0 (size M)) M) ;;
  Ok (st.1.1, st.1.2).

(** [min(s)] of a Python list. *)
Definition py_min (s : vector) : res F :=
  match s with
  | [::] => Err ValueError
  | x :: s' => Ok (foldl (fun m y => if fltb A y m then y else m) x s')
  end.

(** The inverse square roots of the eigenvalues, the non-positive ones
    replaced: the three lines from [roots = ...] to [roots = ...]. *)
Definition clamp_roots (vals : vector) : res vector :=
  let roots := [seq pow_neg_half A x | x <- vals] in
  min_pos <- py_min [seq x <- roots | fltb A 0%F x] ;;
  Ok [seq if fltb A 0%F x then x else (min_pos * f_1e_15 A)%F | x <- roots].

(** From the reduced Gram matrix to [P]: all of [uncompress_slice] between
    the test of [inds] and the last assertion. *)
Definition reconstruct (WtP W T : matrix) (inds : seq nat) : res matrix :=
  C <- dot WtP W ;;
  C <- (C' <- select_rows inds C ;; select_cols inds C') ;;
  '(vals, Ut) <- eigh C ;;
  let U := transpose Ut in
  let Lambda := diag vals in
  R <- (LU <- dot Lambda U ;; dot (transpose U) LU) ;;
  ok <- allclose R C ;;
  _ <- assert ok ;;
  roots <- clamp_roots vals ;;
  let D := diag roots in
  X <- (UT <- dot U T ;; dot D UT) ;;
  dot (transpose X) X.

(** [np.allclose(np.dot(W.T, P), WtP)], the test of the last assertion. *)
Definition verify (W P WtP : matrix) : res bool :=
  WtP' <- dot (transpose W) P ;;
  allclose WtP' WtP.

(** [uncompress_slice(WtP, l, RK)] *)
Definition uncompress_slice (WtP : matrix) (l : nat) (RK : matrix)
  : res matrix :=
  let W := take_cols (2 * l + 1) RK in
  '(T, inds) <- get_IR WtP ;;
  if size inds == 0 then
    r <- matrix_rank WtP ;;
    _ <- assert (r == 0) ;;
    let NS := nrows W in
    Ok (zeros NS NS)
  else
    P <- reconstruct WtP W T inds ;;
    ok <- verify W P WtP ;;
    _ <- assert ok ;;
    Ok P.

End Decompression.

(** *** The driver cell *)

(** The length [NS*(NS+1)*(L+1)/2] of a power spectrum. *)
Definition vec_len (NS L : nat) : nat := (NS * (NS + 1) * (L + 1))./2.

(** [round(0.5*N*S*(N*S+1)*(L+1))]: [N*S*(N*S+1)] is even, the product is an
    integer that binary64 holds exactly below 2^53. *)
Definition ps_len (N L S : nat) : nat := vec_len (N * S) L.

(** [[np.dot(RK[:,:2*l+1].T, Pl) for l, Pl in enumerate(full_slices)]] *)
Definition comp_slices (full_slices : seq matrix) (RK : matrix)
  : res (seq matrix) :=
  mapM (fun lPl => dot (transpose (take_cols (2 * lPl.1 + 1) RK)) lPl.2)
       (zip (iota 0 (size full_slices)) full_slices).

(** [sum([len(x.flatten()) for x in comp_slices])] *)
Definition n_short (cs : seq matrix) : nat :=
  sumn [seq size (flatten x) | x <- cs].

End Numeric.

Arguments Ok {A} a.
Arguments PyOther {F}.

(** ** IEEE binary64: the arithmetic numpy computes with *)

Module F64.

Definition isfinite (x : float) : bool := ~~ (is_nan x || is_infinity x).

(** [x ** -0.5] on [np.float64], which is C's [pow].  C99 fixes [pow] at the
    special values: [+inf] at [+0] and [-0], [+0] at both infinities, [nan]
    at [nan] and at a negative finite [x].  At a positive finite
    [x = m * 2^e] the result is the binary64 number nearest to the real
    number [1/sqrt(x)], ties to even, which is what libm's [pow] returns
    (it is taken as correctly rounded).  It is computed with integers:
    [q] is the integer part of [2^k / sqrt(x)], of 65 bits, to which one
    more bit is appended that tells whether something is left below, and
    the whole is rounded to 53 bits. *)
Definition float_pow_neg_half (x : float) : float :=
  if is_nan x then nan
  else if is_zero x then infinity
  else if is_infinity x then 0%float
  else if (x <? 0)%float then nan
  else
    match Prim2SF x with
    | S754_finite _ m e =>
        let k := (64 + (e + 54) / 2)%Z in
        let a := (2 ^ (2 * k - e) / Z.pos m)%Z in
        let q := Z.sqrt a in
        let exact := (q * q * Z.pos m =? 2 ^ (2 * k - e))%Z in
        SF2Prim (binary_normalize prec emax
                   (if exact then 2 * q else 2 * q + 1)%Z (- k - 1)%Z false)
    | _ => nan
    end.

Definition float64 : arith float := {|
  f0 := 0%float;
  fadd := PrimFloat.add;
  fsub := PrimFloat.sub;
  fmul := PrimFloat.mul;
  fdiv := PrimFloat.div;
  fabs := PrimFloat.abs;
  fsqrt := PrimFloat.sqrt;
  fltb := PrimFloat.ltb;
  fleb := PrimFloat.leb;
  feqb := PrimFloat.eqb;
  fisfinite := isfinite;
  pow_neg_half := float_pow_neg_half;
  two_pow_neg_half := 0x1.6a09e667f3bcdp-1%float;
  f_0_1 := 0.1%float;
  f_0_8 := 0.8%float;
  f_1e_15 := 1e-15%float;
  rtol := 1e-05%float;
  atol := 1e-08%float
|}.

End F64.

(** ** Lists, loops and arithmetic *)

From Stdlib Require Import Lia.

(** ssrnat's order and operations handed to [lia]. *)
Ltac to_stdlib :=
  try match goal with
  | |- is_true (leq _ _) => apply/leP
  | |- is_true (eq_op _ _) => apply/eqP
  | |- is_true (negb (eq_op _ _)) => apply/eqP
  | |- leq _ _ = false => apply/negbTE; rewrite -ltnNge; apply/leP
  | |- (eq_op _ _) = false => apply/eqP
  end;
  repeat match goal with
  | H : is_true (_ && _) |- _ => case/andP: H => *
  | H : is_true (leq _ _) |- _ => move/leP: H
  | H : is_true (eq_op _ _) |- _ => move/eqP: H
  | H : is_true (negb (eq_op _ _)) |- _ => move/eqP: H
  | H : leq _ _ = false |- _ => move/negbT: H; rewrite -ltnNge; move/leP
  | H : (eq_op _ _) = false |- _ => move/eqP: H
  | H : leq _ _ = true |- _ => move/leP: H
  | H : (eq_op _ _) = true |- _ => move/eqP: H
  | H : @eq nat _ _ |- _ => move: H
  end;
  rewrite -?plusE -?multE -?minusE.

Ltac natlia := intros; to_stdlib; intros; (lia || nia).

Section Lists.

Variable T : Type.

Lemma size_setitem (s : seq T) (i : nat) (x : T) :
  size (setitem s i x) = size s.
Proof. by elim: s i => [|y s IH] [|i] //=; rewrite IH. Qed.

Lemma nth_setitem (d : T) (s : seq T) (i j : nat) (x : T) :
  nth d (setitem s i x) j = if (j == i) && (i < size s) then x else nth d s j.
Proof.
by elim: s i j => [|y s IH] [|i] [|j] //=; rewrite ?andbF.

Qed.

Lemma setitem_mkseq (g : nat -> T) (n i : nat) (x : T) :
  setitem (mkseq g n) i x = mkseq (fun j => if j == i then x else g j) n.
Proof.
case: n => [|n]; first by case: i.
apply: (@eq_from_nth _ (g 0)); first by rewrite size_setitem !size_mkseq.
move=> j; rewrite size_setitem size_mkseq => Hj.
rewrite nth_setitem size_mkseq !nth_mkseq //.
by case: eqP => [<-|//]; rewrite Hj.
Qed.

Lemma mkseq_ext (g h : nat -> T) (n : nat) :
  (forall j, j < n -> g j = h j) -> mkseq g n = mkseq h n.
Proof.
by move=> E; apply/eq_in_map => j; rewrite mem_iota add0n => /andP [_ /E].
Qed.

Lemma getitem_nth (d : T) (s : seq T) (i : nat) :
  getitem s i = if i < size s then Ok (nth d s i) else Err IndexError.
Proof.
rewrite /getitem; case: ltnP => Hi.
  by rewrite (drop_nth d Hi).
by rewrite drop_oversize.
Qed.

End Lists.


(** ** [ps2slices]: what the three loops compute *)

(** The pairs [(n1, n2)], [n2 <= n1], are visited in the order of
    [tri n1 + n2]. *)
Definition tri (n : nat) : nat := (n * n.+1)./2.
Arguments tri : simpl never.
Lemma tri_S (n : nat) : tri n.+1 = tri n + n.+1.
Proof.
rewrite /tri.
have -> : n.+1 * n.+2 = n * n.+1 + (n.+1).*2.
  by rewrite -addnn mulnC -[in LHS]addn2 mulnDl mul2n -addnn mulnC.
by rewrite halfD oddM /= andbN odd_double doubleK.
Qed.

Lemma tri_le (a b : nat) : a <= b -> tri a <= tri b.
Proof. by move=> H; rewrite /tri; apply: half_leq; apply: leq_mul. Qed.

Lemma tri_mono (a b : nat) : a < b -> tri a + a < tri b.
Proof.
elim: b => [//|b IH]; rewrite ltnS leq_eqVlt tri_S => /orP [/eqP -> | /IH H].
  by rewrite ltn_add2l.
by apply: (ltn_trans H); rewrite -[X in X < _]addn0 ltn_add2l.
Qed.
Definition pair_index (a b : nat) : nat := tri (maxn a b) + minn a b.

Lemma pair_index_inj (a b n1 n2 : nat) :
  n2 <= n1 -> pair_index a b = tri n1 + n2 ->
  maxn a b = n1 /\ minn a b = n2.
Proof.
rewrite /pair_index => H21 E.
have Hm : minn a b <= maxn a b.
  by rewrite /minn /maxn; case: ltnP => // /ltnW.
case: (ltngtP (maxn a b) n1) => [Hlt|Hgt|Heq].
- have := tri_mono Hlt; move: E Hm H21; natlia.
- have := tri_mono Hgt; move: E Hm H21; natlia.
- by split=> //; move: E; rewrite Heq => /addnI.
Qed.

Lemma divmod_inj (d x y r s : nat) :
  r < d -> s < d -> d * x + r = d * y + s -> x = y /\ r = s.
Proof.
move=> Hr Hs E; have Hd : 0 < d by exact: leq_ltn_trans Hr.
have Ex : x = y.
  have := congr1 (fun z => z %/ d) E.
  by rewrite /= !(mulnC d) !divnMDl // !divn_small // !addn0.
by split=> //; move: E; rewrite Ex => /addnI.
Qed.

Lemma maxmin_same (a b n : nat) :
  (maxn a b == n) && (minn a b == n) = (a == n) && (b == n).
Proof. by rewrite /maxn /minn; case: ltnP => _ //; rewrite andbC. Qed.

Lemma maxmin_diff (a b n1 n2 : nat) :
  n2 < n1 ->
  (maxn a b == n1) && (minn a b == n2)
  = ((a == n2) && (b == n1)) || ((a == n1) && (b == n2)).
Proof.
move=> Hlt; rewrite /maxn /minn; case: ltnP => Hab.
  have -> : (a == n1) && (b == n2) = false.
    apply/negP => /andP [/eqP E1 /eqP E2].
    by move: Hab Hlt; rewrite E1 E2; natlia.
  by rewrite orbF andbC.
have -> // : (a == n2) && (b == n1) = false.
apply/negP => /andP [/eqP E1 /eqP E2].
by move: Hab Hlt; rewrite E1 E2; natlia.
Qed.

Section PS2Slices.

Variable F : Type.
Variable A : arith F.

Local Notation "0" := (f0 A) : num_scope.
Local Notation "x * y" := (fmul A x y) : num_scope.

(** The array whose entry [[l][a][b]] is [f l a b]. *)
Definition arr3 (K m n : nat) (f : nat -> nat -> nat -> F) : seq (matrix F) :=
  mkseq (fun l => mkseq (fun a => mkseq (fun b => f l a b) n) m) K.

(** The entry [[l][a][b]] of the l-slices of [ps]. *)
Definition entry (ps : vector F) (L l a b : nat) : F :=
  let p := nth 0%F ps ((L + 1) * pair_index a b + l) in
  if a == b then p else (p * two_pow_neg_half A)%F.

(** The l-slices after the first [k] elements of [ps] have been stored. *)
Definition filled (ps : vector F) (L k l a b : nat) : F :=
  if (L + 1) * pair_index a b + l < k then entry ps L l a b else 0%F.

Definition upd (f : nat -> nat -> nat -> F) (l a b : nat) (p : F)
  : nat -> nat -> nat -> F :=
  fun l' a' b' => if (l' == l) && (a' == a) && (b' == b) then p else f l' a' b'.

Lemma arr3_ext (K m n : nat) (f g : nat -> nat -> nat -> F) :
  (forall l a b, l < K -> a < m -> b < n -> f l a b = g l a b) ->
  arr3 K m n f = arr3 K m n g.
Proof.
move=> E; apply: mkseq_ext => l Hl; apply: mkseq_ext => a Ha.
by apply: mkseq_ext => b Hb; apply: E.
Qed.

Lemma zeros3_arr3 (K m n : nat) (ps : vector F) (L : nat) :
  zeros3 A K m n = arr3 K m n (filled ps L 0).
Proof.
rewrite /zeros3 /zeros /arr3 /filled.
apply: (@eq_from_nth _ [::]); first by rewrite size_nseq size_mkseq.
move=> l; rewrite size_nseq => Hl; rewrite nth_nseq Hl nth_mkseq //.
apply: (@eq_from_nth _ [::]); first by rewrite size_nseq size_mkseq.
move=> a; rewrite size_nseq => Ha; rewrite nth_nseq Ha nth_mkseq //.
apply: (@eq_from_nth _ 0%F); first by rewrite size_nseq size_mkseq.
by move=> b; rewrite size_nseq => Hb; rewrite nth_nseq Hb nth_mkseq.
Qed.

Lemma set3_arr3 (K m n : nat) (f : nat -> nat -> nat -> F) (l a b : nat) (p : F) :
  l < K -> a < m -> b < n ->
  set3 (arr3 K m n f) l a b p = arr3 K m n (upd f l a b p).
Proof.
move=> Hl Ha Hb; rewrite /set3 /arr3 nth_mkseq // nth_mkseq //.
rewrite !setitem_mkseq; apply: mkseq_ext => l' Hl'; rewrite /upd.
case: (l' =P l) => [->|_] /=; apply: mkseq_ext => a' Ha'.
  by case: (a' =P a) => [->|_] //=.
by [].
Qed.

Lemma filled_S (ps : vector F) (L k l a b : nat) :
  filled ps L k.+1 l a b
  = if (L + 1) * pair_index a b + l == k then entry ps L l a b
    else filled ps L k l a b.
Proof. by rewrite /filled ltnS [_ <= k]leq_eqVlt; case: eqP. Qed.

(** One turn of the innermost loop stores the element [k] of [ps]. *)
Lemma ps2slices_l_filled (ps : vector F) (NS L n1 n2 l : nat) :
  n2 <= n1 -> n1 < NS -> l < L + 1 ->
  let k := (L + 1) * (tri n1 + n2) + l in
  ps2slices_l A ps L n1 n2 (tri n1 + n2) l (arr3 (L + 1) NS NS (filled ps L k))
  = if k < size ps then Ok (arr3 (L + 1) NS NS (filled ps L k.+1))
    else Err IndexError.
Proof.
move=> H21 H1 Hl k; rewrite /ps2slices_l (getitem_nth 0%F) -/k.
case: ltnP => // Hk /=.
have H2 : n2 < NS by exact: leq_ltn_trans H1.
have Hidx l' a b : l' < L + 1 ->
    ((L + 1) * pair_index a b + l' == k)
    = (l' == l) && (maxn a b == n1) && (minn a b == n2).
  move=> Hl'; apply/eqP/idP => [E|/andP [/andP [/eqP -> /eqP E1] /eqP E2]].
    have E' : pair_index a b = tri n1 + n2 /\ l' = l.
      by move: E; rewrite /k => /(divmod_inj Hl' Hl).
    case: E' => /(pair_index_inj H21) [-> ->] ->.
    by rewrite !eqxx.
  by rewrite /k /pair_index E1 E2.
case: (n1 =P n2) => [E12|N12].
- rewrite set3_arr3 //; congr Ok; apply: arr3_ext => l' a b Hl' Ha Hb.
  rewrite filled_S Hidx // /upd -E12 -!andbA maxmin_same /entry.
  case: (l' =P l) => [->|//] /=; case: (a =P n1) => [->|//] /=.
  case: (b =P n1) => [->|//] /=.
  by rewrite eqxx /pair_index maxnn minnn /k -E12.
- have N12' : (n1 == n2) = false by apply/eqP.
  have Hlt : n2 < n1 by rewrite ltn_neqAle H21 andbT eq_sym N12'.
  rewrite !set3_arr3 //; congr Ok; apply: arr3_ext => l' a b Hl' Ha Hb.
  rewrite filled_S Hidx // /upd -!andbA (maxmin_diff _ _ Hlt) /entry.
  case: (l' =P l) => [->|//] /=; case: (a =P n2) => [->|Na] /=.
    case: (b =P n1) => [->|Nb] /=.
      by rewrite eq_sym N12' /pair_index /maxn /minn Hlt /k.
    by rewrite eq_sym N12'.
  case: (a =P n1) => [->|//] /=; case: (b =P n2) => [->|//] /=.
  by rewrite N12' /pair_index /maxn /minn ltnNge (ltnW Hlt) /k.
Qed.

(** The loop over [l] for one pair. *)
Lemma ps2slices_l_loop (ps : vector F) (NS L n1 n2 l0 n : nat) :
  n2 <= n1 -> n1 < NS -> l0 + n <= L + 1 ->
  let base := (L + 1) * (tri n1 + n2) in
  base + l0 <= size ps ->
  foldM (ps2slices_l A ps L n1 n2 (tri n1 + n2))
        (arr3 (L + 1) NS NS (filled ps L (base + l0))) (iota l0 n)
  = if base + l0 + n <= size ps
    then Ok (arr3 (L + 1) NS NS (filled ps L (base + l0 + n)))
    else Err IndexError.
Proof.
move=> H21 H1 Hn base; elim: n l0 Hn => [|n IH] l0 Hn Hle /=.
  by rewrite addn0 Hle.
have Hl0 : l0 < L + 1 by move: Hn; natlia.
rewrite (ps2slices_l_filled ps H21 H1 Hl0) -/base.
case: (ltnP (base + l0) (size ps)) => Hlt /=.
  rewrite -[(base + l0).+1]addnS IH;
    [by rewrite addSnnS | by rewrite addnS | by rewrite !addnS !addSn].
rewrite ifN // -ltnNge; apply: leq_ltn_trans Hlt _.
by rewrite addnS ltnS leq_addr.
Qed.

(** The loop over [n2] for one [n1]. *)
Lemma ps2slices_n2_loop (ps : vector F) (NS L n1 m0 n : nat) :
  n1 < NS -> m0 + n <= n1 + 1 ->
  let i0 := tri n1 + m0 in
  (L + 1) * i0 <= size ps ->
  foldM (ps2slices_n2 A ps L n1)
        (arr3 (L + 1) NS NS (filled ps L ((L + 1) * i0)), i0) (iota m0 n)
  = if (L + 1) * (i0 + n) <= size ps
    then Ok (arr3 (L + 1) NS NS (filled ps L ((L + 1) * (i0 + n))), i0 + n)
    else Err IndexError.
Proof.
move=> H1; elim: n m0 => [|n IH] m0 Hn /= Hle.
  by rewrite addn0 Hle.
have Hm0 : m0 <= n1 by move: Hn; natlia.
have := @ps2slices_l_loop ps NS L n1 m0 0 (L + 1) Hm0 H1 (leqnn _).
rewrite /= !addn0 => -> //.
have E : (L + 1) * (tri n1 + m0) + (L + 1) = (L + 1) * (tri n1 + m0.+1).
  by rewrite [tri n1 + _.+1]addnS [RHS]mulnS addnC.
rewrite E; case: leqP => Hlt /=.
  have -> : tri n1 + m0 + 1 = tri n1 + m0.+1 by natlia.
  have -> : tri n1 + m0 + n.+1 = tri n1 + m0.+1 + n by natlia.
  by rewrite IH //; move: Hn; natlia.
rewrite ifN // -ltnNge; apply: leq_trans Hlt _.
by rewrite leq_mul2l; apply/orP; right; natlia.
Qed.

(** The loop over [n1]. *)
Lemma ps2slices_n1_loop (ps : vector F) (NS L m0 n : nat) :
  m0 + n <= NS ->
  (L + 1) * tri m0 <= size ps ->
  foldM (ps2slices_n1 A ps L)
        (arr3 (L + 1) NS NS (filled ps L ((L + 1) * tri m0)), tri m0)
        (iota m0 n)
  = if (L + 1) * tri (m0 + n) <= size ps
    then Ok (arr3 (L + 1) NS NS (filled ps L ((L + 1) * tri (m0 + n))),
             tri (m0 + n))
    else Err IndexError.
Proof.
elim: n m0 => [|n IH] m0 Hn /= Hle.
  by rewrite addn0 Hle.
have Hm0 : m0 < NS by move: Hn; natlia.
have -> : m0 + n.+1 = m0.+1 + n by natlia.
have -> : ps2slices_n1 A ps L m0
            (arr3 (L + 1) NS NS (filled ps L ((L + 1) * tri m0)), tri m0)
          = if (L + 1) * tri m0.+1 <= size ps
            then Ok (arr3 (L + 1) NS NS (filled ps L ((L + 1) * tri m0.+1)),
                     tri m0.+1)
            else Err IndexError.
  have := @ps2slices_n2_loop ps NS L m0 0 (m0 + 1) Hm0 (leqnn _).
  rewrite /ps2slices_n1 /= !addn0 => -> //.
  by have -> : tri m0 + (m0 + 1) = tri m0.+1 by rewrite tri_S addn1.
case: leqP => Hlt /=.
  by rewrite IH //; move: Hn; natlia.
rewrite ifN // -ltnNge; apply: leq_trans Hlt _.
by rewrite leq_mul2l; apply/orP; right; apply: tri_le; rewrite leq_addr.
Qed.

Lemma pair_index_lt (NS a b : nat) : a < NS -> b < NS -> pair_index a b < tri NS.
Proof.
move=> Ha Hb; have Hm : maxn a b < NS by rewrite gtn_max Ha Hb.
apply: leq_ltn_trans (tri_mono Hm); rewrite /pair_index leq_add2l.
by rewrite /minn /maxn; case: ltnP => // /ltnW.
Qed.

(** [ps2slices] in closed form: it reads the first [(L+1) * tri NS]
    elements of [ps], in order, and fails at the first one that is
    missing. *)
Lemma ps2slices_closed (ps : vector F) (NS L : nat) :
  ps2slices A ps NS L
  = if (L + 1) * tri NS <= size ps
    then Ok (arr3 (L + 1) NS NS (entry ps L))
    else Err IndexError.
Proof.
rewrite /ps2slices (zeros3_arr3 _ _ _ ps L).
have := @ps2slices_n1_loop ps NS L 0 NS (leqnn _).
rewrite /tri /= muln0 add0n => -> //.
case: leqP => //= _; congr Ok; apply: arr3_ext => l a b Hl Ha Hb.
rewrite /filled ifT //.
have := pair_index_lt Ha Hb; rewrite /tri.
move: (pair_index a b) (_./2) Hl => x y; natlia.
Qed.

End PS2Slices.

(** ** Shape of the l-slices and the inverse packing *)

Lemma vec_len_tri (NS L : nat) : vec_len NS L = (L + 1) * tri NS.
Proof.
rewrite /vec_len /tri [NS + 1]addn1.
have Et : NS * NS.+1 = ((NS * NS.+1)./2).*2.
  by rewrite -[LHS]odd_double_half oddM /= andbN.
by rewrite [in LHS]Et -doubleMl doubleK mulnC.
Qed.

Lemma flatten_offsets (T : Type) (off len : nat -> nat) (h : nat -> T)
      (n : nat) :
  off 0 = 0 -> (forall i, off i.+1 = off i + len i) ->
  flatten (mkseq (fun i => mkseq (fun k => h (off i + k)) (len i)) n)
  = mkseq h (off n).
Proof.
move=> H0 HS; elim: n => [|n IH]; first by rewrite H0.
rewrite mkseqS flatten_rcons IH HS /mkseq iotaD map_cat add0n.
congr (_ ++ _).
have -> : iota (off n) (len n) = map (addn (off n)) (iota 0 (len n)).
  by rewrite -iotaDl addn0.
by rewrite -map_comp.
Qed.

Section Packing.

Variable F : Type.
Variable A : arith F.

Local Notation "0" := (f0 A) : num_scope.
Local Notation "x * y" := (fmul A x y) : num_scope.

(** Modelled from the spec: the inverse packing of section 8, which the
    notebook does not define.  It flattens the triangle [n2 <= n1] of the
    l-slices in the order [ps2slices] reads it, [L+1] values per pair, a
    diagonal entry as it is and an off-diagonal one through [unscale], the
    inverse of the scaling by [2 ** -0.5]. *)
Definition pack (unscale : F -> F) (l_slices : seq (matrix F)) (NS L : nat)
  : vector F :=
  flatten (mkseq (fun n1 =>
    flatten (mkseq (fun n2 =>
      mkseq (fun l =>
        let p := nth 0%F (nth [::] (nth [::] l_slices l) n1) n2 in
        if n1 == n2 then p else unscale p) (L + 1)) (n1 + 1))) NS).

Lemma entry_sym (ps : vector F) (L l a b : nat) :
  entry A ps L l a b = entry A ps L l b a.
Proof. by rewrite /entry /pair_index maxnC minnC eq_sym. Qed.

Lemma nth_arr3 (K m n : nat) (f : nat -> nat -> nat -> F) (l a b : nat) :
  l < K -> a < m -> b < n ->
  nth 0%F (nth [::] (nth [::] (arr3 K m n f) l) a) b = f l a b.
Proof. by move=> Hl Ha Hb; rewrite /arr3 !nth_mkseq. Qed.

Lemma wf_mkseq (m n : nat) (f : nat -> nat -> F) :
  wf m n (mkseq (fun a => mkseq (fun b => f a b) n) m).
Proof.
rewrite /wf size_mkseq eqxx /= /mkseq all_map; apply/allP => a _ /=.
by rewrite size_map size_iota.
Qed.

Lemma transpose_mkseq (n : nat) (f : nat -> nat -> F) :
  (forall a b, a < n -> b < n -> f a b = f b a) ->
  transpose A (mkseq (fun a => mkseq (fun b => f a b) n) n)
  = mkseq (fun a => mkseq (fun b => f a b) n) n.
Proof.
move=> Hs; rewrite /transpose /ncols.
case: n Hs => [//|n] Hs.
have -> : size (head [::] (mkseq (fun a => mkseq (fun b => f a b) n.+1) n.+1))
          = n.+1 by rewrite /= size_map size_iota.
apply: mkseq_ext => j Hj; rewrite -map_comp; apply/eq_in_map => a.
by rewrite mem_iota add0n /= => Ha; rewrite nth_mkseq // Hs.
Qed.

Lemma entry_take (ps : vector F) (NS L n l a b : nat) :
  (L + 1) * tri NS <= n -> l < L + 1 -> a < NS -> b < NS ->
  entry A (take n ps) L l a b = entry A ps L l a b.
Proof.
move=> Hn Hl Ha Hb; rewrite /entry nth_take //.
apply: leq_trans Hn; have := pair_index_lt Ha Hb.
move: (pair_index a b) (tri NS) Hl => x y; natlia.
Qed.

(** The l-slices of a vector that is long enough: an [(L+1, NS, NS)]
    array of symmetric matrices that depends on the first
    [vec_len NS L] elements only. *)
Lemma ps2slices_long (ps : vector F) (NS L : nat) :
  vec_len NS L <= size ps ->
  exists ls,
    [/\ ps2slices A ps NS L = Ok ls,
        ps2slices A (take (vec_len NS L) ps) NS L = Ok ls,
        size ls = L + 1
      & forall l, l < L + 1 ->
          wf NS NS (nth [::] ls l)
          /\ transpose A (nth [::] ls l) = nth [::] ls l].
Proof.
move=> Hlen; exists (arr3 (L + 1) NS NS (entry A ps L)); split.
- by rewrite ps2slices_closed -vec_len_tri Hlen.
- rewrite ps2slices_closed -vec_len_tri size_take.
  have -> : (if vec_len NS L < size ps then vec_len NS L else size ps)
            = vec_len NS L.
    by case: ltnP => // H; apply/eqP; rewrite eqn_leq H Hlen.
  rewrite leqnn; congr Ok; apply: arr3_ext => l a b Hl Ha Hb.
  by rewrite (@entry_take _ NS) // -vec_len_tri.
- by rewrite size_mkseq.
- move=> l Hl; rewrite /arr3 nth_mkseq //; split; first exact: wf_mkseq.
  by apply: transpose_mkseq => a b _ _; exact: entry_sym.
Qed.

Lemma ps2slices_short (ps : vector F) (NS L : nat) :
  size ps < vec_len NS L -> ps2slices A ps NS L = Err IndexError.
Proof. by move=> H; rewrite ps2slices_closed -vec_len_tri leqNgt H. Qed.

(** Re-packing the l-slices of [ps]: the element of each diagonal pair as
    it is, that of an off-diagonal pair scaled and unscaled. *)
Lemma pack_unpacked (unscale : F -> F) (ps : vector F) (NS L : nat) :
  pack unscale (arr3 (L + 1) NS NS (entry A ps L)) NS L
  = flatten (mkseq (fun n1 =>
      flatten (mkseq (fun n2 =>
        mkseq (fun l =>
          let p := nth 0%F ps ((L + 1) * (tri n1 + n2) + l) in
          if n1 == n2 then p else unscale (p * two_pow_neg_half A)%F)
        (L + 1)) (n1 + 1))) NS).
Proof.
rewrite /pack; congr flatten; apply: mkseq_ext => n1 H1.
congr flatten; apply: mkseq_ext => n2; rewrite addn1 ltnS => H2.
apply: mkseq_ext => l Hl; rewrite nth_arr3 //; first exact: leq_ltn_trans H2 H1.
rewrite /entry /pair_index /maxn /minn.
by case: (ltngtP n1 n2) => [H|H|E] //; move: H2; rewrite leqNgt H.
Qed.

Lemma flatten_packed (h : nat -> F) (NS L : nat) :
  flatten (mkseq (fun n1 =>
    flatten (mkseq (fun n2 =>
      mkseq (fun l => h ((L + 1) * (tri n1 + n2) + l)) (L + 1)) (n1 + 1))) NS)
  = mkseq h ((L + 1) * tri NS).
Proof.
have H0 : (L + 1) * tri 0 = 0 by rewrite /tri mul0n /= muln0.
have HS i : (L + 1) * tri i.+1 = (L + 1) * tri i + (L + 1) * (i + 1).
  by rewrite tri_S [i + 1]addn1 mulnDr.
rewrite -(@flatten_offsets _ (fun i => (L + 1) * tri i)
            (fun i => (L + 1) * (i + 1)) h NS H0 HS).
congr flatten; apply: mkseq_ext => n1 _.
have K0 : (L + 1) * 0 = 0 by rewrite muln0.
have KS i : (L + 1) * i.+1 = (L + 1) * i + (L + 1) by rewrite mulnS addnC.
rewrite -(@flatten_offsets _ (fun i => (L + 1) * i) (fun=> L + 1)
            (fun k => h ((L + 1) * tri n1 + k)) (n1 + 1) K0 KS).
congr flatten; apply: mkseq_ext => n2 _; apply: mkseq_ext => l _.
by rewrite mulnDr addnA.
Qed.

End Packing.

(** C6 (amended): [ps2slices] does not check the length of its input.  On
    a vector shorter than [NS*(NS+1)*(L+1)/2] it raises [IndexError]; on
    one at least that long it returns [L+1] symmetric [NS] x [NS]
    matrices read from the first [NS*(NS+1)*(L+1)/2] elements, whatever
    follows them. *)
Theorem ps2slices_length_cases (F : Type) (A : arith F) (ps : vector F)
        (NS L : nat) :
  (size ps < vec_len NS L -> ps2slices A ps NS L = Err IndexError)
  /\ (vec_len NS L <= size ps ->
      exists ls,
        [/\ ps2slices A ps NS L = Ok ls,
            ps2slices A (take (vec_len NS L) ps) NS L = Ok ls,
            size ls = L + 1
          & forall l, l < L + 1 ->
              wf NS NS (nth [::] ls l)
              /\ transpose A (nth [::] ls l) = nth [::] ls l]).
Proof. by split; [exact: ps2slices_short | exact: ps2slices_long]. Qed.

(** Unpacking then packing, for any inverse scaling that undoes the
    multiplication by [2 ** -0.5] on the elements of the vector. *)
Lemma pack_unpack (F : Type) (A : arith F) (unscale : F -> F)
        (ps : vector F) (NS L : nat) :
  size ps = vec_len NS L ->
  (forall k, k < size ps ->
     unscale (fmul A (nth (f0 A) ps k) (two_pow_neg_half A))
     = nth (f0 A) ps k) ->
  exists ls, ps2slices A ps NS L = Ok ls /\ pack A unscale ls NS L = ps.
Proof.
move=> Hsz Hun; exists (arr3 (L + 1) NS NS (entry A ps L)); split.
  by rewrite ps2slices_closed -vec_len_tri Hsz leqnn.
rewrite pack_unpacked -[RHS](mkseq_nth (f0 A)) Hsz vec_len_tri.
rewrite -flatten_packed; congr flatten; apply: mkseq_ext => n1 H1.
congr flatten; apply: mkseq_ext => n2; rewrite addn1 ltnS => H2.
apply: mkseq_ext => l Hl /=; case: eqP => // _; apply: Hun.
rewrite Hsz vec_len_tri.
have := pair_index_lt H1 (leq_ltn_trans H2 H1).
rewrite /pair_index /maxn /minn.
case: (ltnP n1 n2) => [H|_]; first by move: H2; rewrite leqNgt H.
move: (tri n1 + n2) (tri NS) Hl => x y; natlia.
Qed.

(** ** Binary64 runs of [ps2slices] and of the inverse packing *)

(** C6, counterexample: a vector of length 2 where [vec_len 1 0 = 1] is
    expected is accepted, its second element ignored; a vector that is too
    short raises [IndexError], the out-of-bounds error of [ps[...]]. *)
Lemma ps2slices_no_length_check :
  size [:: 1%float; 2%float] <> vec_len 1 0
  /\ ps2slices F64.float64 [:: 1%float; 2%float] 1 0 = Ok [:: [:: [:: 1%float]]]
  /\ ps2slices F64.float64 [::] 1 0 = Err IndexError.
Proof. by split; [|split]; vm_compute. Qed.

(** The multiplication by [2 ** 0.5], the other reading of the inverse of
    the scaling by [2 ** -0.5]. *)
Definition unscale_mul (x : float) : float :=
  (x * 0x1.6a09e667f3bcdp+0)%float.

(** ** [compress_ps] *)

Open Scope string_scope.

(** The names the cells of the notebook bind at top level: the imports,
    the six functions and the variables of the driver cells.  Python looks
    a global name up here and then among the builtins, which hold no
    [split_ps2] either. *)
Definition notebook_globals (F : Type) (A : arith F) : globals F :=
  [:: ("quippy", PyOther); ("descriptors", PyOther); ("ase", PyOther);
      ("read", PyOther); ("write", PyOther); ("scipy", PyOther);
      ("PT", PyOther); ("random", PyOther); ("os", PyOther);
      ("glob", PyOther); ("zipfile", PyOther); ("urllib", PyOther);
      ("np", PyOther); ("pprint", PyOther); ("pp", PyOther);
      ("plt", PyOther);
      ("dataset_to_params", PyOther); ("params2quippy_str", PyOther);
      ("compress_ps", PyOther); ("ps2slices", PyFun (ps2slices_py A));
      ("gen_random_key", PyOther); ("uncompress_slice", PyOther);
      ("url", PyOther); ("zip_ref", PyOther); ("xsf_files", PyOther);
      ("dataset", PyOther); ("params", PyOther); ("qs", PyOther);
      ("N", PyOther); ("L", PyOther); ("S", PyOther); ("RK", PyOther);
      ("i", PyOther); ("struc", PyOther); ("desc", PyOther);
      ("output", PyOther); ("ps", PyOther); ("full_slices", PyOther);
      ("ps2", PyOther); ("comp_slices", PyOther); ("n_short", PyOther);
      ("recon_slices", PyOther)].

Close Scope string_scope.

(** [round(params[key])] *)
Definition round_param (params : dict) (key : string) : res Z :=
  v <- lookup params key ;; round v.

Section CompressPs.

Variable F : Type.
Variable A : arith F.

Lemma load_split_ps2 :
  load_global (notebook_globals A) "split_ps2" = Err (NameError "split_ps2").
Proof. by []. Qed.

(** [compress_ps] never returns in the notebook: whatever its arguments,
    it raises an exception. *)
Lemma compress_ps_raises (ps : vector F) (params : dict)
      (random_key : matrix F) (norm : bool) :
  exists e, compress_ps A (notebook_globals A) ps params random_key norm
            = Err e.
Proof.
rewrite /compress_ps.
case: (bind (lookup params "n_max") _) => [N|e] /=; last by exists e.
case: (bind (lookup params "l_max") _) => [L|e] /=; last by exists e.
case: (bind (lookup params "n_Z") _) => [S|e] /=; last by exists e.
by exists (NameError "split_ps2").
Qed.

(** The loop of [compress_ps] appends to [short] the flattened products
    [W_l^T P_l], in the order of [l]. *)
Lemma compress_loop (l_slices : seq (matrix F)) (random_key : matrix F)
      (s : seq nat) (short : vector F) :
  foldM (compress_l A l_slices random_key) short s
  = (cs <- mapM (fun l =>
             Pl <- getitem l_slices l ;;
             dot A (transpose A (take_cols (2 * l + 1) random_key)) Pl) s ;;
     Ok (short ++ flatten [seq flatten c | c <- cs])).
Proof.
elim: s short => [|l s IH] short /=; first by rewrite cats0.
rewrite /compress_l; case: (getitem l_slices l) => [Pl|e] //=.
case: (dot A _ Pl) => [WtP|e] //=; rewrite IH.
by case: (mapM _ s) => [cs|e] //=; rewrite catA.
Qed.

End CompressPs.

(** C9 (amended): when [params] holds values that [round] accepts under
    the keys n_max, l_max and n_Z, [compress_ps] raises [NameError] for the
    name split_ps2, which nothing in the notebook binds, before it
    computes anything. *)
Theorem compress_ps_NameError (F : Type) (A : arith F) (ps : vector F)
        (params : dict) (random_key : matrix F) (norm : bool) (N L S : Z) :
  round_param params "n_max" = Ok N ->
  round_param params "l_max" = Ok L ->
  round_param params "n_Z" = Ok S ->
  compress_ps A (notebook_globals A) ps params random_key norm
  = Err (NameError "split_ps2").
Proof.
by rewrite /compress_ps /round_param => -> -> ->.
Qed.

(** The [params] that [dataset_to_params] builds for a dataset of one
    species (the keys that hold strings and floats included). *)
Definition params_one_species : dict :=
  [:: ("n_Z", PyInt 1); ("n_species", PyInt 1); ("Z", PyStr "{3}");
      ("species_Z", PyStr "{3}"); ("n_max", PyInt 6); ("l_max", PyInt 3);
      ("soap cutoff", PyInt 5); ("atom_sigma", PyFloat 0.4)]%string.

(** C9, witness. *)
Lemma compress_ps_NameError_witness :
  compress_ps F64.float64 (notebook_globals F64.float64) [:: 1%float]
              params_one_species [:: [:: 0.5%float]] true
  = Err (NameError "split_ps2").
Proof.
by apply: (@compress_ps_NameError _ _ _ _ _ _ 6%Z 3%Z 1%Z).
Defined.

(** C9, counterexample: with a [params] that lacks the key n_max the
    exception is [KeyError], raised before the name split_ps2 is read. *)
Lemma compress_ps_KeyError :
  compress_ps F64.float64 (notebook_globals F64.float64) [:: 1%float]
              [::] [:: [:: 0.5%float]] true
  = Err (KeyError "n_max")
  /\ compress_ps F64.float64 (notebook_globals F64.float64) [:: 1%float]
              [:: ("n_max", PyStr "6")]%string [:: [:: 0.5%float]] true
     = Err TypeError.
Proof. by []. Qed.

(** The loop of [compress_ps] as a map over [range(0, L+1)]. *)
Lemma compress_slices_mapM (F : Type) (A : arith F)
      (l_slices : seq (matrix F)) (L : nat) (random_key : matrix F)
      (norm : bool) :
  compress_slices A l_slices L random_key norm
  = (cs <- mapM (fun l =>
             Pl <- getitem l_slices l ;;
             dot A (transpose A (take_cols (2 * l + 1) random_key)) Pl)
           (iota 0 (L + 1)) ;;
     let short := flatten [seq flatten c | c <- cs] in
     Ok (if norm then normalize A short else short)).
Proof.
rewrite /compress_slices compress_loop.
by case: (mapM _ _) => [cs|e] //=; case: norm.
Qed.

(** C3, counterexample: with the default [norm=True] the slice [[2.0]]
    and the key [[1.0]] give [1.0], not the product [[2.0]]. *)
Lemma compress_slices_normalizes :
  dot F64.float64 (transpose F64.float64 (take_cols 1 [:: [:: 1%float]]))
      [:: [:: 2%float]] = Ok [:: [:: 2%float]]
  /\ compress_slices F64.float64 [:: [:: [:: 2%float]]] 0 [:: [:: 1%float]]
                     true
     = Ok [:: 1%float]
  /\ compress_slices F64.float64 [:: [:: [:: 2%float]]] 0 [:: [:: 1%float]]
                     false
     = Ok [:: 2%float].
Proof. by split; [|split]; vm_compute. Qed.

(** ** Shapes of the arrays *)

Section Shapes.

Variable F : Type.
Variable A : arith F.

Lemma wfP (m n : nat) (M : matrix F) :
  wf m n M -> size M = m /\ forall i, i < m -> size (nth [::] M i) = n.
Proof.
case/andP => /eqP Hm /(all_nthP [::]) Hn; split=> // i Hi.
by apply/eqP/Hn; rewrite Hm.
Qed.

Lemma wf_intro (m n : nat) (M : matrix F) :
  size M = m -> (forall i, i < m -> size (nth [::] M i) = n) -> wf m n M.
Proof.
move=> Hm Hn; rewrite /wf Hm eqxx /=; apply/(all_nthP [::]) => i.
by rewrite Hm => /Hn ->.
Qed.

Lemma ncols_wf (m n : nat) (M : matrix F) : wf m n M -> 0 < m -> ncols M = n.
Proof.
move=> /wfP [Hm Hn] H0; rewrite /ncols -nth0; exact: Hn.
Qed.

Lemma wf_take_cols (m n k : nat) (M : matrix F) :
  wf m n M -> wf m (minn k n) (take_cols k M).
Proof.
move=> /wfP [Hm Hn]; apply: wf_intro; first by rewrite size_map.
by move=> i Hi; rewrite (nth_map [::]) ?Hm // size_take_min Hn.
Qed.

Lemma wf_transpose (m n : nat) (M : matrix F) :
  wf m n M -> 0 < m -> wf n m (transpose A M).
Proof.
move=> HM H0; rewrite /transpose (ncols_wf HM H0).
case/wfP: HM => Hm _; apply: wf_intro; first by rewrite size_mkseq.
by move=> j Hj; rewrite nth_mkseq // size_map.
Qed.

Lemma dot_wf (m n p : nat) (M1 M2 : matrix F) :
  wf m n M1 -> wf n p M2 -> 0 < m -> 0 < n ->
  exists2 M, dot A M1 M2 = Ok M & wf m p M.
Proof.
move=> H1 H2 Hm Hn; rewrite /dot (ncols_wf H1 Hm) (ncols_wf H2 Hn) /nrows.
case/wfP: (H2) => -> _; rewrite eqxx; eexists; first by [].
case/wfP: H1 => H1 _; apply: wf_intro; first by rewrite size_map.
by move=> i Hi; rewrite (nth_map [::]) ?H1 // size_mkseq.
Qed.

Lemma size_flatten_wf (m n : nat) (M : matrix F) :
  wf m n M -> size (flatten M) = m * n.
Proof.
case/andP => /eqP <- Hn; rewrite size_flatten /shape.
elim: M Hn => [//|r M IH] /= /andP [/eqP -> /IH ->].
by rewrite mulSn.
Qed.

(** The compressed slice [np.dot(RK[:, :k].T, Pl)] of an [NS] x [NS]
    slice under an [NS] x [c] key holds [min(k, c) * NS] numbers. *)
Lemma compressed_slice_size (NS c k : nat) (RK Pl : matrix F) :
  wf NS c RK -> wf NS NS Pl -> 0 < k -> (0 < NS -> 0 < c) ->
  exists2 WtP, dot A (transpose A (take_cols k RK)) Pl = Ok WtP
             & size (flatten WtP) = minn k c * NS.
Proof.
move=> HRK HPl Hk Hc; case: (posnP NS) => [E0|H0].
  move: HRK HPl; rewrite E0 => /wfP [/size0nil -> _] /wfP [/size0nil -> _].
  by exists [::]; rewrite ?muln0.
have Hmin : 0 < minn k c by rewrite leq_min Hk Hc.
have HW := wf_transpose (wf_take_cols k HRK) H0.
have [WtP E HWtP] := dot_wf HW HPl Hmin H0.
by exists WtP; rewrite ?(size_flatten_wf HWtP).
Qed.

End Shapes.

(** ** The length of the compressed vector *)

Lemma tri_double (n : nat) : (tri n).*2 = n * n.+1.
Proof. by rewrite /tri -[RHS]odd_double_half oddM /= andbN. Qed.

Lemma pow2E (n : nat) : n ^ 2 = n * n.
Proof. by rewrite /= !multE muln1. Qed.

Lemma sumn_odds (c NS K : nat) :
  2 * K <= c + 1 ->
  sumn [seq NS * minn (2 * l + 1) c | l <- iota 0 K] = NS * K ^ 2.
Proof.
elim: K => [|K IH] HK; first by rewrite pow2E /= !muln0.
rewrite -[in iota _ _]addn1 iotaD map_cat sumn_cat IH; first by move: HK; natlia.
rewrite /= add0n addn0.
have -> : minn (2 * K + 1) c = 2 * K + 1.
  by apply/minn_idPl; move: HK; natlia.
by natlia.
Qed.

Lemma compression_gain (NS L : nat) :
  2 * L + 1 < NS -> NS * (L + 1) ^ 2 < vec_len NS L.
Proof.
move=> H; rewrite vec_len_tri.
rewrite pow2E.
have := tri_double NS; rewrite -muln2.
move: (tri NS) => t Ht.
have H1 : NS * (L + 1) < t by move: H Ht; natlia.
have : (L + 1) * (NS * (L + 1)) < (L + 1) * t by rewrite ltn_mul2l H1 addn1.
by natlia.
Qed.

(** The [params] of a dataset with [S] species, [n_max = N] and
    [l_max = L]. *)
Definition params_of (N L S : nat) : dict :=
  [:: ("n_Z", PyInt (Z.of_nat S)); ("n_max", PyInt (Z.of_nat N));
      ("l_max", PyInt (Z.of_nat L))]%string.

Section CompressedLength.

Variable F : Type.
Variable A : arith F.

Lemma gen_random_key_shape (sample : nat -> nat -> F) (N L S : nat) :
  exists2 RK, gen_random_key A sample (params_of N L S) = Ok RK
            & wf (N * S) (minn (N * S) (2 * L + 1)) RK.
Proof.
have Hn : bind (lookup (params_of N L S) "n_max") round = Ok (Z.of_nat N) by [].
have Hl : bind (lookup (params_of N L S) "l_max") round = Ok (Z.of_nat L) by [].
have Hz : bind (lookup (params_of N L S) "n_Z") round = Ok (Z.of_nat S) by [].
rewrite /gen_random_key Hn Hl Hz [bind _ _]/bind [bind _ _]/bind [bind _ _]/bind.
have E1 : (Z.of_nat N * Z.of_nat S)%Z = Z.of_nat (N * S).
  by rewrite -multE Nat2Z.inj_mul.
have E2 : Z.min (Z.of_nat N * Z.of_nat S) (2 * Z.of_nat L + 1)
          = Z.of_nat (minn (N * S) (2 * L + 1)).
  rewrite E1 /minn; case: ltnP => H; [rewrite Z.min_l // | rewrite Z.min_r //];
    move: H; natlia.
rewrite E2 E1.
have -> : ((Z.of_nat (N * S) <? 0) || (Z.of_nat (minn (N * S) (2 * L + 1)) <? 0))%Z
          = false.
  by apply/negbTE; rewrite negb_or; apply/andP; split; apply/negP => /Z.ltb_lt; lia.
rewrite !Nat2Z.id; eexists; first by [].
exact: wf_mkseq.
Qed.

Lemma comp_slices_sizes (NS c m : nat) (RK : matrix F) (ls : seq (matrix F)) :
  wf NS c RK -> (0 < NS -> 0 < c) ->
  (forall l, l < size ls -> wf NS NS (nth [::] ls l)) ->
  exists2 cs,
    mapM (fun lPl => dot A (transpose A (take_cols (2 * lPl.1 + 1) RK)) lPl.2)
         (zip (iota m (size ls)) ls) = Ok cs
    & [seq size (flatten x) | x <- cs]
      = [seq minn (2 * l + 1) c * NS | l <- iota m (size ls)].
Proof.
move=> HRK Hc; elim: ls m => [|Pl ls IH] m Hwf /=; first by exists [::].
have HPl : wf NS NS Pl by exact: (Hwf 0).
have Hk : 0 < 2 * m + 1 by rewrite addn1.
have [WtP -> Hsz] := compressed_slice_size A HRK HPl Hk Hc.
have [|cs -> Hcs] := IH m.+1; first by move=> l Hl; exact: (Hwf l.+1).
by exists (WtP :: cs); rewrite //= Hsz Hcs.
Qed.

End CompressedLength.

Section CompressedLengthTheorem.

Variable F : Type.
Variable A : arith F.

(** Over [L+1] slices, [range(0, L+1)] with [l_slices[l]] and
    [enumerate(l_slices)] visit the same pairs. *)
Lemma mapM_enumerate (B : Type) (g : nat -> matrix F -> res B)
      (ls0 ls : seq (matrix F)) :
  mapM (fun l => Pl <- getitem (ls0 ++ ls) l ;; g l Pl)
       (iota (size ls0) (size ls))
  = mapM (fun lPl => g lPl.1 lPl.2) (zip (iota (size ls0) (size ls)) ls).
Proof.
elim: ls ls0 => [//|Pl ls IH] ls0 /=.
have -> : getitem (ls0 ++ Pl :: ls) (size ls0) = Ok Pl.
  by rewrite /getitem drop_size_cat.
rewrite /=; case: (g (size ls0) Pl) => [y|e] //=.
by have := IH (rcons ls0 Pl); rewrite size_rcons cat_rcons => ->.
Qed.

Lemma n_short_size (cs : seq (matrix F)) :
  size (flatten [seq flatten c | c <- cs]) = n_short cs.
Proof. by rewrite size_flatten /shape -map_comp. Qed.

End CompressedLengthTheorem.

(** ** [uncompress_slice] *)

Section Decompressor.

Variable F : Type.
Variable A : arith F.
Variable matrix_rank : matrix F -> res nat.
Variable eigh : matrix F -> res (vector F * matrix F).

(** Every entry of [M] compares equal to zero. *)
Definition is_zero_matrix (M : matrix F) : bool :=
  all (all (fun x => feqb A x (f0 A))) M.

(** What is assumed of [np.linalg.matrix_rank]: the rank of a zero array
    with at least one row and one column is 0 (its singular values are 0,
    none above the tolerance). *)
Definition rank_zero_spec : Prop :=
  forall (m n : nat) (T : matrix F),
    0 < m -> 0 < n -> wf m n T -> is_zero_matrix T -> matrix_rank T = Ok 0.

Lemma get_IR_zero_rows (n m0 : nat) (M : matrix F) :
  rank_zero_spec -> 0 < n ->
  all (fun r => size r == n) M -> is_zero_matrix M ->
  foldM (get_IR_step matrix_rank) ([::], [::], 0) (zip (iota m0 (size M)) M)
  = Ok ([::], [::], 0).
Proof.
move=> Hrank Hn; elim: M m0 => [//|r M IH] m0 /= /andP [Hr HM] /andP [Zr ZM].
rewrite (Hrank 1 n [:: r]) //=; last exact: (IH _ HM ZM).
- by rewrite /wf /= Hr.
- by rewrite Zr.
Qed.

Lemma get_IR_zero (m n : nat) (M : matrix F) :
  rank_zero_spec -> 0 < n -> wf m n M -> is_zero_matrix M ->
  get_IR matrix_rank M = Ok ([::], [::]).
Proof.
move=> Hrank Hn /andP [_ HM] ZM.
by rewrite /get_IR (get_IR_zero_rows 0 Hrank Hn HM ZM).
Qed.

(** The decompressor on a zero compressed slice. *)
Lemma uncompress_slice_zero (m n l : nat) (WtP RK : matrix F) :
  rank_zero_spec -> 0 < m -> 0 < n -> wf m n WtP -> is_zero_matrix WtP ->
  uncompress_slice A matrix_rank eigh WtP l RK
  = Ok (zeros A (size RK) (size RK)).
Proof.
move=> Hrank Hm Hn Hwf HZ.
rewrite /uncompress_slice (get_IR_zero Hrank Hn Hwf HZ) /=.
by rewrite (Hrank m n WtP) //= /nrows /take_cols size_map.
Qed.

(** The eigen route of [uncompress_slice] ends with the check of the
    reconstruction. *)
Lemma uncompress_slice_eigen_route (WtP RK T : matrix F) (l : nat)
      (inds : seq nat) :
  get_IR matrix_rank WtP = Ok (T, inds) -> size inds <> 0 ->
  uncompress_slice A matrix_rank eigh WtP l RK
  = (P <- reconstruct A eigh WtP (take_cols (2 * l + 1) RK) T inds ;;
     ok <- verify A (take_cols (2 * l + 1) RK) P WtP ;;
     if ok then Ok P else Err AssertionError).
Proof.
move=> HIR Hinds; rewrite /uncompress_slice HIR /=.
case: eqP => // _; case: (reconstruct _ _ _ _ _ _) => [P|e] //=.
by case: (verify _ _ _ _) => [[]|e].
Qed.

End Decompressor.

(** Zero times a number of the key, added to zero, is zero. *)
Definition absorbs_zero (F : Type) (A : arith F) (M : matrix F) : Prop :=
  forall i j, i < size M -> j < size (nth [::] M i) ->
    fadd A (f0 A) (fmul A (nth (f0 A) (nth [::] M i) j) (f0 A)) = f0 A.

Section CompressZero.

Variable F : Type.
Variable A : arith F.

Lemma wf_zeros (m n : nat) : wf m n (zeros A m n).
Proof.
apply: wf_intro; first by rewrite size_nseq.
by move=> i Hi; rewrite nth_nseq Hi size_nseq.
Qed.

Lemma dotp_zero (u : vector F) (n : nat) :
  (forall i, i < size u ->
     fadd A (f0 A) (fmul A (nth (f0 A) u i) (f0 A)) = f0 A) ->
  dotp A u (nseq n (f0 A)) = f0 A.
Proof.
rewrite /dotp; elim: u n => [|x u IH] [|n] //= H.
rewrite (H 0) //; apply: IH => i Hi; exact: (H i.+1).
Qed.

(** The compressed slice of a zero slice. *)
Lemma compress_zero (NS c k : nat) (RK : matrix F) :
  wf NS c RK -> 0 < NS -> 0 < k -> 0 < c -> absorbs_zero A RK ->
  dot A (transpose A (take_cols k RK)) (zeros A NS NS)
  = Ok (zeros A (minn k c) NS).
Proof.
move=> HRK H0 Hk Hc Habs.
have HW := wf_transpose A (wf_take_cols k HRK) H0.
have Hmin : 0 < minn k c by rewrite leq_min Hk Hc.
have HZ := wf_zeros NS NS.
rewrite /dot (ncols_wf HW Hmin) /nrows {1}/zeros size_nseq eqxx.
rewrite (ncols_wf HZ H0); congr Ok.
case/wfP: (HW) => HWs HWr.
rewrite [RHS]/zeros.
apply: (@eq_from_nth _ [::]); first by rewrite size_map HWs size_nseq.
move=> i; rewrite size_map HWs => Hi.
rewrite (nth_map [::]) ?HWs // nth_nseq Hi.
apply: (@eq_from_nth _ (f0 A)); first by rewrite size_mkseq size_nseq.
move=> j; rewrite size_mkseq => Hj; rewrite nth_mkseq // nth_nseq Hj.
have -> : col A j (zeros A NS NS) = nseq NS (f0 A).
  rewrite /col /zeros map_nseq nth_nseq Hj //.
apply: dotp_zero => a; rewrite HWr // => Ha.
rewrite /transpose (ncols_wf (wf_take_cols k HRK) H0) nth_mkseq //.
case/wfP: (HRK) => HRs HRr.
have Ha' : a < size (take_cols k RK) by rewrite size_map HRs.
rewrite (nth_map [::] (f0 A) _ Ha') /take_cols.
have Ha2 : a < size RK by rewrite HRs.
rewrite (nth_map [::] [::] _ Ha2).
have [Hik Hic] : i < k /\ i < c by apply/andP; rewrite -leq_min.
by rewrite (nth_take _ Hik); apply: Habs; rewrite ?HRs // HRr.
Qed.

End CompressZero.

(** C4: a zero slice is compressed to a zero slice, and on a zero
    compressed slice [uncompress_slice] returns the zero matrix of the size
    of the key's rows without calling [np.linalg.eigh] (the result is the
    same whatever [eigh] is, one that always fails included).  The key is
    assumed free of infinities and nans ([absorbs_zero]), and
    [np.linalg.matrix_rank] to give 0 on zero arrays. *)
Theorem zero_preservation (F : Type) (A : arith F)
        (matrix_rank : matrix F -> res nat)
        (eigh : matrix F -> res (vector F * matrix F))
        (NS c l : nat) (RK : matrix F) :
  rank_zero_spec A matrix_rank ->
  wf NS c RK -> 0 < NS -> 0 < c -> absorbs_zero A RK ->
  feqb A (f0 A) (f0 A) = true ->
  let k := minn (2 * l + 1) c in
  [/\ dot A (transpose A (take_cols (2 * l + 1) RK)) (zeros A NS NS)
      = Ok (zeros A k NS),
      forall WtP, wf k NS WtP -> is_zero_matrix A WtP ->
        uncompress_slice A matrix_rank eigh WtP l RK = Ok (zeros A NS NS)
    & uncompress_slice A matrix_rank eigh (zeros A k NS) l RK
      = Ok (zeros A NS NS)].
Proof.
move=> Hrank HRK H0 Hc Habs H00 k.
have Hk : 0 < k by rewrite leq_min Hc addn1.
have Hsz : size RK = NS by case/wfP: HRK.
have Hun WtP : wf k NS WtP -> is_zero_matrix A WtP ->
    uncompress_slice A matrix_rank eigh WtP l RK = Ok (zeros A NS NS).
  by move=> Hwf HZ; rewrite (@uncompress_slice_zero _ A matrix_rank eigh k NS l WtP RK Hrank Hk H0 Hwf HZ) Hsz.
split=> //; first by apply: compress_zero => //; rewrite addn1.
apply: Hun; first exact: wf_zeros.
rewrite /is_zero_matrix /zeros; apply/(all_nthP [::]) => i.
rewrite size_nseq => Hi; rewrite nth_nseq Hi; apply/(all_nthP (f0 A)) => j.
by rewrite size_nseq => Hj; rewrite nth_nseq Hj.
Qed.

(** The eigen route up to the eigenvalues. *)
Definition reduced_gram (F : Type) (A : arith F) (WtP W : matrix F)
           (inds : seq nat) : res (matrix F) :=
  C <- dot A WtP W ;;
  C' <- select_rows inds C ;;
  select_cols inds C'.

(** [assert np.allclose(R, C)] with [R = U^T Lambda U]. *)
Definition eigen_check (F : Type) (A : arith F) (vals : vector F)
           (Ut C : matrix F) : res bool :=
  let U := transpose A Ut in
  LU <- dot A (diag A vals) U ;;
  R <- dot A (transpose A U) LU ;;
  allclose A R C.

Lemma reconstruct_eq (F : Type) (A : arith F)
      (eigh : matrix F -> res (vector F * matrix F))
      (WtP W T C Ut : matrix F) (inds : seq nat) (vals : vector F) :
  reduced_gram A WtP W inds = Ok C -> eigh C = Ok (vals, Ut) ->
  eigen_check A vals Ut C = Ok true ->
  reconstruct A eigh WtP W T inds
  = (roots <- clamp_roots A vals ;;
     UT <- dot A (transpose A Ut) T ;;
     X <- dot A (diag A roots) UT ;;
     dot A (transpose A X) X).
Proof.
rewrite /reduced_gram /eigen_check /reconstruct.
case: (dot A WtP W) => [C0|e] //=; case: (select_rows inds C0) => [C1|e] //=.
move=> -> /= -> /=.
case: (dot A (diag A vals) _) => [LU|e] //=; case: (dot A _ LU) => [R|e] //=.
move=> -> /=; case: (clamp_roots A vals) => [roots|e] //=.
by case: (dot A _ T).
Qed.

(** C10 (in general): when no eigenvalue of the reduced Gram matrix has a
    positive [x ** -0.5], [min] is called on an empty list and
    [uncompress_slice] raises [ValueError]. *)
Lemma uncompress_slice_min_empty (F : Type) (A : arith F)
      (matrix_rank : matrix F -> res nat)
      (eigh : matrix F -> res (vector F * matrix F))
      (WtP RK T C Ut : matrix F) (l : nat) (inds : seq nat)
      (vals : vector F) :
  get_IR matrix_rank WtP = Ok (T, inds) -> size inds <> 0 ->
  reduced_gram A WtP (take_cols (2 * l + 1) RK) inds = Ok C ->
  eigh C = Ok (vals, Ut) -> eigen_check A vals Ut C = Ok true ->
  all (fun x => ~~ fltb A (f0 A) (pow_neg_half A x)) vals ->
  uncompress_slice A matrix_rank eigh WtP l RK = Err ValueError.
Proof.
move=> HIR Hinds HC He Hchk Hneg.
rewrite (@uncompress_slice_eigen_route _ A matrix_rank eigh WtP RK T l inds HIR Hinds).
rewrite (@reconstruct_eq _ A eigh WtP _ T C Ut inds vals HC He Hchk) /clamp_roots.
have -> : [seq x <- [seq pow_neg_half A x | x <- vals] | fltb A (f0 A) x] = [::].
  by elim: (vals) Hneg => [//|x s IH] /= /andP [/negbTE -> /IH].
by [].
Qed.

(** ** Binary64 runs of [uncompress_slice] *)

(** [np.linalg.matrix_rank] on the arrays of the runs below, which have a
    single row: the only singular value is the norm of the row, and the
    rank is 0 when the row is zero and 1 otherwise.  On a row that holds
    an infinity LAPACK scales the row by 0 and the singular value comes
    out as a nan, which is above no tolerance: the rank is 0 there too.
    A row that holds a nan, on which LAPACK may refuse to work, is given
    the rank 0 as well; no run below has one. *)
Definition matrix_rank_row (M : matrix float) : res nat :=
  Ok (if is_zero_matrix F64.float64 M || ~~ all (all F64.isfinite) M
      then 0 else 1).

(** [np.linalg.eigh] on a 1 x 1 array [[a]]: the eigenvalue [a] with the
    eigenvector [[1.0]]. *)
Definition eigh_1x1 (M : matrix float) : res (vector float * matrix float) :=
  match M with
  | [:: [:: a]] => Ok ([:: a], [:: [:: 1%float]])
  | _ => Err LinAlgError
  end.

Definition eigh_fails (M : matrix float)
  : res (vector float * matrix float) := Err LinAlgError.

Lemma matrix_rank_row_zero : rank_zero_spec F64.float64 matrix_rank_row.
Proof. by move=> m n T _ _ _ HZ; rewrite /matrix_rank_row HZ. Qed.

Definition key_2x1 : matrix float := [:: [:: 0.5%float]; [:: 0.5%float]].

(** C4, witness: the key (0.5, 0.5)^T for [l = 0]; [eigh] always fails. *)
Lemma zero_preservation_witness :
  [/\ dot F64.float64 (transpose F64.float64 (take_cols (2 * 0 + 1) key_2x1))
          (zeros F64.float64 2 2)
      = Ok (zeros F64.float64 (minn (2 * 0 + 1) 1) 2),
      forall WtP, wf (minn (2 * 0 + 1) 1) 2 WtP ->
        is_zero_matrix F64.float64 WtP ->
        uncompress_slice F64.float64 matrix_rank_row eigh_fails WtP 0 key_2x1
        = Ok (zeros F64.float64 2 2)
    & uncompress_slice F64.float64 matrix_rank_row eigh_fails
        (zeros F64.float64 (minn (2 * 0 + 1) 1) 2) 0 key_2x1
      = Ok (zeros F64.float64 2 2)].
Proof.
apply: (@zero_preservation _ F64.float64 matrix_rank_row eigh_fails 2 1 0
          key_2x1) => //.
- exact: matrix_rank_row_zero.
- by move=> [|[|i]] // [|j].
Defined.

(** A run that passes the check: the compressed slice (1, 1) of
    [P = [[1, 1], [1, 1]]] under the key (0.5, 0.5)^T. *)
Lemma uncompress_slice_run :
  dot F64.float64 (transpose F64.float64 key_2x1)
      [:: [:: 1%float; 1%float]; [:: 1%float; 1%float]]
  = Ok [:: [:: 1%float; 1%float]]
  /\ uncompress_slice F64.float64 matrix_rank_row eigh_1x1
       [:: [:: 1%float; 1%float]] 0 key_2x1
     = Ok [:: [:: 1%float; 1%float]; [:: 1%float; 1%float]].
Proof. by split; vm_compute. Qed.

(** C10: the compressed slice (-1, 0) under the key (0.5, 0.5)^T is not
    zero, its reduced Gram matrix is [[-0.5]], and [uncompress_slice]
    raises [ValueError]: [(-0.5) ** -0.5] is a nan, no root is positive
    and [min] is called on an empty list.  Of numpy this uses that the
    rank of a non-zero row is 1 and that [eigh] of [[-0.5]] is the
    eigenvalue -0.5 with a unit eigenvector. *)
Theorem uncompress_slice_ValueError :
  exists (WtP : matrix float) (l : nat) (RK : matrix float),
    is_zero_matrix F64.float64 WtP = false
    /\ forall matrix_rank eigh (s : float),
         matrix_rank WtP = Ok 1 ->
         s = 1%float \/ s = (-1)%float ->
         eigh [:: [:: (-0.5)%float]] = Ok ([:: (-0.5)%float], [:: [:: s]]) ->
         uncompress_slice F64.float64 matrix_rank eigh WtP l RK
         = Err ValueError.
Proof.
exists [:: [:: (-1)%float; 0%float]], 0, key_2x1; split; first by [].
move=> matrix_rank eigh s Hr Hs He.
apply: (@uncompress_slice_min_empty _ F64.float64 matrix_rank eigh
          _ _ [:: [:: (-1)%float; 0%float]] [:: [:: (-0.5)%float]]
          [:: [:: s]] 0 [:: 0] [:: (-0.5)%float]) => //.
- by rewrite /get_IR /= Hr.
- by case: Hs => ->; vm_compute.
Qed.

(** The same run with the two oracles above. *)
Lemma uncompress_slice_ValueError_run :
  uncompress_slice F64.float64 matrix_rank_row eigh_1x1
    [:: [:: (-1)%float; 0%float]] 0 key_2x1
  = Err ValueError.
Proof. by vm_compute. Qed.

(** C2 (the defect): an eigenvalue 0.0 is not clamped.  Its root
    [0.0 ** -0.5] is [+inf], which passes the test [x > 0]; [+inf] enters
    [D].  On the compressed slice (1, -1) under the key (0.5, 0.5)^T the
    reduced Gram matrix is [[0.0]], [P] comes out infinite and the last
    assertion fails. *)
Theorem zero_eigenvalue_not_clamped :
  clamp_roots F64.float64 [:: 0%float; 4%float]
  = Ok [:: infinity; 0.5%float]
  /\ clamp_roots F64.float64 [:: (-1)%float; 4%float]
     = Ok [:: 5.0000000000000004e-16%float; 0.5%float]
  /\ forall matrix_rank eigh,
       matrix_rank [:: [:: 1%float; (-1)%float]] = Ok 1 ->
       eigh [:: [:: 0%float]] = Ok ([:: 0%float], [:: [:: 1%float]]) ->
       reconstruct F64.float64 eigh [:: [:: 1%float; (-1)%float]]
         (take_cols 1 key_2x1) [:: [:: 1%float; (-1)%float]] [:: 0]
       = Ok [:: [:: infinity; neg_infinity]; [:: neg_infinity; infinity]]
       /\ uncompress_slice F64.float64 matrix_rank eigh
            [:: [:: 1%float; (-1)%float]] 0 key_2x1
          = Err AssertionError.
Proof.
split; first by vm_compute.
split; first by vm_compute.
move=> matrix_rank eigh Hr He.
have HP : reconstruct F64.float64 eigh [:: [:: 1%float; (-1)%float]]
            (take_cols 1 key_2x1) [:: [:: 1%float; (-1)%float]] [:: 0]
          = Ok [:: [:: infinity; neg_infinity]; [:: neg_infinity; infinity]].
  rewrite (@reconstruct_eq _ F64.float64 eigh _ _ _ [:: [:: 0%float]]
             [:: [:: 1%float]] [:: 0] [:: 0%float]) //.
split=> //.
have HIR : get_IR matrix_rank [:: [:: 1%float; (-1)%float]]
           = Ok ([:: [:: 1%float; (-1)%float]], [:: 0]).
  by rewrite /get_IR /= Hr.
by rewrite (@uncompress_slice_eigen_route _ F64.float64 matrix_rank eigh
              _ key_2x1 _ 0 _ HIR) // HP.
Qed.

(** ** Exact arithmetic: the round trip *)

Import GRing.Theory Num.Theory.

Section Exact.

Local Open Scope ring_scope.

Variable R : realFieldType.

(** The arithmetic of an ordered field.  The square root, [x ** -0.5] and
    [2 ** -0.5] are not field operations: they are given. *)
Definition exact_arith (rsqrt pnh : R -> R) (c0 : R) : arith R := {|
  f0 := 0;
  fadd := +%R;
  fsub := fun x y => x - y;
  fmul := *%R;
  fdiv := fun x y => x / y;
  fabs := fun x => `|x|;
  fsqrt := rsqrt;
  fltb := fun x y => x < y;
  fleb := fun x y => x <= y;
  feqb := fun x y => x == y;
  fisfinite := fun=> true;
  pow_neg_half := pnh;
  two_pow_neg_half := c0;
  f_0_1 := 10%:R^-1;
  f_0_8 := 8%:R / 10%:R;
  f_1e_15 := (10%:R ^+ 15)^-1;
  rtol := (10%:R ^+ 5)^-1;
  atol := (10%:R ^+ 8)^-1
|}.

(** A list of rows as a MathComp matrix. *)
Definition mx_of (m n : nat) (M : matrix R) : 'M[R]_(m, n) :=
  \matrix_(i, j) nth 0 (nth [::] M i) j.

(** The rank of an array in exact arithmetic. *)
Definition exact_rank (M : matrix R) : res nat :=
  Ok (\rank (mx_of (nrows M) (ncols M) M)).

Variables (rsqrt pnh : R -> R) (c0 : R).
Let A := exact_arith rsqrt pnh c0.

Lemma foldl_dotp (a : R) (s : seq (R * R)) :
  foldl (fun acc xy => fadd A acc (fmul A xy.1 xy.2)) a s
  = a + \sum_(xy <- s) xy.1 * xy.2.
Proof.
elim: s a => [|xy s IH] a /=; first by rewrite big_nil addr0.
by rewrite IH big_cons addrA.
Qed.

Lemma dotp_sum (n : nat) (u v : vector R) :
  size u = n -> size v = n ->
  dotp A u v = \sum_(i < n) nth 0 u i * nth 0 v i.
Proof.
move=> Hu Hv; rewrite /dotp foldl_dotp add0r (big_nth (0, 0)) size_zip Hu Hv.
rewrite minnn big_mkord; apply: eq_bigr => i _.
by rewrite nth_zip ?Hu ?Hv.
Qed.

Lemma mx_of_inj (m n : nat) (M1 M2 : matrix R) :
  wf m n M1 -> wf m n M2 -> mx_of m n M1 = mx_of m n M2 -> M1 = M2.
Proof.
move=> /wfP [H1 R1] /wfP [H2 R2] E.
apply: (@eq_from_nth _ [::]); first by rewrite H1 H2.
move=> i; rewrite H1 => Hi.
apply: (@eq_from_nth _ 0); first by rewrite R1 // R2.
move=> j; rewrite R1 // => Hj.
by move/matrixP/(_ (Ordinal Hi) (Ordinal Hj)): E; rewrite !mxE.
Qed.

Lemma mx_dot (m n p : nat) (M1 M2 : matrix R) :
  wf m n M1 -> wf n p M2 -> (0 < m)%nat -> (0 < n)%nat ->
  exists M, [/\ dot A M1 M2 = Ok M, wf m p M
             & mx_of m p M = mx_of m n M1 *m mx_of n p M2].
Proof.
move=> H1 H2 Hm Hn; rewrite /dot (ncols_wf H1 Hm) (ncols_wf H2 Hn) /nrows.
case/wfP: (H2) => S2 R2; case/wfP: (H1) => S1 R1; rewrite S2 eqxx.
eexists; split; first by [].
  apply: wf_intro; first by rewrite size_map.
  by move=> i Hi; rewrite (nth_map [::]) ?S1 // size_mkseq.
apply/matrixP => i j; rewrite !mxE (nth_map [::]) ?S1 // nth_mkseq //.
have Hc : size (col A j M2) = n by rewrite /col size_map.
rewrite (dotp_sum (R1 i (ltn_ord i)) Hc).
apply: eq_bigr => k _; rewrite !mxE; congr (_ * _).
by rewrite /col (nth_map [::]) ?S2.
Qed.

Lemma mx_transpose (m n : nat) (M : matrix R) :
  wf m n M -> (0 < m)%nat ->
  wf n m (transpose A M) /\ mx_of n m (transpose A M) = (mx_of m n M)^T.
Proof.
move=> HM Hm; split; first exact: wf_transpose.
apply/matrixP => i j; rewrite !mxE /transpose (ncols_wf HM Hm) nth_mkseq //.
by case/wfP: HM => S1 _; rewrite (nth_map [::]) ?S1.
Qed.

Lemma mx_diag (v : vector R) :
  wf (size v) (size v) (diag A v)
  /\ mx_of (size v) (size v) (diag A v) = diag_mx (\row_j nth 0 v j).
Proof.
split; first exact: wf_mkseq.
apply/matrixP => i j; rewrite !mxE /diag nth_mkseq // nth_mkseq //.
by rewrite -val_eqE /=; case: eqP => _; rewrite ?mulr1n ?mulr0n.
Qed.

End Exact.

Import Order.Theory.

Section ReconAlgebra.

Local Open Scope ring_scope.

Variable R : realFieldType.

Lemma gram_entry (p : nat) (v : 'rV[R]_p) :
  (v *m v^T) 0 0 = \sum_j v 0 j ^+ 2.
Proof. by rewrite mxE; apply: eq_bigr => j _; rewrite mxE expr2. Qed.

Lemma gram_ge0 (p : nat) (v : 'rV[R]_p) : 0 <= (v *m v^T) 0 0.
Proof. by rewrite gram_entry; apply: sumr_ge0 => j _; exact: sqr_ge0. Qed.

Lemma gram_eq0 (p : nat) (v : 'rV[R]_p) : (v *m v^T) 0 0 = 0 -> v = 0.
Proof.
have H0 (j : 'I_p) : true -> 0 <= v 0 j ^+ 2 by move=> _; exact: sqr_ge0.
rewrite gram_entry => /eqP; rewrite (psumr_eq0 _ H0).
move/allP => H; apply/rowP => j; rewrite mxE.
by have := H j (mem_index_enum _); rewrite sqrf_eq0 => /eqP.
Qed.

(** The algebra behind [uncompress_slice]: with [P = B B^T], [T = WI^T P]
    the retained rows and [C = T WI = V diag(lam) V^T], the eigenvalues are
    positive when [rank T = rank P], and [X^T X = P] for
    [X = diag(d) V^T T] when [d_i^2 lam_i = 1]. *)
Lemma recon_algebra (n r p : nat) (Bm : 'M[R]_(n, p)) (WI : 'M[R]_(n, r))
      (Vm : 'M[R]_r) (lam d : 'rV[R]_r) :
  let Pm := Bm *m Bm^T in
  let Tm := WI^T *m Pm in
  \rank Tm = r -> \rank Pm = r ->
  Vm^T *m Vm = 1%:M -> Vm *m diag_mx lam *m Vm^T = Tm *m WI ->
  (forall i, 0 < lam 0 i)
  /\ ((forall i, d 0 i ^+ 2 * lam 0 i = 1) ->
      (diag_mx d *m (Vm^T *m Tm))^T *m (diag_mx d *m (Vm^T *m Tm)) = Pm).
Proof.
move=> Pm Tm rkT rkP VtV Heig.
set M := WI^T *m Bm.
have TmE : Tm = M *m Bm^T by rewrite /Tm /Pm mulmxA.
have CmE : Tm *m WI = M *m M^T.
  by rewrite TmE /M trmx_mul trmxK mulmxA.
have Mfree : row_free M.
  apply/eqP/anti_leq; rewrite rank_leq_row /= -{1}rkT TmE.
  exact: mxrankM_maxl.
have VVt : Vm *m Vm^T = 1%:M by exact: mulmx1C.
have [Vtunit Vunit] := mulmx1_unit VtV.
have VtVK q (X : 'M[R]_(q, r)) : X *m Vm^T *m Vm = X.
  by rewrite -mulmxA VtV mulmx1.
have VVtK q (X : 'M[R]_(q, r)) : X *m Vm *m Vm^T = X.
  by rewrite -mulmxA VVt mulmx1.
have LamE : diag_mx lam = (Vm^T *m M) *m (Vm^T *m M)^T.
  rewrite trmx_mul trmxK.
  have -> : Vm^T *m M *m (M^T *m Vm) = Vm^T *m (M *m M^T) *m Vm.
    by rewrite !mulmxA.
  by rewrite -CmE -Heig !mulmxA VtV mul1mx VtVK.
have Hpos i : 0 < lam 0 i.
  have E : lam 0 i = (row i (Vm^T *m M) *m (row i (Vm^T *m M))^T) 0 0.
    have := congr1 (fun X : 'M_r => X i i) LamE.
    rewrite [LHS]mxE eqxx mulr1n => ->.
    by rewrite !mxE; apply: eq_bigr => j _; rewrite !mxE.
  rewrite lt_neqAle E gram_ge0 andbT eq_sym; apply/eqP => /gram_eq0 /eqP.
  rewrite row_mul (mulmx_free_eq0 _ Mfree) rowE.
  have Vfree : row_free Vm^T by rewrite row_free_unit.
  rewrite (mulmx_free_eq0 _ Vfree).
  by move/eqP/matrixP/(_ 0 i); rewrite !mxE !eqxx => /eqP; rewrite oner_eq0.
split=> // Hd.
set D := diag_mx d.
have DDL : D *m D *m diag_mx lam = 1%:M.
  rewrite /D !mulmx_diag -diag_const_mx; congr diag_mx.
  by apply/rowP => j; rewrite !mxE -expr2 Hd.
set G := Vm *m D *m D *m Vm^T.
have GC : G *m (Tm *m WI) = 1%:M.
  rewrite -Heig /G !mulmxA VtVK.
  have -> : Vm *m D *m D *m diag_mx lam = Vm *m (D *m D *m diag_mx lam).
    by rewrite !mulmxA.
  by rewrite DDL mulmx1.
have PmT : Pm^T = Pm by rewrite /Pm trmx_mul trmxK.
have CmT : (Tm *m WI)^T = Tm *m WI by rewrite CmE trmx_mul trmxK.
have sTP : (Tm <= Pm)%MS by exact: submxMl.
have sPT : (Pm <= Tm)%MS.
  by case: (mxrank_leqif_sup sTP) => _ <-; rewrite rkT rkP.
have [Y PY] := submxP sPT.
have TY : Tm = Tm *m WI *m Y^T.
  rewrite -[LHS]/(WI^T *m Pm) -PmT PY trmx_mul mulmxA.
  by rewrite -[WI^T *m Tm^T]trmx_mul CmT.
have XtX : (D *m (Vm^T *m Tm))^T *m (D *m (Vm^T *m Tm)) = Tm^T *m G *m Tm.
  by rewrite !trmx_mul !trmxK /G /D tr_diag_mx !mulmxA.
have TtE : Tm^T = Y *m (Tm *m WI).
  by rewrite [in LHS]TY trmx_mul trmxK CmT.
rewrite XtX TtE -[RHS]/Pm PY.
have -> : Y *m (Tm *m WI) *m G *m Tm = Y *m ((Tm *m WI) *m (G *m Tm)).
  by rewrite !mulmxA.
congr (_ *m _).
by rewrite [X in G *m X]TY [G *m _]mulmxA GC mul1mx -TY.
Qed.

End ReconAlgebra.


Section ExactRank.

Local Open Scope ring_scope.

Variable R : realFieldType.
Variables (rsqrt pnh : R -> R) (c0 : R).
Let A := exact_arith rsqrt pnh c0.

(** A list of numbers as a row vector. *)
Definition rv_of (n : nat) (v : vector R) : 'rV[R]_n := \row_j nth 0 v j.

Lemma row_mx_of (m n : nat) (M : matrix R) (i : 'I_m) :
  row i (mx_of m n M) = rv_of n (nth [::] M i).
Proof. by apply/rowP => j; rewrite !mxE. Qed.

Lemma mx_of_rcons (m n : nat) (T : matrix R) (r : vector R) :
  size T = m ->
  (mx_of m.+1 n (rcons T r) :=: mx_of m n T + rv_of n r)%MS.
Proof.
move=> Hm; apply/eqmxP/andP; split.
  apply/row_subP => i; rewrite row_mx_of nth_rcons Hm.
  case: (ltnP i m) => Hi.
    apply: submx_trans (addsmxSl _ _).
    by rewrite -(row_mx_of n T (Ordinal Hi)) row_sub.
  have -> : (i : nat) == m by rewrite eqn_leq Hi andbT -ltnS.
  exact: addsmxSr.
rewrite addsmx_sub; apply/andP; split.
  apply/row_subP => i; rewrite row_mx_of.
  have Hi : (i < m.+1)%nat by rewrite ltnS ltnW.
  have := row_sub (Ordinal Hi) (mx_of m.+1 n (rcons T r)).
  by rewrite row_mx_of nth_rcons /= Hm ltn_ord.
have := row_sub (@ord_max m) (mx_of m.+1 n (rcons T r)).
by rewrite row_mx_of nth_rcons /= Hm ltnn eqxx.
Qed.

Lemma exact_rank_eq (m n : nat) (M : matrix R) :
  nrows M = m -> ncols M = n -> exact_rank M = Ok (\rank (mx_of m n M)).
Proof. by move=> <- <-. Qed.

(** What holds of [T] and [inds] in [get_IR] after the first [j] rows of
    [M]: [T] holds the rows [inds] of [M], they are independent and span
    the first [j] rows. *)
Definition IR_inv (n : nat) (M : matrix R) (j : nat) (T : matrix R)
           (inds : seq nat) : Prop :=
  [/\ T = [seq nth [::] M i | i <- inds],
      all (fun i => (i < j)%nat) inds,
      \rank (mx_of (size inds) n T) = size inds
    & (mx_of (size inds) n T :=: mx_of j n (take j M))%MS].

Lemma get_IR_step_exact (n : nat) (M : matrix R) (j : nat) (T : matrix R)
      (inds : seq nat) :
  (0 < n)%nat -> all (fun r => size r == n) M -> (j < size M)%nat ->
  IR_inv n M j T inds ->
  exists T' inds',
    get_IR_step (@exact_rank R) (j, nth [::] M j) (T, inds, size inds)
    = Ok (T', inds', size inds')
    /\ IR_inv n M j.+1 T' inds'.
Proof.
move=> Hn HM Hj [HT Hall Hrk Heq].
set r := nth [::] M j; set m := size inds.
have HTs : size T = m by rewrite HT size_map.
have Hr : size r = n by apply/eqP; move/(all_nthP [::]): HM; exact.
have Hnc : ncols (rcons T r) = n.
  rewrite /ncols; case: (T) HT => [|t T0] /= HT'; first by [].
  case: (inds) HT' Hall => [//|i0 inds0] /= [-> _] /andP [Hi0 _].
  by apply/eqP; move/(all_nthP [::]): HM; apply; apply: ltn_trans Hi0 Hj.
have Hrank : exact_rank (rcons T r) = Ok (\rank (mx_of m.+1 n (rcons T r))).
  by apply: exact_rank_eq => //; rewrite /nrows size_rcons HTs.
have Hadd := mx_of_rcons n r HTs.
have Htake : (mx_of j.+1 n (take j.+1 M)
              :=: mx_of j n (take j M) + rv_of n r)%MS.
  rewrite (take_nth [::] Hj); apply: mx_of_rcons.
  by rewrite size_take Hj.
have Hsum : (mx_of m n T + rv_of n r :=: mx_of j.+1 n (take j.+1 M))%MS.
  apply: eqmx_trans (eqmx_sym Htake).
  exact: adds_eqmx.
rewrite /get_IR_step Hrank /=.
case: ltnP => Hlt.
- have Hrk' : \rank (mx_of m.+1 n (rcons T r)) = m.+1.
    by apply/eqP; rewrite eqn_leq rank_leq_row.
  exists (rcons T r), (rcons inds j); split; first by rewrite Hrk' size_rcons.
  split.
  + by rewrite map_rcons -HT.
  + rewrite all_rcons ltnSn /=; apply: sub_all Hall => i Hi.
    exact: ltnW.
  + by rewrite size_rcons.
  + rewrite size_rcons; exact: eqmx_trans Hadd Hsum.
- exists T, inds; split.
    by rewrite size_rcons /= -cats1 take_size_cat.
  split=> //.
  + by apply: sub_all Hall => i Hi; exact: ltnW.
  + apply: eqmx_trans Hsum.
    apply/eqmxP/andP; split; first exact: addsmxSl.
    have Hle := addsmxSl (mx_of m n T) (rv_of n r).
    case: (mxrank_leqif_sup Hle) => _ <-.
    by rewrite eqn_leq mxrankS //= -Hadd.1 Hrk.
Qed.

Lemma get_IR_loop_exact (n : nat) (M : matrix R) (k j : nat) (T : matrix R)
      (inds : seq nat) :
  (0 < n)%nat -> all (fun r => size r == n) M -> (j + k = size M)%nat ->
  IR_inv n M j T inds ->
  exists T' inds',
    foldM (get_IR_step (@exact_rank R)) (T, inds, size inds)
          (zip (iota j k) (drop j M))
    = Ok (T', inds', size inds')
    /\ IR_inv n M (size M) T' inds'.
Proof.
move=> Hn HM; elim: k j T inds => [|k IH] j T inds Hjk Hinv.
  by exists T, inds; rewrite -Hjk addn0; case: (drop j M).
have Hj : (j < size M)%nat by rewrite -Hjk -addSnnS leq_addr.
have [T1 [inds1 [Hstep Hinv1]]] := get_IR_step_exact Hn HM Hj Hinv.
have [|T2 [inds2 [Hloop Hinv2]]] := IH j.+1 T1 inds1 _ Hinv1.
  by rewrite addSnnS.
exists T2, inds2; split=> //.
have foldM_cons f a x s :
    @foldM (matrix R * seq nat * nat) (nat * vector R) f a (x :: s)
    = bind (f x a) (fun a' => foldM f a' s) by [].
by rewrite (drop_nth [::] Hj) [zip _ _]/= foldM_cons Hstep /= Hloop.
Qed.

(** [get_IR] with the exact rank: independent rows of [M] that span its
    rows. *)
Lemma get_IR_exact (n : nat) (M : matrix R) :
  (0 < n)%nat -> all (fun r => size r == n) M ->
  exists T inds,
    get_IR (@exact_rank R) M = Ok (T, inds)
    /\ IR_inv n M (size M) T inds.
Proof.
move=> Hn HM.
have Hinv0 : IR_inv n M 0 [::] [::].
  split=> //=; first by apply/eqP; rewrite -leqn0 rank_leq_row.
  by rewrite take0 (flatmx0 (mx_of 0 n [::])); exact: eqmx_refl.
have [T [inds [Hloop Hinv]]] :=
  @get_IR_loop_exact n M (size M) 0 [::] [::] Hn HM (add0n _) Hinv0.
exists T, inds; split=> //.
by move: Hloop; rewrite drop0 /get_IR => ->.
Qed.

Lemma select_rows_ok (inds : seq nat) (M : matrix R) :
  all (fun i => (i < size M)%nat) inds ->
  select_rows inds M = Ok [seq nth [::] M i | i <- inds].
Proof.
rewrite /select_rows; elim: inds => [//|i inds IH] /= /andP [Hi /IH ->] /=.
by rewrite (getitem_nth [::]) Hi.
Qed.

Lemma select_cols_ok (n : nat) (inds : seq nat) (M : matrix R) :
  all (fun r => size r == n) M -> all (fun i => (i < n)%nat) inds ->
  select_cols inds M = Ok [seq [seq nth 0 r i | i <- inds] | r <- M].
Proof.
move=> HM Hinds; rewrite /select_cols.
elim: M HM => [//|r M IH] /= /andP [/eqP Hr /IH ->] /=.
have -> // : mapM (getitem r) inds = Ok [seq nth 0 r i | i <- inds].
elim: (inds) Hinds => [//|i s IHs] /= /andP [Hi /IHs ->] /=.
by rewrite (getitem_nth 0) Hr Hi.
Qed.

Lemma isclose_refl (x : R) : isclose A x x.
Proof.
rewrite /isclose /= subrr normr0; apply: addr_ge0.
  by rewrite invr_ge0 exprn_ge0 // ler0n.
by apply: mulr_ge0 => //; rewrite invr_ge0 exprn_ge0 // ler0n.
Qed.

Lemma allclose_refl (M : matrix R) : allclose A M M = Ok true.
Proof.
rewrite /allclose /broadcast_dim !eqxx /=; congr Ok.
by apply/allP => i _; apply/allP => j _; exact: isclose_refl.
Qed.

End ExactRank.

Section RoundTrip.

Local Open Scope ring_scope.

Variable R : realFieldType.
Variables (rsqrt pnh : R -> R) (c0 : R).
Let A := exact_arith rsqrt pnh c0.

Variable eigh : matrix R -> res (vector R * matrix R).

(** What is assumed of [np.linalg.eigh] when it returns [(vals, Ut)] on
    [C]: the columns of [Ut] are orthonormal and
    [Ut diag(vals) Ut^T = C]. *)
Definition eigh_sound : Prop :=
  forall (r : nat) (C Ut : matrix R) (vals : vector R),
    wf r r C -> eigh C = Ok (vals, Ut) ->
    [/\ size vals = r, wf r r Ut,
        (mx_of r r Ut)^T *m mx_of r r Ut = 1%:M
      & mx_of r r Ut *m diag_mx (rv_of r vals) *m (mx_of r r Ut)^T
        = mx_of r r C].

(** What is assumed of [x ** -0.5]: on a positive [x] it is positive and
    its square is the inverse of [x]. *)
Definition pow_neg_half_spec : Prop :=
  forall x : R, 0 < x -> 0 < pnh x /\ pnh x ^+ 2 * x = 1.

Lemma mx_of_zeros (m n : nat) : mx_of m n (zeros A m n) = 0.
Proof.
apply/matrixP => i j; rewrite !mxE /zeros nth_nseq ltn_ord nth_nseq.
by rewrite ltn_ord.
Qed.

Lemma clamp_roots_pos (vals : vector R) :
  pow_neg_half_spec -> (0 < size vals)%nat -> all (fun x => 0 < x) vals ->
  clamp_roots A vals = Ok [seq pnh x | x <- vals].
Proof.
move=> Hp Hs Hpos; rewrite /clamp_roots /=.
have Hall : all (fun x => 0 < x) [seq pnh x | x <- vals].
  rewrite all_map; apply: sub_all Hpos => x Hx /=.
  by case: (Hp x Hx).
have -> : [seq x <- [seq pnh x | x <- vals] | 0 < x] = [seq pnh x | x <- vals].
  by apply/all_filterP.
have [mp -> /=] : exists mp, py_min A [seq pnh x | x <- vals] = Ok mp.
  by case: (vals) Hs => [//|x s] _ /=; eexists.
congr Ok; rewrite -[RHS]map_id; apply/eq_in_map => x Hx /=.
by move/allP: Hall => /(_ x Hx) ->.
Qed.

Lemma mx_diag_size (r : nat) (v : vector R) :
  size v = r ->
  wf r r (diag A v) /\ mx_of r r (diag A v) = diag_mx (rv_of r v).
Proof. by move=> <-; exact: (mx_diag rsqrt pnh c0 v). Qed.

(** The reduced Gram matrix [C[inds,:][:,inds]] entry by entry. *)
Lemma reduced_gram_exact (n k : nat) (WtP W : matrix R) (inds : seq nat) :
  wf k n WtP -> wf n k W -> (0 < k)%nat -> (0 < n)%nat ->
  all (fun i => (i < k)%nat) inds ->
  exists C,
    [/\ reduced_gram A WtP W inds = Ok C, wf (size inds) (size inds) C
      & forall a b : 'I_(size inds),
          mx_of (size inds) (size inds) C a b
          = \sum_(j < n) nth 0 (nth [::] WtP (nth 0%nat inds a)) j
                         * nth 0 (nth [::] W j) (nth 0%nat inds b)].
Proof.
move=> HWtP HW Hk Hn Hinds.
have [C0 [HC0 wfC0 EC0]] := mx_dot rsqrt pnh c0 HWtP HW Hk Hn.
case/wfP: (wfC0) => SC0 RC0.
have Hin a : (a < size inds)%nat -> (nth 0%nat inds a < k)%nat.
  by move=> Ha; move/(all_nthP 0%nat): Hinds; apply.
rewrite /reduced_gram HC0 /= select_rows_ok ?SC0 //=.
have Hrows : all (fun r => size r == k) [seq nth [::] C0 i | i <- inds].
  rewrite all_map; apply/(all_nthP 0%nat) => a Ha /=.
  by rewrite RC0 // Hin.
rewrite (select_cols_ok Hrows Hinds).
eexists; split; first by [].
  apply: wf_intro; first by rewrite !size_map.
  by move=> a Ha; rewrite (nth_map [::]) ?size_map // size_map.
move=> a b; rewrite mxE (nth_map [::]) ?size_map // (nth_map 0%nat) //.
rewrite (nth_map 0%nat) //.
move/matrixP/(_ (Ordinal (Hin a (ltn_ord a))) (Ordinal (Hin b (ltn_ord b)))): EC0.
rewrite !mxE /= => ->; apply: eq_bigr => j _.
by rewrite !mxE.
Qed.

(** C1, round trip, in exact arithmetic.  A slice [P] that is a Gram matrix
    [B B^T] is compressed with the first [2l+1] columns [W] of the key; when
    the compressed slice [W^T P] has the rank of [P] (the key loses nothing
    of [P]), [np.linalg.matrix_rank] is the rank, [np.linalg.eigh] returns a
    sound decomposition of the reduced Gram matrix and [x ** -0.5] is the
    inverse square root, [uncompress_slice] returns [P] itself. *)
Theorem round_trip (n p c l : nat) (Bm : 'M[R]_(n, p))
      (P RK WtP : matrix R) :
  let W := take_cols (2 * l + 1) RK in
  (0 < n)%nat -> (0 < c)%nat -> wf n n P -> wf n c RK ->
  mx_of n n P = Bm *m Bm^T ->
  dot A (transpose A W) P = Ok WtP ->
  \rank (mx_of (minn (2 * l + 1) c) n WtP) = \rank (mx_of n n P) ->
  eigh_sound ->
  (forall T inds C, get_IR (@exact_rank R) WtP = Ok (T, inds) ->
     reduced_gram A WtP W inds = Ok C -> exists res, eigh C = Ok res) ->
  pow_neg_half_spec ->
  uncompress_slice A (@exact_rank R) eigh WtP l RK = Ok P.
Proof.
move=> W Hn Hc HP HRK HB HWtP Hrank Hsound Hret Hpnh.
set k := minn (2 * l + 1) c in Hrank.
have Hk : (0 < k)%nat by rewrite /k leq_min addn1 ltn0Sn.
have HW : wf n k W by exact: wf_take_cols.
have [HWt EWt] := mx_transpose rsqrt pnh c0 HW Hn.
have [M [HM wfWtP EW]] := mx_dot rsqrt pnh c0 HWt HP Hk Hn.
move: HM wfWtP EW; rewrite -/A HWtP => -[<-] wfWtP EW; rewrite EWt in EW.
case/wfP: (wfWtP) => SWtP RWtP; case/andP: (wfWtP) => _ rowsWtP.
have [T [inds [HIR [HT Hlt Hrk Hsp]]]] := get_IR_exact Hn rowsWtP.
have Etk : take k WtP = WtP by rewrite -SWtP take_size.
rewrite SWtP Etk in Hlt Hsp.
have HrW : \rank (mx_of k n WtP) = size inds by rewrite -Hsp.1.
have HrP : \rank (mx_of n n P) = size inds by rewrite -Hrank.
have [Hr0|Hr] := posnP (size inds).
  (* the zero branch *)
  rewrite /uncompress_slice HIR /= Hr0 /= /exact_rank /nrows SWtP.
  rewrite (ncols_wf wfWtP Hk) HrW Hr0 /= size_map; case/wfP: (HRK) => -> _.
  congr Ok; apply: (mx_of_inj (wf_zeros A n n) HP).
  by rewrite mx_of_zeros; apply/esym/eqP; rewrite -mxrank_eq0 HrP Hr0.
(* the eigen branch *)
have Hne : size inds <> 0%nat by move=> E; rewrite E in Hr.
rewrite (@uncompress_slice_eigen_route _ A (@exact_rank R) eigh WtP RK T l inds HIR Hne).
rewrite -/W.
have [C [HC wfC EC]] := reduced_gram_exact wfWtP HW Hk Hn Hlt.
have [[vals Ut] He] := Hret T inds C HIR HC.
have [Hsv wfUt Horth Hdec] := Hsound _ C Ut vals wfC He.
set r := size inds in Hr Hne HrP HrW Hrk Hsp wfC EC Hsv wfUt Horth Hdec.
pose WI : 'M[R]_(n, r) := \matrix_(i, a) nth 0 (nth [::] W i) (nth 0%nat inds a).
have Hin a : (a < r)%nat -> (nth 0%nat inds a < k)%nat.
  by move=> Ha; move/(all_nthP 0%nat): Hlt; apply.
have ETm : mx_of r n T = WI^T *m mx_of n n P.
  apply/matrixP => a j; rewrite mxE HT (nth_map 0%nat) //.
  move/matrixP/(_ (Ordinal (Hin a (ltn_ord a))) j): EW.
  rewrite !mxE /= => ->; apply: eq_bigr => i _.
  by rewrite !mxE.
have ECm : mx_of r r C = mx_of r n T *m WI.
  apply/matrixP => a b; rewrite EC mxE; apply: eq_bigr => j _.
  by rewrite !mxE HT (nth_map 0%nat).
pose d : 'rV[R]_r := rv_of r [seq pnh x | x <- vals].
have rkT : \rank (WI^T *m (Bm *m Bm^T)) = r by rewrite -HB -ETm.
have rkP : \rank (Bm *m Bm^T) = r by rewrite -HB.
have Heig : mx_of r r Ut *m diag_mx (rv_of r vals) *m (mx_of r r Ut)^T
            = WI^T *m (Bm *m Bm^T) *m WI by rewrite Hdec ECm ETm HB.
have [Hpos Hrec] :=
  @recon_algebra R n r p Bm WI (mx_of r r Ut) (rv_of r vals) d
                 rkT rkP Horth Heig.
have Hvpos : all (fun x => 0 < x) vals.
  apply/(all_nthP 0) => i; rewrite Hsv => Hi.
  by move: (Hpos (Ordinal Hi)); rewrite mxE.
have Hd i : d 0 i ^+ 2 * rv_of r vals 0 i = 1.
  rewrite !mxE (nth_map 0) ?Hsv //.
  have /Hpnh [] // : 0 < nth 0 vals i.
  by move/(all_nthP 0): Hvpos; apply; rewrite Hsv.
move/(_ Hd): Hrec => Hrec; rewrite -HB -ETm in Hrec.
(* [assert np.allclose(R, C)] *)
have [wfU EU] := mx_transpose rsqrt pnh c0 wfUt Hr.
have [wfL EL] := mx_diag_size Hsv.
have [LU [HLU wfLU ELU]] := mx_dot rsqrt pnh c0 wfL wfU Hr Hr.
have [wfUU EUU] := mx_transpose rsqrt pnh c0 wfU Hr.
have [R0 [HR0 wfR0 ER0]] := mx_dot rsqrt pnh c0 wfUU wfLU Hr Hr.
have ER : R0 = C.
  apply: (mx_of_inj wfR0 wfC).
  by rewrite ER0 EUU ELU EL EU trmxK mulmxA.
have Hchk : eigen_check A vals Ut C = Ok true.
  by rewrite /eigen_check HLU /= HR0 /= ER allclose_refl.
rewrite (reconstruct_eq T HC He Hchk) clamp_roots_pos ?Hsv //=.
(* [X = D U T] and [P = X^T X] *)
have wfT : wf r n T.
  apply: wf_intro; first by rewrite HT size_map.
  by move=> a Ha; rewrite HT (nth_map 0%nat) // RWtP // Hin.
have [UT [HUT wfUT EUT]] := mx_dot rsqrt pnh c0 wfU wfT Hr Hr.
have Hsr : size [seq pnh x | x <- vals] = r by rewrite size_map.
have [wfD ED] := mx_diag_size Hsr.
have [X [HX wfX EX]] := mx_dot rsqrt pnh c0 wfD wfUT Hr Hr.
have [wfXt EXt] := mx_transpose rsqrt pnh c0 wfX Hr.
have [P' [HP' wfP' EP']] := mx_dot rsqrt pnh c0 wfXt wfX Hn Hr.
have EP : P' = P.
  apply: (mx_of_inj wfP' HP).
  by rewrite EP' EXt EX ED EUT EU.
rewrite -/A in HUT HX HP' *.
rewrite HUT /= HX /= HP' /= EP /verify HWtP /=.
by rewrite allclose_refl.
Qed.

End RoundTrip.

(** ** A run of the round trip in exact arithmetic *)

Section RoundTripRun.

Local Open Scope ring_scope.

Variable R : realFieldType.
Variables (rsqrt pnh : R -> R) (c0 : R).
Let A := exact_arith rsqrt pnh c0.

(** [np.linalg.eigh] on a 1 x 1 array [[a]]. *)
Definition eigh_1x1_exact (M : matrix R) : res (vector R * matrix R) :=
  match M with
  | [:: [:: a]] => Ok ([:: a], [:: [:: 1]])
  | _ => Err LinAlgError
  end.

Definition ones_2x2 : matrix R := [:: [:: 1; 1]; [:: 1; 1]].
Definition row_ones : matrix R := [:: [:: 1; 1]].
Definition key_e1 : matrix R := [:: [:: 1]; [:: 0]].

Lemma eigh_1x1_sound : eigh_sound eigh_1x1_exact.
Proof.
move=> r C Ut vals; case: C => [|[|a [|b s]] [|r2 C]] //=.
move=> /andP [/eqP <- _] [<- <-]; split=> //.
- apply/matrixP => i j; rewrite !mxE big_ord1 !mxE !ord1 /=.
  by rewrite mulr1.
- apply/matrixP => i j; rewrite !mxE big_ord1 !mxE big_ord1 !mxE !ord1 /=.
  by rewrite mul1r mulr1 mulr1n.
Qed.

Lemma run_compress :
  dot A (transpose A (take_cols (2 * 0 + 1) key_e1)) ones_2x2 = Ok row_ones.
Proof.
rewrite /dot /transpose /= /dotp /=.
rewrite /ncols /ones_2x2 /mkseq /=.
by rewrite !mul1r !mul0r !add0r !addr0.
Qed.

Lemma run_gram : mx_of 2 2 ones_2x2 = (const_mx 1 : 'M[R]_(2, 1)) *m (const_mx 1)^T.
Proof.
apply/matrixP => i j; rewrite !mxE big_ord1 !mxE mulr1.
by case: i => [[|[|i]]] //= _; case: j => [[|[|j]]].
Qed.

Lemma run_rank_slice : \rank (mx_of 2 2 ones_2x2) = 1%nat.
Proof.
apply/eqP; rewrite eqn_leq {1}run_gram mulmx_max_rank /= lt0n mxrank_eq0.
apply/eqP => /matrixP /(_ ord0 ord0); rewrite !mxE /=.
by move/eqP; rewrite oner_eq0.
Qed.

Lemma run_rank_compressed (m : nat) :
  m = 1%nat -> \rank (mx_of m 2 row_ones) = 1%nat.
Proof.
move=> ->; rewrite rank_rV.
have -> // : mx_of 1 2 row_ones != 0.
apply/eqP => /matrixP /(_ ord0 ord0); rewrite !mxE /=.
by move/eqP; rewrite oner_eq0.
Qed.

Lemma run_eigh_returns (T : matrix R) (inds : seq nat) (C : matrix R) :
  get_IR (@exact_rank R) row_ones = Ok (T, inds) ->
  reduced_gram A row_ones (take_cols (2 * 0 + 1) key_e1) inds = Ok C ->
  exists res, eigh_1x1_exact C = Ok res.
Proof.
rewrite /get_IR /= /exact_rank /= run_rank_compressed //= => -[_ <-].
by rewrite /reduced_gram /dot /= => -[<-]; eexists.
Qed.

End RoundTripRun.


(** The arithmetic of a real closed field, with its square root. *)
Definition real_arith (R : rcfType) : arith R :=
  exact_arith Num.sqrt (fun x => (Num.sqrt x)^-1)%R (Num.sqrt 2)^-1%R.

Lemma real_pow_neg_half (R : rcfType) :
  pow_neg_half_spec (fun x : R => (Num.sqrt x)^-1)%R.
Proof.
move=> x Hx; split; first by rewrite invr_gt0 sqrtr_gt0.
by rewrite exprVn sqr_sqrtr ?mulVf ?gt_eqF // ltW.
Qed.

(** ** The key can lose the slice *)

Section KeyLosesSlice.

Local Open Scope ring_scope.

Variable R : realFieldType.
Variables (rsqrt pnh : R -> R) (c0 : R).
Let A := exact_arith rsqrt pnh c0.
Variable eigh : matrix R -> res (vector R * matrix R).

Lemma exact_rank_zero : rank_zero_spec A (@exact_rank R).
Proof.
move=> m n T Hm Hn HT HZ; rewrite /exact_rank; congr Ok.
apply/eqP; rewrite mxrank_eq0; apply/eqP/matrixP => i j; rewrite !mxE.
case/wfP: (HT) => ST RT.
move/(all_nthP [::])/(_ i): HZ; rewrite /nrows in i j *.
move/(_ (ltn_ord i))/(all_nthP 0)/(_ j).
rewrite RT -?ST // (ncols_wf HT Hm) in j * => /(_ (ltn_ord j)) /=.
by move/eqP.
Qed.

Definition slice_pm : matrix R := [:: [:: 1; -1]; [:: -1; 1]].
Definition key_ones : matrix R := [:: [:: 1]; [:: 1]].

(** In exact arithmetic: the slice [[1, -1], [-1, 1]] is a Gram matrix of
    rank 1, the key (1, 1)^T has rank 1, the compressed slice is zero and
    the decompressor returns the zero matrix. *)
Lemma exact_key_loses_slice :
  [/\ mx_of 2 2 slice_pm
      = mx_of 2 1 [:: [:: 1]; [:: -1]] *m (mx_of 2 1 [:: [:: 1]; [:: -1]])^T,
      \rank (mx_of 2 2 slice_pm) = 1%nat,
      \rank (mx_of 2 1 (take_cols (2 * 0 + 1) key_ones)) = 1%nat,
      dot A (transpose A (take_cols (2 * 0 + 1) key_ones)) slice_pm
      = Ok (zeros A 1 2)
    & uncompress_slice A (@exact_rank R) eigh (zeros A 1 2) 0 key_ones
      = Ok (zeros A 2 2)
      /\ zeros A 2 2 <> slice_pm].
Proof.
have HG : mx_of 2 2 slice_pm
      = mx_of 2 1 [:: [:: 1]; [:: -1]] *m (mx_of 2 1 [:: [:: 1]; [:: -1]])^T.
  apply/matrixP => i j; rewrite !mxE big_ord1 !mxE.
  case: i => [[|[|i]]] //= _; case: j => [[|[|j]]] //= _;
    by rewrite ?mulr1 ?mul1r ?mulrNN ?mulr1.
have H1 : (1 : R) != 0 by rewrite oner_eq0.
split=> //.
- apply/eqP; rewrite eqn_leq {1}HG mulmx_max_rank /= lt0n mxrank_eq0.
  by apply/eqP => /matrixP /(_ ord0 ord0); rewrite !mxE /=; move/eqP: H1.
- apply/eqP; rewrite eqn_leq rank_leq_col /= lt0n mxrank_eq0.
  by apply/eqP => /matrixP /(_ ord0 ord0); rewrite !mxE /=; move/eqP: H1.
- rewrite /dot /transpose /= /ncols /slice_pm /mkseq /= /dotp /=.
  by rewrite !mul1r !add0r subrr addrC subrr.
- split; last by case=> /eqP; rewrite eq_sym (negbTE H1).
  apply: (@uncompress_slice_zero _ A (@exact_rank R) eigh 1 2 0 _ key_ones
            exact_rank_zero) => //=.
  by rewrite !eqxx.
Qed.

End KeyLosesSlice.

(** * More of the notebook *)

(** [natlia] for the part of the file where the order's [leP] hides that
    of ssrnat. *)
Ltac nat_hyps :=
  repeat match goal with
  | H : is_true (leq _ _) |- _ => move/ssrnat.leP: H
  | H : leq _ _ = false |- _ =>
      move/negbT: H; rewrite -ltnNge; move/ssrnat.leP
  | H : leq _ _ = true |- _ => move/ssrnat.leP: H
  end.
Ltac natarith :=
  intros;
  try match goal with
  | |- is_true (leq _ _) => apply/ssrnat.leP
  | |- leq _ _ = false => apply/negbTE; rewrite -ltnNge; apply/ssrnat.leP
  end;
  nat_hyps; to_stdlib; intros; (lia || nia).

(** ** [ps2slices]: the entries of the l-slices *)

(** X1: on a vector that holds at least [NS*(NS+1)*(L+1)/2] elements,
    [ps2slices] returns the array whose entry [[l][a][b]] is the element
    of [ps] at the index [(L+1) * (m*(m+1)/2 + k) + l], [m] the larger and
    [k] the smaller of [a] and [b]: as it is on the diagonal, multiplied
    by [2 ** -0.5] off it. *)
Theorem ps2slices_entries (F : Type) (A : arith F) (ps : vector F)
        (NS L : nat) :
  vec_len NS L <= size ps ->
  exists ls,
    ps2slices A ps NS L = Ok ls
    /\ forall l a b, l < L + 1 -> a < NS -> b < NS ->
         nth (f0 A) (nth [::] (nth [::] ls l) a) b
         = let m := maxn a b in
           let k := minn a b in
           let p := nth (f0 A) ps ((L + 1) * ((m * m.+1)./2 + k) + l) in
           if a == b then p else fmul A p (two_pow_neg_half A).
Proof.
move=> Hlen; exists (arr3 (L + 1) NS NS (entry A ps L)); split.
  by rewrite ps2slices_closed -vec_len_tri Hlen.
by move=> l a b Hl Ha Hb; rewrite nth_arr3.
Qed.

(** X1, witness: three elements, [NS = 2], [L = 0]. *)
Lemma ps2slices_entries_witness :
  exists ls,
    ps2slices F64.float64 [:: 1%float; 7%float; 1%float] 2 0 = Ok ls
    /\ forall l a b, l < 0 + 1 -> a < 2 -> b < 2 ->
         nth 0%float (nth [::] (nth [::] ls l) a) b
         = let m := maxn a b in
           let k := minn a b in
           let p := nth 0%float [:: 1%float; 7%float; 1%float]
                        ((0 + 1) * ((m * m.+1)./2 + k) + l) in
           if a == b then p
           else PrimFloat.mul p (two_pow_neg_half F64.float64).
Proof.
by apply: (@ps2slices_entries _ F64.float64
             [:: 1%float; 7%float; 1%float] 2 0).
Defined.

(** ** The assertion of the driver cell on [n_short] *)

Lemma sumn_min_le (c NS K : nat) :
  sumn [seq NS * minn (2 * l + 1) c | l <- iota 0 K] <= NS * K ^ 2.
Proof.
rewrite pow2E; elim: K => [//|K IH].
rewrite -[in iota _ _]addn1 iotaD map_cat sumn_cat [sumn (map _ (iota _ 1))]/=.
rewrite add0n addn0.
have H : NS * minn (2 * K + 1) c <= NS * (2 * K + 1).
  by rewrite leq_mul2l geq_minl orbT.
move: (sumn _) (minn _ _) IH H => x y; natarith.
Qed.

Lemma sumn_min_lt (c NS K : nat) :
  0 < NS -> c + 1 < 2 * K ->
  sumn [seq NS * minn (2 * l + 1) c | l <- iota 0 K] < NS * K ^ 2.
Proof.
rewrite pow2E; case: K => [//|K] HNS HK.
rewrite -[in iota _ _]addn1 iotaD map_cat sumn_cat [sumn (map _ (iota _ 1))]/=.
rewrite add0n addn0.
have := sumn_min_le c NS K; rewrite pow2E => Hle.
have H : NS * minn (2 * K + 1) c < NS * (2 * K + 1).
  rewrite ltn_mul2l HNS /=.
  have -> : minn (2 * K + 1) c = c by apply/minn_idPr; move: HK; natarith.
  by move: HK; natarith.
move: (sumn _) (minn _ _) Hle H => x y; natarith.
Qed.

(** The compressed slices under a key of [min(NS, 2L+1)] columns. *)
Lemma n_short_key (F : Type) (A : arith F) (NS L : nat) (RK : matrix F)
      (full_slices : seq (matrix F)) :
  wf NS (minn NS (2 * L + 1)) RK -> size full_slices = L + 1 ->
  (forall l, l < L + 1 -> wf NS NS (nth [::] full_slices l)) ->
  exists2 cs, comp_slices A full_slices RK = Ok cs
            & n_short cs
              = sumn [seq NS * minn (2 * l + 1) NS | l <- iota 0 (L + 1)].
Proof.
move=> Hshape Hsz Hwf.
have Hc : 0 < NS -> 0 < minn NS (2 * L + 1).
  by move=> H; rewrite leq_min H addn1.
have [|cs Hcs Hsizes] := @comp_slices_sizes _ A _ _ 0 RK full_slices Hshape Hc.
  by move=> l; rewrite Hsz; exact: Hwf.
exists cs; first by [].
rewrite /n_short Hsizes Hsz; congr sumn; apply/eq_in_map => l.
rewrite mem_iota add0n /= => Hl; rewrite mulnC; congr (_ * _).
rewrite minnA [minn _ NS]minnC -minnA; congr minn.
by apply/minn_idPl; move: Hl; natarith.
Qed.

Lemma sumn_min_eq (NS L : nat) :
  (sumn [seq NS * minn (2 * l + 1) NS | l <- iota 0 (L + 1)]
   == NS * (L + 1) ^ 2)
  = (NS == 0) || (2 * L + 1 <= NS).
Proof.
case: (posnP NS) => [->|H0] /=.
  by elim: (iota 0 (L + 1)) => [|l s IH].
case: (leqP (2 * L + 1) NS) => H.
  by rewrite sumn_odds ?eqxx //; move: H; natarith.
apply/negbTE; rewrite neq_ltn sumn_min_lt //.
by move: H; natarith.
Qed.

(** X2: with the key [gen_random_key] draws, the compressed slices of
    [L+1] slices of size [N*S] x [N*S] hold [N*S*(L+1)**2] numbers in all,
    which is what the driver cell asserts of [n_short], exactly when
    [2L+1 <= N*S] or [N*S = 0]; for [0 < N*S < 2L+1] they hold fewer and
    the assertion fails. *)
Theorem n_short_assertion (F : Type) (A : arith F)
        (sample : nat -> nat -> F) (N L S : nat)
        (full_slices : seq (matrix F)) :
  size full_slices = L + 1 ->
  (forall l, l < L + 1 -> wf (N * S) (N * S) (nth [::] full_slices l)) ->
  exists RK cs,
    [/\ gen_random_key A sample (params_of N L S) = Ok RK,
        comp_slices A full_slices RK = Ok cs,
        (n_short cs == N * S * (L + 1) ^ 2)
        = (N * S == 0) || (2 * L + 1 <= N * S)
      & 0 < N * S < 2 * L + 1 -> n_short cs < N * S * (L + 1) ^ 2].
Proof.
move=> Hsz Hwf.
have [RK HRK Hshape] := gen_random_key_shape A sample N L S.
have [cs Hcs Hn] := n_short_key A Hshape Hsz Hwf.
exists RK, cs; split=> //; first by rewrite Hn sumn_min_eq.
case/andP => H0 H1; rewrite Hn; apply: sumn_min_lt => //.
by move: H1; natarith.
Qed.

(** X2, witness: [N = 6], [L = 3] and one species, the parameters of a
    dataset of one species, with four zero slices. *)
Lemma n_short_assertion_witness :
  exists RK cs,
    [/\ gen_random_key F64.float64 (fun _ _ => 0.5%float) (params_of 6 3 1)
        = Ok RK,
        comp_slices F64.float64 (zeros3 F64.float64 4 6 6) RK = Ok cs,
        (n_short cs == 6 * 1 * (3 + 1) ^ 2)
        = (6 * 1 == 0) || (2 * 3 + 1 <= 6 * 1)
      & 0 < 6 * 1 < 2 * 3 + 1 -> n_short cs < 6 * 1 * (3 + 1) ^ 2].
Proof.
apply: (@n_short_assertion _ F64.float64 (fun _ _ => 0.5%float) 6 3 1
          (zeros3 F64.float64 4 6 6)).
  by [].
by move=> [|[|[|[|l]]]].
Defined.

Import Order.Theory GRing.Theory Num.Theory.

(** ** [get_IR] with any rank routine *)

Section GetIR.

Variable F : Type.
Variable matrix_rank : matrix F -> res nat.

(** What [get_IR] keeps whatever the ranks are: [T] holds the rows [inds]
    of [M], and [inds] increases. *)
Definition IR_rows (M : matrix F) (j : nat) (T : matrix F) (inds : seq nat)
  : Prop :=
  [/\ T = [seq nth [::] M i | i <- inds],
      sorted ltn inds & all (fun i => i < j) inds].

Lemma sorted_rcons_lt (inds : seq nat) (j : nat) :
  sorted ltn inds -> all (fun i => i < j) inds -> sorted ltn (rcons inds j).
Proof.
case: inds => [//|i inds] /=; rewrite rcons_path => -> /andP [Hi Hall] /=.
by case: (lastP inds) Hall => [//|s x]; rewrite last_rcons all_rcons => /andP [].
Qed.

Lemma get_IR_step_rows (M : matrix F) (j cur : nat) (T : matrix F)
      (inds : seq nat) (st : matrix F * seq nat * nat) :
  IR_rows M j T inds ->
  get_IR_step matrix_rank (j, nth [::] M j) (T, inds, cur) = Ok st ->
  IR_rows M j.+1 st.1.1 st.1.2.
Proof.
move=> [HT Hs Hall]; rewrite /get_IR_step.
case: (matrix_rank _) => [r|e] //=; case: ifP => _ [<-] /=; split.
- by rewrite map_rcons -HT.
- exact: sorted_rcons_lt.
- by rewrite all_rcons ltnSn /=; apply: sub_all Hall => i /ltnW.
- by rewrite size_rcons /= -cats1 take_size_cat.
- by [].
- by apply: sub_all Hall => i /ltnW.
Qed.

Lemma get_IR_loop_rows (M : matrix F) (k j cur : nat) (T : matrix F)
      (inds : seq nat) (st : matrix F * seq nat * nat) :
  j + k = size M -> IR_rows M j T inds ->
  foldM (get_IR_step matrix_rank) (T, inds, cur) (zip (iota j k) (drop j M))
  = Ok st ->
  IR_rows M (size M) st.1.1 st.1.2.
Proof.
elim: k j cur T inds => [|k IH] j cur T inds Hjk Hinv.
  by rewrite -Hjk addn0; case: (drop j M) => [|x s] /= [<-].
have Hj : j < size M by rewrite -Hjk -addSnnS leq_addr.
have foldM_cons f a x s :
    @foldM (matrix F * seq nat * nat) (nat * vector F) f a (x :: s)
    = bind (f x a) (fun a' => foldM f a' s) by [].
rewrite (drop_nth [::] Hj) [zip _ _]/= foldM_cons.
case E : (get_IR_step matrix_rank _ _) => [[[T1 inds1] cur1]|e] //.
rewrite [bind _ _]/=.
move=> Hf; apply: (IH j.+1 cur1 T1 inds1 _ _ Hf); first by rewrite addSnnS.
exact: (get_IR_step_rows Hinv E).
Qed.

Lemma get_IR_ok_rows (M T : matrix F) (inds : seq nat) :
  get_IR matrix_rank M = Ok (T, inds) -> IR_rows M (size M) T inds.
Proof.
rewrite /get_IR.
case E : (foldM _ _ _) => [[[T' inds'] cur]|e] //= [<- <-].
have H0 : IR_rows M 0 [::] [::] by [].
have := @get_IR_loop_rows M (size M) 0 0 [::] [::] _ (add0n _) H0.
by rewrite drop0 => /(_ _ E).
Qed.

Lemma get_IR_loop_returns (s : seq (nat * vector F))
      (st : matrix F * seq nat * nat) :
  (forall T, exists r, matrix_rank T = Ok r) ->
  exists st', foldM (get_IR_step matrix_rank) st s = Ok st'.
Proof.
move=> Htot; elim: s st => [|[i row] s IH] [[T inds] cur] /=.
  by eexists.
case: (Htot (rcons T row)) => r ->; rewrite /=.
by case: ifP => _ /=; exact: IH.
Qed.

End GetIR.

(** X3: when [np.linalg.matrix_rank] returns on every array, [get_IR]
    returns, whatever the ranks are, a list [inds] of row indices of its
    argument in increasing order, without repetition, together with
    exactly those rows: [T[k] = A[inds[k]]]. *)
Theorem get_IR_rows (F : Type) (matrix_rank : matrix F -> res nat)
        (M : matrix F) :
  (forall T, exists r, matrix_rank T = Ok r) ->
  exists T inds,
    [/\ get_IR matrix_rank M = Ok (T, inds),
        sorted ltn inds,
        all (fun i => i < size M) inds,
        size T = size inds
      & forall k, k < size inds -> nth [::] T k = nth [::] M (nth 0 inds k)].
Proof.
move=> Htot; rewrite /get_IR.
have [[[T inds] cur] E] :=
  get_IR_loop_returns (zip (iota 0 (size M)) M) ([::], [::], 0) Htot.
have EIR : get_IR matrix_rank M = Ok (T, inds) by rewrite /get_IR E.
have [HT Hs Hall] := get_IR_ok_rows EIR.
exists T, inds; rewrite E /=; split=> //; first by rewrite HT size_map.
by move=> k Hk; rewrite HT (nth_map 0).
Qed.

(** X3, witness: the rank routine of the binary64 runs. *)
Lemma get_IR_rows_witness :
  exists T inds,
    [/\ get_IR matrix_rank_row [:: [:: 1; -1]%float] = Ok (T, inds),
        sorted ltn inds,
        all (fun i => i < size [:: [:: 1; -1]%float]) inds,
        size T = size inds
      & forall k, k < size inds ->
          nth [::] T k = nth [::] [:: [:: 1; -1]%float] (nth 0 inds k)].
Proof.
apply: (@get_IR_rows _ matrix_rank_row [:: [:: 1; -1]%float]).
by move=> T; eexists.
Defined.

(** X4: with the exact rank, on an array whose rows have [n > 0] entries,
    [get_IR] returns rows that are linearly independent and span the rows
    of the array: as many rows as its rank. *)
Theorem get_IR_basis (R : realFieldType) (n : nat) (M : matrix R) :
  (0 < n)%nat -> all (fun r => size r == n) M ->
  exists T inds,
    [/\ get_IR (@exact_rank R) M = Ok (T, inds),
        row_free (mx_of (size inds) n T),
        (mx_of (size inds) n T :=: mx_of (size M) n M)%MS
      & size inds = \rank (mx_of (size M) n M)].
Proof.
move=> Hn HM.
have [T [inds [E [HT Hall Hrk Hsp]]]] := get_IR_exact Hn HM.
rewrite take_size in Hsp.
exists T, inds; split=> //; first by rewrite /row_free Hrk.
by rewrite -Hsp.1.
Qed.

Definition rows_1_2 : matrix rat := [:: [:: 1; 1]; [:: 2%:R; 2%:R]]%R.

(** X4, witness: the rows (1, 1) and (2, 2) over the rationals. *)
Lemma get_IR_basis_witness :
  exists T inds,
    [/\ get_IR (@exact_rank rat) rows_1_2 = Ok (T, inds),
        row_free (mx_of (size inds) 2 T),
        (mx_of (size inds) 2 T :=: mx_of (size rows_1_2) 2 rows_1_2)%MS
      & size inds = \rank (mx_of (size rows_1_2) 2 rows_1_2)].
Proof. by apply: (@get_IR_basis rat 2 rows_1_2). Defined.

(** ** The matrix [uncompress_slice] returns *)

Section Symmetric.

Variable F : Type.
Variable A : arith F.
Variable matrix_rank : matrix F -> res nat.
Variable eigh : matrix F -> res (vector F * matrix F).

Hypothesis fmulC : forall x y : F, fmul A x y = fmul A y x.

Lemma dotpC (u v : vector F) : dotp A u v = dotp A v u.
Proof.
rewrite /dotp; move: (f0 A) => a.
by elim: u v a => [|x u IH] [|y v] a //=; rewrite fmulC IH.
Qed.

Lemma zeros_mkseq (m n : nat) :
  zeros A m n = mkseq (fun _ => mkseq (fun _ => f0 A) n) m.
Proof.
rewrite /zeros.
have E k (x : F) : nseq k x = mkseq (fun _ => x) k.
  apply: (@eq_from_nth _ x); first by rewrite size_nseq size_mkseq.
  by move=> i; rewrite size_nseq => Hi; rewrite nth_nseq Hi nth_mkseq.
apply: (@eq_from_nth _ [::]); first by rewrite size_nseq size_mkseq.
by move=> i; rewrite size_nseq => Hi; rewrite nth_nseq Hi nth_mkseq // E.
Qed.

(** [np.dot(X.T, X)] of an [r] x [n] array. *)
Lemma gram_mkseq (r n : nat) (X : matrix F) :
  wf r n X -> 0 < r -> 0 < n ->
  dot A (transpose A X) X
  = Ok (mkseq (fun a => mkseq (fun b => dotp A (col A a X) (col A b X)) n) n).
Proof.
move=> HX Hr Hn; have [HXt _] := (wf_transpose A HX Hr, I).
rewrite /dot (ncols_wf HXt Hn) /nrows; case/wfP: (HX) => -> _; rewrite eqxx.
by rewrite (ncols_wf HX Hr) /transpose (ncols_wf HX Hr) -map_comp.
Qed.

Lemma clamp_roots_size (vals roots : vector F) :
  clamp_roots A vals = Ok roots -> 0 < size roots.
Proof.
rewrite /clamp_roots.
case E : (py_min _ _) => [mp|e] //= [<-]; rewrite size_map.
case: (vals) E => [|x s] //=.
Qed.

Lemma dot_rows (M1 M2 M : matrix F) :
  dot A M1 M2 = Ok M ->
  [/\ ncols M1 = nrows M2, size M = size M1
    & forall i, i < size M1 -> size (nth [::] M i) = ncols M2].
Proof.
rewrite /dot; case: eqP => // E [<-]; split=> //; first by rewrite size_map.
by move=> i Hi; rewrite (nth_map [::]) // size_mkseq.
Qed.

(** X5: in an arithmetic whose multiplication is commutative, whatever
    [np.linalg.matrix_rank] and [np.linalg.eigh] return, a matrix that
    [uncompress_slice] returns for an [m] x [n] compressed slice and a key
    of [n] rows is [n] x [n] and equal to its transpose. *)
Theorem uncompress_slice_symmetric (m n l : nat) (WtP RK P : matrix F) :
  0 < m -> 0 < n -> wf m n WtP -> size RK = n ->
  uncompress_slice A matrix_rank eigh WtP l RK = Ok P ->
  wf n n P /\ transpose A P = P.
Proof.
move=> Hm Hn HWtP HRK; rewrite /uncompress_slice.
case EIR : (get_IR matrix_rank WtP) => [[T inds]|e] //=.
have [HT _ Hall] := get_IR_ok_rows EIR.
case: eqP => Hinds.
  case: (matrix_rank WtP) => [r|e] //=; case: (r == 0) => //= -[<-].
  rewrite /nrows /take_cols size_map HRK zeros_mkseq; split.
    exact: wf_mkseq.
  exact: transpose_mkseq.
rewrite /reconstruct.
case: (dot A WtP _) => [C0|e] //=; case: (select_rows _ _) => [C1|e] //=.
case: (select_cols _ _) => [C|e] //=; case: (eigh C) => [[vals Ut]|e] //=.
case: (dot A (diag A vals) _) => [LU|e] //=.
case: (dot A _ LU) => [R0|e] //=; case: (allclose A R0 C) => [[]|e] //=.
case Ecl : (clamp_roots A vals) => [roots|e] //=.
case EUT : (dot A _ T) => [UT|e] //=.
case EX : (dot A _ UT) => [X|e] //=.
have Hr := clamp_roots_size Ecl.
have [HUT1 HUT2 HUT3] := dot_rows EUT.
have [HX1 HX2 HX3] := dot_rows EX.
have HncT : ncols T = n.
  case/wfP: HWtP => Hsz Hrow.
  case: (inds) Hinds HT Hall => [//|i0 s] _ -> /= /andP [Hi0 _].
  by rewrite /ncols /= Hrow // -Hsz.
have SD : size (diag A roots) = size roots by rewrite size_mkseq.
have HncD : ncols (diag A roots) = size roots.
  by rewrite /ncols /diag; case: (size roots) Hr => [//|k] _; rewrite /= size_map size_iota.
have SUT : size UT = size roots by rewrite -[LHS]/(nrows UT) -HX1 HncD.
have HncUT : ncols UT = n.
  rewrite /ncols -nth0 HUT3 // -HUT2 SUT //.
have wfX : wf (size roots) n X.
  apply: wf_intro; first by rewrite HX2 SD.
  by move=> i Hi; rewrite HX3 ?SD // HncUT.
rewrite (gram_mkseq wfX Hr Hn) [bind _ _]/=.
case Ev : (verify A _ _ WtP) => [[]|e] //= -[<-]; split.
  exact: wf_mkseq.
by apply: transpose_mkseq => a b _ _; exact: dotpC.
Qed.

End Symmetric.

(** The multiplication of binary64 is commutative. *)
Lemma float_mulC (x y : float) : PrimFloat.mul x y = PrimFloat.mul y x.
Proof.
apply: Prim2SF_inj; rewrite !mul_spec /SF64mul /SFmul.
case: (Prim2SF x) => [sx|sx||sx mx ex]; case: (Prim2SF y) => [sy|sy||sy my ey] //;
  by rewrite Bool.xorb_comm // Pos.mul_comm Z.add_comm.
Qed.

(** X5, witness: binary64, the compressed slice (1, 1) under the key
    (1, 0)^T, which [uncompress_slice] turns into the matrix of ones. *)
Lemma uncompress_slice_symmetric_witness :
  wf 2 2 [:: [:: 1; 1]; [:: 1; 1]]%float
  /\ transpose F64.float64 [:: [:: 1; 1]; [:: 1; 1]]%float
     = [:: [:: 1; 1]; [:: 1; 1]]%float.
Proof.
apply: (@uncompress_slice_symmetric _ F64.float64 matrix_rank_row eigh_1x1
          float_mulC 1 2 0 [:: [:: 1; 1]]%float [:: [:: 1]; [:: 0]]%float).
- by [].
- by [].
- by [].
- by [].
- by [].
Defined.

(** ** The clamping of the roots *)

Section Clamp.

Local Open Scope ring_scope.

Variable R : realFieldType.
Variables (rsqrt pnh : R -> R) (c0 : R).
Let A := exact_arith rsqrt pnh c0.

(** [min] of a non-empty list is its least element. *)
Lemma py_min_least (x : R) (s : seq R) :
  exists m, [/\ py_min A (x :: s) = Ok m, m \in x :: s
              & forall y, y \in x :: s -> m <= y].
Proof.
rewrite /py_min /=.
have : x \in [:: x] /\ forall y, y \in [:: x] -> x <= y.
  by split=> [|y]; rewrite inE // => /eqP ->.
rewrite -[x :: s]/([:: x] ++ s).
elim: s x [:: x] => [|z s IH] m done [Hin Hle].
  by exists m; rewrite cats0.
rewrite /=; have -> : done ++ z :: s = rcons done z ++ s by rewrite cat_rcons.
apply: IH; case: ltP => Hz; split.
- by rewrite mem_rcons inE eqxx.
- move=> y; rewrite mem_rcons inE => /orP [/eqP -> //|/Hle Hy].
  exact: le_trans (ltW Hz) Hy.
- by rewrite mem_rcons inE Hin orbT.
- by move=> y; rewrite mem_rcons inE => /orP [/eqP -> //|/Hle].
Qed.

End Clamp.

(** X6: in exact arithmetic, the clamping step of [uncompress_slice]
    raises [ValueError] exactly when no eigenvalue has a positive root
    [x ** -0.5]; otherwise it keeps every positive root, replaces every
    other one by [min_pos * 1e-15], [min_pos] the least positive root, and
    all the entries it hands to [np.diag] are positive. *)
Theorem clamp_roots_positive (R : realFieldType) (rsqrt pnh : R -> R)
        (c0 : R) (vals : vector R) :
  if has (fun x => 0 < pnh x)%R vals then
    exists mp roots,
      [/\ clamp_roots (exact_arith rsqrt pnh c0) vals = Ok roots,
          mp \in [seq pnh x | x <- vals] /\ (0 < mp)%R,
          forall x, x \in vals -> (0 < pnh x)%R -> (mp <= pnh x)%R,
          roots = [seq if (0 < pnh x)%R then pnh x
                       else (mp * (10%:R ^+ 15)^-1)%R | x <- vals]
        & all (fun x => 0 < x)%R roots]
  else clamp_roots (exact_arith rsqrt pnh c0) vals = Err ValueError.
Proof.
rewrite /clamp_roots /=; set A := exact_arith rsqrt pnh c0.
case Hhas : (has _ vals).
  have : has (fun x => 0 < x)%R [seq pnh x | x <- vals] by rewrite has_map.
  rewrite has_filter; case Ef : (filter _ _) => [//|y s] _.
  have [mp [-> Hin Hle]] := py_min_least rsqrt pnh c0 y s.
  have : mp \in [seq x <- [seq pnh x | x <- vals] | (0 < x)%R] by rewrite Ef.
  rewrite mem_filter => /andP [Hpos Hmem].
  exists mp; eexists; split=> //=.
  - move=> x Hx Hp; apply: Hle; rewrite -Ef mem_filter Hp /=.
    by apply/mapP; exists x.
  - by rewrite -map_comp.
  - rewrite all_map; apply/allP => x _ /=; case: ifP => // _.
    by rewrite mulr_gt0 // invr_gt0 exprn_gt0 // ltr0n.
have : ~~ has (fun x => 0 < x)%R [seq pnh x | x <- vals] by rewrite has_map Hhas.
by rewrite has_filter negbK => /eqP ->.
Qed.

(** ** What [compress_ps] raises on slices of the wrong shape *)

Section CompressErrors.

Variable F : Type.
Variable A : arith F.

Lemma mapM_cat (X Y : Type) (f : X -> res Y) (s1 s2 : seq X) :
  mapM f (s1 ++ s2)
  = (ys1 <- mapM f s1 ;; ys2 <- mapM f s2 ;; Ok (ys1 ++ ys2)).
Proof.
elim: s1 => [|x s1 IH] /=; first by case: (mapM f s2).
case: (f x) => [y|e] //=; rewrite IH.
by case: (mapM f s1) => [ys1|e] //=; case: (mapM f s2).
Qed.

Lemma eq_in_mapM (f g : nat -> res (matrix F)) (s : seq nat) :
  (forall x, x \in s -> f x = g x) -> mapM f s = mapM g s.
Proof.
elim: s => [//|x s IH] H /=; rewrite H ?inE ?eqxx //.
by rewrite IH // => y Hy; apply: H; rewrite inE Hy orbT.
Qed.

Lemma getitem_cat (s1 s2 : seq (matrix F)) (l : nat) :
  l < size s1 -> getitem (s1 ++ s2) l = getitem s1 l.
Proof.
move=> Hl; rewrite !(getitem_nth [::]) size_cat nth_cat Hl.
by rewrite (leq_trans Hl) // leq_addr.
Qed.

(** The turns of the loop of [compress_ps] over well-shaped slices
    succeed. *)
Lemma compress_prefix (NS c l0 : nat) (RK : matrix F) (ls : seq (matrix F)) :
  wf NS c RK -> (0 < NS -> 0 < c) -> l0 <= size ls ->
  (forall l, l < l0 -> wf NS NS (nth [::] ls l)) ->
  exists cs,
    mapM (fun l => Pl <- getitem ls l ;;
                   dot A (transpose A (take_cols (2 * l + 1) RK)) Pl)
         (iota 0 l0) = Ok cs.
Proof.
move=> HRK Hc Hl0 Hwf.
have Hsz : size (take l0 ls) = l0 by rewrite size_takel.
have [|cs Hcs _] := @comp_slices_sizes _ A NS c 0 RK (take l0 ls) HRK Hc.
  by move=> l; rewrite Hsz => Hl; rewrite nth_take //; exact: Hwf.
exists cs; rewrite -Hcs Hsz.
have := @mapM_enumerate _ _
          (fun l Pl => dot A (transpose A (take_cols (2 * l + 1) RK)) Pl)
          [::] (take l0 ls).
rewrite /= Hsz => <-; apply: eq_in_mapM => l; rewrite mem_iota add0n /= => Hl.
by rewrite -{1}(cat_take_drop l0 ls) getitem_cat ?Hsz.
Qed.

End CompressErrors.

(** X7: when the key has [NS] rows and [l_slices] holds fewer than [L+1]
    slices, all of them [NS] x [NS], the compression loop of [compress_ps]
    raises the [IndexError] of [l_slices[l]]. *)
Theorem compress_slices_IndexError (F : Type) (A : arith F) (NS c L : nat)
        (RK : matrix F) (ls : seq (matrix F)) (norm : bool) :
  wf NS c RK -> 0 < c -> size ls < L + 1 ->
  (forall l, l < size ls -> wf NS NS (nth [::] ls l)) ->
  compress_slices A ls L RK norm = Err IndexError.
Proof.
move=> HRK Hc0 HL Hwf.
have [cs Hcs] :=
  @compress_prefix _ A NS c (size ls) RK ls HRK (fun _ => Hc0) (leqnn _) Hwf.
have Hiota : iota 0 (L + 1)
             = iota 0 (size ls) ++ size ls :: iota (size ls).+1 (L - size ls).
  have -> : L + 1 = size ls + (L - size ls).+1 by move: HL; natarith.
  by rewrite iotaD add0n.
rewrite compress_slices_mapM Hiota mapM_cat Hcs /=.
by rewrite (getitem_nth [::]) ltnn.
Qed.

(** X7, witness: a 1 x 1 key, [L = 1] and one slice. *)
Lemma compress_slices_IndexError_witness :
  compress_slices F64.float64 [:: [:: [:: 2%float]]] 1 [:: [:: 1%float]] true
  = Err IndexError.
Proof.
apply: (@compress_slices_IndexError _ F64.float64 1 1 1 [:: [:: 1%float]]
          [:: [:: [:: 2%float]]] true) => //.
by case.
Defined.

(** X8: when the key has [NS > 0] rows, the slices before [l0 <= L] are
    [NS] x [NS] and the slice [l0] does not have [NS] rows, the compression
    loop of [compress_ps] raises the [ValueError] of [np.dot]. *)
Theorem compress_slices_ValueError (F : Type) (A : arith F) (NS c L l0 : nat)
        (RK : matrix F) (ls : seq (matrix F)) (norm : bool) :
  wf NS c RK -> 0 < NS -> 0 < c -> l0 < L + 1 -> l0 < size ls ->
  (forall l, l < l0 -> wf NS NS (nth [::] ls l)) ->
  size (nth [::] ls l0) <> NS ->
  compress_slices A ls L RK norm = Err ValueError.
Proof.
move=> HRK HNS Hc0 HL Hl0 Hwf Hrows.
have [cs Hcs] :=
  @compress_prefix _ A NS c l0 RK ls HRK (fun _ => Hc0) (ltnW Hl0) Hwf.
have Hiota : iota 0 (L + 1) = iota 0 l0 ++ l0 :: iota l0.+1 (L - l0).
  have -> : L + 1 = l0 + (L - l0).+1 by move: HL; natarith.
  by rewrite iotaD add0n.
rewrite compress_slices_mapM Hiota mapM_cat Hcs /=.
rewrite (getitem_nth [::]) Hl0 /=.
have HW : wf NS (minn (2 * l0 + 1) c) (take_cols (2 * l0 + 1) RK).
  exact: wf_take_cols.
have Hmin : 0 < minn (2 * l0 + 1) c by rewrite leq_min addn1.
have HWt := wf_transpose A HW HNS.
rewrite /dot (ncols_wf HWt Hmin) /nrows.
by case: eqP => // E; case: Hrows.
Qed.

(** X8, witness: a 1 x 1 key, [L = 1], a 1 x 1 slice and then a slice of
    two rows. *)
Lemma compress_slices_ValueError_witness :
  compress_slices F64.float64
    [:: [:: [:: 2%float]]; [:: [:: 1%float]; [:: 1%float]]] 1
    [:: [:: 1%float]] true
  = Err ValueError.
Proof.
apply: (@compress_slices_ValueError _ F64.float64 1 1 1 1 [:: [:: 1%float]]
          [:: [:: [:: 2%float]]; [:: [:: 1%float]; [:: 1%float]]] true) => //.
by case.
Defined.

(** ** [ps2slices] keeps the norm *)

Section Isometry.

Local Open Scope ring_scope.

Variable R : realFieldType.
Variables (rsqrt pnh : R -> R) (c0 : R).
Let A := exact_arith rsqrt pnh c0.

Lemma dotp_sumsq (v : vector R) : dotp A v v = \sum_(x <- v) x ^+ 2.
Proof.
rewrite /dotp foldl_dotp add0r.
have -> : zip v v = [seq (x, x) | x <- v] by elim: v => [//|x v /= ->].
by rewrite big_map; apply: eq_bigr => x _; rewrite expr2.
Qed.

Lemma big_mkseq (T : Type) (f : nat -> T) (G : T -> R) (n : nat) :
  \sum_(x <- mkseq f n) G x = \sum_(0 <= i < n) G (f i).
Proof. by rewrite /mkseq big_map /index_iota subn0. Qed.

(** A sum over a square, of a symmetric term that is halved off the
    diagonal, is the sum over the triangle. *)
Lemma sum_square_triangle (G h : nat -> nat -> R) (n : nat) :
  (forall a, G a a = h a a) ->
  (forall a b, (b < a)%nat -> G a b = h a b / 2%:R /\ G b a = h a b / 2%:R) ->
  \sum_(0 <= a < n) \sum_(0 <= b < n) G a b
  = \sum_(0 <= a < n) \sum_(0 <= b < a.+1) h a b.
Proof.
move=> Hd Ho; elim: n => [|n IH]; first by rewrite !big_geq.
rewrite big_nat_recr //= [in RHS]big_nat_recr //= -IH.
rewrite big_nat_recr //= [\sum_(0 <= b < n.+1) h n b]big_nat_recr //= Hd.
have -> : \sum_(0 <= a < n) \sum_(0 <= b < n.+1) G a b
          = \sum_(0 <= a < n) \sum_(0 <= b < n) G a b
            + \sum_(0 <= a < n) G a n.
  by rewrite -big_split /=; apply: eq_bigr => a _; rewrite big_nat_recr.
have Ea : \sum_(0 <= a < n) G a n = \sum_(0 <= b < n) h n b / 2%:R.
  by apply: eq_big_nat => a /andP [_ Ha]; case: (Ho n a Ha).
have Eb : \sum_(0 <= b < n) G n b = \sum_(0 <= b < n) h n b / 2%:R.
  by apply: eq_big_nat => b /andP [_ Hb]; case: (Ho n b Hb).
rewrite Ea Eb -!addrA; congr (_ + _); rewrite addrA -big_split /=; congr (_ + _).
apply: eq_bigr => b _; rewrite -mulrDl -mulr2n -mulr_natr mulfK //.
by rewrite pnatr_eq0.
Qed.

Lemma sumsq_slices (ps : vector R) (NS L : nat) :
  c0 ^+ 2 = 2%:R^-1 ->
  \sum_(x <- flatten (flatten (arr3 (L + 1) NS NS (entry A ps L)))) x ^+ 2
  = \sum_(x <- mkseq (nth 0 ps) ((L + 1) * tri NS)) x ^+ 2.
Proof.
move=> Hc; rewrite -flatten_packed !big_flatten /= /arr3 !big_mkseq.
pose h a b := \sum_(0 <= l < (L + 1)%nat)
                (nth 0 ps ((L + 1) * (tri a + b) + l)%nat) ^+ 2.
pose G a b := \sum_(0 <= l < (L + 1)%nat) (entry A ps L l a b) ^+ 2.
have -> : \sum_(0 <= l < (L + 1)%nat)
            \sum_(M <- mkseq (fun a => mkseq (fun b => entry A ps L l a b) NS) NS)
              \sum_(x <- M) x ^+ 2
          = \sum_(0 <= a < NS) \sum_(0 <= b < NS) G a b.
  rewrite (eq_bigr (fun l => \sum_(0 <= a < NS) \sum_(0 <= b < NS)
                                (entry A ps L l a b) ^+ 2)).
    move=> l _; rewrite big_mkseq; apply: eq_bigr => a _.
    by rewrite big_mkseq.
  rewrite exchange_big /=; apply: eq_bigr => a _.
  by rewrite exchange_big.
have -> : \sum_(0 <= n1 < NS)
            \sum_(x <- flatten (mkseq (fun n2 =>
                 mkseq (fun l => nth 0 ps ((L + 1) * (tri n1 + n2) + l)%nat)
                       (L + 1)) (n1 + 1))) x ^+ 2
          = \sum_(0 <= a < NS) \sum_(0 <= b < a.+1) h a b.
  apply: eq_bigr => a _; rewrite big_flatten /= big_mkseq addn1.
  by apply: eq_bigr => b _; rewrite big_mkseq.
apply: sum_square_triangle => [a|a b Hba].
  apply: eq_bigr => l _.
  by rewrite /entry /pair_index maxnn minnn eqxx.
have Hne : (a == b) = false by rewrite gtn_eqF.
have Hne' : (b == a) = false by rewrite ltn_eqF.
have Hmax : maxn a b = a by apply/maxn_idPl; exact: ltnW.
have Hmin : minn a b = b by apply/minn_idPr; exact: ltnW.
split; rewrite /G /h big_distrl /=; apply: eq_bigr => l _.
  by rewrite /entry /pair_index Hmax Hmin Hne /= exprMn Hc.
by rewrite /entry /pair_index maxnC minnC Hmax Hmin Hne' /= exprMn Hc.
Qed.

End Isometry.

(** X9: in exact arithmetic with [c ** 2 = 1/2] for the constant
    [c = 2 ** -0.5], the l-slices of a power spectrum of
    [NS*(NS+1)*(L+1)/2] elements have, flattened, the sum of squares and
    the norm of the power spectrum: the norm the driver cell asserts on
    [ps2] is that of [ps]. *)
Theorem ps2slices_norm (R : realFieldType) (rsqrt pnh : R -> R) (c0 : R)
        (ps : vector R) (NS L : nat) :
  (c0 ^+ 2 = 2%:R^-1)%R -> size ps = vec_len NS L ->
  exists ls,
    [/\ ps2slices (exact_arith rsqrt pnh c0) ps NS L = Ok ls,
        (\sum_(x <- flatten (flatten ls)) x ^+ 2 = \sum_(x <- ps) x ^+ 2)%R
      & norm (exact_arith rsqrt pnh c0) (flatten (flatten ls))
        = norm (exact_arith rsqrt pnh c0) ps].
Proof.
move=> Hc Hsz; exists (arr3 (L + 1) NS NS (entry (exact_arith rsqrt pnh c0) ps L)).
have Hsum := sumsq_slices rsqrt pnh ps NS L Hc.
rewrite -vec_len_tri -Hsz mkseq_nth in Hsum.
split=> //; first by rewrite ps2slices_closed -vec_len_tri Hsz leqnn.
by rewrite /norm !dotp_sumsq Hsum.
Qed.

Lemma sqrt_half (R : rcfType) : ((Num.sqrt 2%:R : R)^-1 ^+ 2 = 2%:R^-1)%R.
Proof. by rewrite exprVn sqr_sqrtr // ler0n. Qed.

Definition ps_111 (R : rcfType) : vector R := [:: 1; 1; 1]%R.

(** X9, witness: three elements, [NS = 2] and [L = 0], over the real
    algebraic numbers with [c = 1 / sqrt 2]. *)
Lemma ps2slices_norm_witness :
  exists ls,
    [/\ ps2slices (real_arith algR) (ps_111 algR) 2 0 = Ok ls,
        (\sum_(x <- flatten (flatten ls)) x ^+ 2
         = \sum_(x <- ps_111 algR) x ^+ 2)%R
      & norm (real_arith algR) (flatten (flatten ls))
        = norm (real_arith algR) (ps_111 algR)].
Proof.
apply: (@ps2slices_norm algR Num.sqrt (fun x => (Num.sqrt x)^-1)%R
          (Num.sqrt 2)^-1%R (ps_111 algR) 2 0).
- exact: sqrt_half.
- by [].
Defined.

(** ** The normalisation of the compressed vector *)

Section UnitNorm.

Local Open Scope ring_scope.

Variable R : rcfType.
Let A := real_arith R.

Lemma sumsq_gt0 (v : vector R) :
  has (fun x => x != 0) v -> 0 < \sum_(x <- v) x ^+ 2.
Proof.
elim: v => [//|x v IH] /=; rewrite big_cons => /orP [Hx|/IH Hv].
  apply: ltr_wpDr; last by rewrite exprn_even_gt0.
  by apply: sumr_ge0 => y _; exact: sqr_ge0.
by apply: ltr_wpDl => //; exact: sqr_ge0.
Qed.

Lemma norm_normalize (v : vector R) :
  has (fun x => x != 0) v -> norm A (normalize A v) = 1.
Proof.
move=> Hv; rewrite /norm /normalize /norm.
rewrite !(dotp_sumsq Num.sqrt (fun x => (Num.sqrt x)^-1) (Num.sqrt 2)^-1).
rewrite /= big_map.
have Hs := sumsq_gt0 Hv.
have -> : \sum_(x <- v) (x / Num.sqrt (\sum_(y <- v) y ^+ 2)) ^+ 2
          = (\sum_(x <- v) x ^+ 2) / (\sum_(y <- v) y ^+ 2).
  rewrite mulr_suml; apply: eq_bigr => x _.
  by rewrite exprMn exprVn sqr_sqrtr // ltW.
by rewrite divff ?gt_eqF // sqrtr1.
Qed.

End UnitNorm.

(** X10: in the arithmetic of a real closed field, whenever the
    compression loop of [compress_ps] produces a vector that is not all
    zero, the vector returned with [norm=True] is that vector divided by
    its norm, and its Euclidean norm is 1. *)
Theorem compress_slices_unit_norm (R : rcfType) (ls : seq (matrix R))
        (L : nat) (RK : matrix R) (short : vector R) :
  compress_slices (real_arith R) ls L RK false = Ok short ->
  has (fun x => x != 0%R) short ->
  exists short',
    [/\ compress_slices (real_arith R) ls L RK true = Ok short',
        short' = [seq (x / norm (real_arith R) short)%R | x <- short]
      & norm (real_arith R) short' = 1%R].
Proof.
rewrite !compress_slices_mapM; case: (mapM _ _) => [cs|e] //= [<-] Hnz.
by eexists; split; [reflexivity | | exact: norm_normalize].
Qed.

Section UnitNormRun.

Local Open Scope ring_scope.

Variable R : rcfType.

Lemma run_compress_one :
  compress_slices (real_arith R) [:: [:: [:: 1]]] 0 [:: [:: 1]] false
  = Ok [:: 0 + 1 * 1].
Proof. by []. Qed.

Lemma run_nonzero : has (fun x : R => x != 0) [:: 0 + 1 * 1].
Proof. by rewrite /= mul1r add0r oner_eq0. Qed.

End UnitNormRun.

(** X10, witness: the slice [[1]] under the key [[1]], over the real
    algebraic numbers. *)
Lemma compress_slices_unit_norm_witness :
  exists short',
    [/\ compress_slices (real_arith algR) [:: [:: [:: 1%R]]] 0 [:: [:: 1%R]]
                        true = Ok short',
        short' = [seq (x / norm (real_arith algR) [:: (0 + 1 * 1)%R])%R
                 | x <- [:: (0 + 1 * 1)%R]]
      & norm (real_arith algR) short' = 1%R].
Proof.
apply: (@compress_slices_unit_norm algR [:: [:: [:: 1%R]]] 0 [:: [:: 1%R]]
          [:: (0 + 1 * 1)%R]).
- exact: run_compress_one.
- exact: run_nonzero.
Defined.

(** ** A zero power spectrum under [norm=True] *)

Lemma flatten_zeros (F : Type) (A : arith F) (m n : nat) :
  flatten (zeros A m n) = nseq (m * n) (f0 A).
Proof.
rewrite /zeros; elim: m => [//|m IH].
by rewrite mulSn nseqD -IH.
Qed.

Lemma flatten_nseqs (F : Type) (x : F) (ks : seq nat) :
  flatten [seq nseq k x | k <- ks] = nseq (sumn ks) x.
Proof. by elim: ks => [//|k ks /= ->]; rewrite nseqD. Qed.

Lemma compress_zeros (F : Type) (A : arith F) (NS c K m : nat)
      (RK : matrix F) :
  wf NS c RK -> 0 < NS -> 0 < c -> absorbs_zero A RK ->
  mapM (fun lPl => dot A (transpose A (take_cols (2 * lPl.1 + 1) RK)) lPl.2)
       (zip (iota m K) (nseq K (zeros A NS NS)))
  = Ok [seq zeros A (minn (2 * l + 1) c) NS | l <- iota m K].
Proof.
move=> HRK HNS Hc Habs; elim: K m => [//|K IH] m /=.
have Hk : 0 < 2 * m + 1 by rewrite addn1.
by rewrite (compress_zero HRK HNS Hk Hc Habs) /= IH.
Qed.

(** X11: binary64.  When every l-slice is zero and the key holds no
    infinity and no nan, the compression loop of [compress_ps] with
    [norm=True] divides zero by the zero norm: every number of the
    compressed vector is nan. *)
Theorem compress_zero_nan (NS c L : nat) (RK : matrix float) :
  wf NS c RK -> 0 < NS -> 0 < c -> absorbs_zero F64.float64 RK ->
  compress_slices F64.float64 (zeros3 F64.float64 (L + 1) NS NS) L RK true
  = Ok (nseq (sumn [seq minn (2 * l + 1) c * NS | l <- iota 0 (L + 1)]) nan).
Proof.
move=> HRK HNS Hc Habs; rewrite compress_slices_mapM.
have := @mapM_enumerate _ _
          (fun l Pl => dot F64.float64
                         (transpose F64.float64 (take_cols (2 * l + 1) RK)) Pl)
          [::] (zeros3 F64.float64 (L + 1) NS NS).
rewrite /= /zeros3 size_nseq => ->.
rewrite (compress_zeros (L + 1) 0 HRK HNS Hc Habs) /=; congr Ok.
rewrite -map_comp.
have -> : [seq (flatten \o zeros F64.float64 (minn (2 * l + 1) c)) NS
          | l <- iota 0 (L + 1)]
          = [seq nseq k 0%float
            | k <- [seq minn (2 * l + 1) c * NS | l <- iota 0 (L + 1)]].
  by rewrite -map_comp; apply: eq_map => l /=; rewrite flatten_zeros.
rewrite flatten_nseqs; move: (sumn _) => k.
rewrite /normalize /norm map_nseq; congr (nseq k _).
rewrite (@dotp_zero _ F64.float64 (nseq k 0%float) k) //.
by move=> i; rewrite size_nseq => Hi; rewrite nth_nseq Hi.
Qed.

(** X11, witness: one zero slice under the key [[0.5]]. *)
Lemma compress_zero_nan_witness :
  compress_slices F64.float64 (zeros3 F64.float64 (0 + 1) 1 1) 0
                  [:: [:: 0.5%float]] true
  = Ok (nseq (sumn [seq minn (2 * l + 1) 1 * 1 | l <- iota 0 (0 + 1)]) nan).
Proof.
apply: (@compress_zero_nan 1 1 0 [:: [:: 0.5%float]]) => //.
by move=> [|i] [|j].
Defined.

(** ** The key [gen_random_key] draws *)

(** X12: when [round] gives [N], [L] and [S] for the three parameters,
    [gen_random_key] raises the [ValueError] of a negative dimension if
    [N*S < 0] or [2L+1 < 0]; otherwise it returns an array of [N*S] rows
    and [min(N*S, 2L+1)] columns whose entry [(i, j)] is
    [0.1 + 0.8 * sample(i, j)]. *)
Theorem gen_random_key_cases (F : Type) (A : arith F)
        (sample : nat -> nat -> F) (params : dict) (N L S : Z) :
  round_param params "n_max" = Ok N ->
  round_param params "l_max" = Ok L ->
  round_param params "n_Z" = Ok S ->
  if ((N * S <? 0) || (2 * L + 1 <? 0))%Z then
    gen_random_key A sample params = Err ValueError
  else
    exists RK,
      [/\ gen_random_key A sample params = Ok RK,
          wf (Z.to_nat (N * S)) (Z.to_nat (Z.min (N * S) (2 * L + 1))) RK
        & forall i j, i < Z.to_nat (N * S) ->
            j < Z.to_nat (Z.min (N * S) (2 * L + 1)) ->
            nth (f0 A) (nth [::] RK i) j
            = fadd A (f_0_1 A) (fmul A (f_0_8 A) (sample i j))].
Proof.
rewrite /round_param /gen_random_key => -> -> ->.
rewrite [bind _ _]/bind [bind _ _]/bind [bind _ _]/bind.
have -> : ((N * S <? 0) || (Z.min (N * S) (2 * L + 1) <? 0))%Z
          = ((N * S <? 0) || (2 * L + 1 <? 0))%Z.
  case: (Z.ltb_spec (N * S) 0) => H1; rewrite ?orTb ?orFb //.
  by case: (Z.ltb_spec (2 * L + 1) 0) => H2; case: Z.ltb_spec => // H3; lia.
case: (orb _ _) => //; eexists; split; first by [].
  exact: wf_mkseq.
by move=> i j Hi Hj; rewrite nth_mkseq // nth_mkseq.
Qed.

(** X12, witness: the parameters of a dataset of one species. *)
Lemma gen_random_key_cases_witness :
  if ((6 * 1 <? 0) || (2 * 3 + 1 <? 0))%Z then
    gen_random_key F64.float64 (fun _ _ => 0.5%float) params_one_species
    = Err ValueError
  else
    exists RK,
      [/\ gen_random_key F64.float64 (fun _ _ => 0.5%float) params_one_species
          = Ok RK,
          wf (Z.to_nat (6 * 1)) (Z.to_nat (Z.min (6 * 1) (2 * 3 + 1))) RK
        & forall i j, i < Z.to_nat (6 * 1) ->
            j < Z.to_nat (Z.min (6 * 1) (2 * 3 + 1)) ->
            nth 0%float (nth [::] RK i) j
            = PrimFloat.add 0.1%float (PrimFloat.mul 0.8%float 0.5%float)].
Proof.
by apply: (@gen_random_key_cases _ F64.float64 (fun _ _ => 0.5%float)
             params_one_species 6%Z 3%Z 1%Z).
Defined.

(** X13: in exact arithmetic, when the numbers [np.random.sample] draws
    lie in [0, 1), every entry of the key [gen_random_key] returns lies in
    [0.1, 0.9). *)
Theorem gen_random_key_range (R : realFieldType) (rsqrt pnh : R -> R)
        (c0 : R) (sample : nat -> nat -> R) (params : dict) (RK : matrix R) :
  (forall i j, 0 <= sample i j < 1)%R ->
  gen_random_key (exact_arith rsqrt pnh c0) sample params = Ok RK ->
  all (all (fun x => 10%:R^-1 <= x < 9%:R / 10%:R)%R) RK.
Proof.
move=> Hs; rewrite /gen_random_key.
case: (bind (lookup params "n_max") _) => [N|e] //=.
case: (bind (lookup params "l_max") _) => [L|e] //=.
case: (bind (lookup params "n_Z") _) => [S|e] //=.
case: ifP => // _ [<-]; rewrite all_map; apply/allP => i _ /=.
rewrite all_map; apply/allP => j _ /=.
have /andP [H0 H1] := Hs i j.
have H10 : (0 < 10%:R :> R)%R by rewrite ltr0n.
apply/andP; split.
  by rewrite lerDl mulr_ge0 // divr_ge0 // ler0n.
have -> : (9%:R / 10%:R = 10%:R^-1 + 8%:R / 10%:R * 1 :> R)%R.
  by rewrite mulr1 -[X in (X + _)%R]mul1r -mulrDl -[1%R]/(1%:R)%R -natrD.
by rewrite ltrD2l ltr_pM2l // divr_gt0 // ltr0n.
Qed.

Definition half_sample (R : realFieldType) (i j : nat) : R := (2%:R^-1)%R.

Lemma half_sample_range (R : realFieldType) (i j : nat) :
  (0 <= half_sample R i j < 1)%R.
Proof.
by rewrite /half_sample invr_ge0 ler0n invf_lt1 ?ltr0n // ltr1n.
Qed.

(** X13, witness: one species, [n_max = 1], [l_max = 0], the sample 1/2
    over the rationals. *)
Lemma gen_random_key_range_witness :
  all (all (fun x : rat => 10%:R^-1 <= x < 9%:R / 10%:R)%R)
      [:: [:: (10%:R^-1 + 8%:R / 10%:R * half_sample rat 0 0)%R]].
Proof.
apply: (@gen_random_key_range rat id id 0%R (@half_sample rat)
          (params_of 1 0 1)).
- exact: half_sample_range.
- by [].
Defined.

From Stdlib Require Import DecimalString.

(** ** Cell 2: the SOAP parameters of a dataset *)

HB.instance Definition _ := hasDecEq.Build string String.eqb_spec.
HB.instance Definition _ := hasDecEq.Build Z Z.eqb_spec.

(** [str(z)] of an integer. *)
Definition str_int (z : Z) : string := NilZero.string_of_int (Z.to_int z).

(** [s[:-1]] of a string. *)
Fixpoint drop_last (s : string) : string :=
  match s with
  | EmptyString => EmptyString
  | String c s' =>
      match s' with
      | EmptyString => EmptyString
      | String _ _ => String c (drop_last s')
      end
  end.

(** [params[key] = v] *)
Fixpoint dict_set (d : dict) (key : string) (v : pyval) : dict :=
  match d with
  | [::] => [:: (key, v)]
  | (k, w) :: d' =>
      if String.eqb k key then (k, v) :: d' else (k, w) :: dict_set d' key v
  end.

(** [species.add(x)] on the set [species], held as the list of its
    elements. *)
Definition set_add (species : seq string) (x : string) : seq string :=
  if x \in species then species else rcons species x.

(** The two loops of [dataset_to_params]; a structure of the dataset is
    the list of the symbols of its atoms. *)
Definition species_of (dataset : seq (seq string)) : seq string :=
  foldl (fun species s => foldl set_add species s) [::] dataset.

Section Params.

(** [PT.__dict__[el].number]: the atomic number of the element of symbol
    [el], an exception for anything else. *)
Variable atomic_number : string -> res Z.

(** [str(x)] of a float. *)
Variable str_float : float -> string.

(** [dataset_to_params] once [species] is built; the list [species] gives
    the elements of the set in the order in which Python iterates over
    it. *)
Definition params_of_species (species : seq string) : res dict :=
  let params := [::] in
  Zs <- mapM atomic_number species ;;
  let Zs := sort Z.leb Zs in
  let params := dict_set params "n_Z" (PyInt (Z.of_nat (size species))) in
  let params := dict_set params "n_species" (PyInt (Z.of_nat (size species))) in
  let Zstr := "{"%string in
  let Zstr :=
    foldl (fun Zstr z => (Zstr ++ (str_int z ++ " "))%string) Zstr Zs in
  let Zstr := (drop_last Zstr ++ "}")%string in
  let params := dict_set params "Z" (PyStr Zstr) in
  let params := dict_set params "species_Z" (PyStr Zstr) in
  let params := dict_set params "n_max" (PyInt 6) in
  let params := dict_set params "l_max" (PyInt 3) in
  let params := dict_set params "soap cutoff" (PyInt 5) in
  let params := dict_set params "atom_sigma" (PyFloat 0.4) in
  Ok params.

Definition dataset_to_params (dataset : seq (seq string)) : res dict :=
  params_of_species (species_of dataset).

(** [str(val)] of a value of [params]. *)
Definition py_str (v : pyval) : string :=
  match v with
  | PyInt z => str_int z
  | PyFloat x => str_float x
  | PyStr s => s
  end.

(** [params2quippy_str(params)] *)
Definition params2quippy_str (params : dict) : string :=
  foldl (fun qs kv =>
           (qs ++ (((kv.1 ++ "=") ++ py_str kv.2) ++ " "))%string)
        ""%string params.

End Params.

(** *** The set of species *)

Lemma set_add_uniq (sp : seq string) (x : string) :
  uniq sp -> uniq (set_add sp x).
Proof.
by rewrite /set_add; case: ifP => // Hx Hu; rewrite rcons_uniq Hx.
Qed.

Lemma mem_set_add (sp : seq string) (x : string) :
  set_add sp x =i x :: sp.
Proof.
move=> y; rewrite /set_add; case: ifP => Hx; last by rewrite mem_rcons.
by rewrite inE; case: eqP => // ->; rewrite Hx.
Qed.

Lemma foldl_set_add (sp s : seq string) :
  uniq sp -> uniq (foldl set_add sp s) /\ foldl set_add sp s =i sp ++ s.
Proof.
elim: s sp => [|x s IH] sp Hu /=; first by split=> // y; rewrite cats0.
have [Hu' Hm] := IH _ (set_add_uniq x Hu); split=> // y.
by rewrite Hm !mem_cat mem_set_add !inE orbCA orbA.
Qed.

Lemma species_of_spec (dataset : seq (seq string)) :
  uniq (species_of dataset) /\ species_of dataset =i flatten dataset.
Proof.
rewrite /species_of -[flatten dataset]/([::] ++ flatten dataset).
have : uniq ([::] : seq string) by [].
elim: dataset [::] => [|s ds IH] sp Hu /=; first by rewrite cats0.
have [Hu' Hm] := foldl_set_add s Hu.
have [Hu2 Hm2] := IH _ Hu'; split=> // y.
by rewrite Hm2 !mem_cat Hm mem_cat orbA.
Qed.

(** The number of species is the number of distinct symbols. *)
Lemma size_species_of (dataset : seq (seq string)) :
  size (species_of dataset) = size (undup (flatten dataset)).
Proof.
have [Hu Hm] := species_of_spec dataset.
apply: perm_size; apply: uniq_perm => //; first exact: undup_uniq.
by move=> y; rewrite Hm mem_undup.
Qed.

(** *** Lists of results *)

Lemma mapM_ok (X Y : eqType) (f : X -> res Y) (d : Y) (s : seq X)
      (ys : seq Y) :
  mapM f s = Ok ys ->
  ys = [seq (if f x is Ok y then y else d) | x <- s]
  /\ forall x, x \in s -> exists y, f x = Ok y.
Proof.
elim: s ys => [|x s IH] ys /=; first by case=> <-.
case E : (f x) => [y|e] //=; case E2 : (mapM f s) => [ys'|e] //= [<-].
have [-> Hall] := IH _ E2; split=> // z; rewrite inE => /orP [/eqP ->|/Hall //].
by exists y.
Qed.

Lemma mapM_all (X Y : eqType) (f : X -> res Y) (d : Y) (s : seq X) :
  (forall x, x \in s -> exists y, f x = Ok y) ->
  mapM f s = Ok [seq (if f x is Ok y then y else d) | x <- s].
Proof.
elim: s => [//|x s IH] H /=.
have [y E] := H x (mem_head _ _); rewrite E /= IH //.
by move=> z Hz; apply: H; rewrite inE Hz orbT.
Qed.

Lemma mapM_err (X Y : eqType) (f : X -> res Y) (s : seq X) (e : exn) :
  mapM f s = Err e -> exists2 x, x \in s & f x = Err e.
Proof.
elim: s => [//|x s IH] /=; case E : (f x) => [y|e'] /=.
  case E2 : (mapM f s) => [ys|e''] //= [Ee]; rewrite Ee in E2.
  by have [z Hz Hf] := IH E2; exists z; rewrite ?inE ?Hz ?orbT.
by case=> <-; exists x; rewrite ?mem_head.
Qed.

Lemma Zleb_total : total Z.leb.
Proof. by move=> x y; apply/orP; case: (Z.leb_spec x y); [left|right; apply/Z.leb_le; lia]. Qed.

Lemma Zleb_trans : transitive Z.leb.
Proof. by move=> y x z /Z.leb_le H1 /Z.leb_le H2; apply/Z.leb_le; lia. Qed.

Lemma Zleb_anti : antisymmetric Z.leb.
Proof. by move=> x y /andP [/Z.leb_le H1 /Z.leb_le H2]; lia. Qed.

(** *** Strings *)

Lemma append_assoc (a b c : string) :
  ((a ++ b) ++ c = a ++ (b ++ c))%string.
Proof. by elim: a => [//|x a /= ->]. Qed.

Lemma append_empty (a : string) : (a ++ "")%string = a.
Proof. by elim: a => [//|x a /= ->]. Qed.

Lemma drop_last_append (a r : string) :
  r <> EmptyString -> drop_last (a ++ r) = (a ++ drop_last r)%string.
Proof.
move=> Hr; elim: a => [//|x a /= <-].
by case E : (a ++ r)%string => [|y t] //; case: (a) E Hr => [|? ?] //= ->.
Qed.

(** The list [Zs] between braces, its elements separated by a space;
    on the empty list, what [dataset_to_params] builds. *)
Definition braces (Zs : seq Z) : string :=
  match Zs with
  | [::] => "}"
  | _ :: _ => "{" ++ String.concat " " [seq str_int z | z <- Zs] ++ "}"
  end%string.

Lemma foldl_append (acc : string) (Zs : seq Z) :
  foldl (fun Zstr z => (Zstr ++ (str_int z ++ " "))%string) acc Zs
  = (acc ++ foldr (fun z r => str_int z ++ " " ++ r) "" Zs)%string.
Proof.
elim: Zs acc => [|z Zs IH] acc /=; first by rewrite append_empty.
by rewrite IH !append_assoc.
Qed.

Lemma drop_last_cons (c : Ascii.ascii) (t : string) :
  t <> EmptyString -> drop_last (String c t) = String c (drop_last t).
Proof. by case: t. Qed.

Lemma spaced_nonempty (z : Z) (Zs : seq Z) :
  foldr (fun z r => str_int z ++ " " ++ r)%string ""%string (z :: Zs)
  <> EmptyString.
Proof. by rewrite /=; case: (str_int z). Qed.

Lemma drop_last_spaced (Zs : seq Z) :
  Zs <> [::] ->
  drop_last (foldr (fun z r => str_int z ++ " " ++ r)%string ""%string Zs)
  = String.concat " " [seq str_int z | z <- Zs].
Proof.
elim: Zs => [//|z Zs IH] _.
case: Zs IH => [|z' Zs] IH.
  by rewrite /= drop_last_append //= append_empty.
set R := foldr _ _ (z' :: Zs) in IH *.
have E : foldr (fun z r => str_int z ++ " " ++ r)%string ""%string
               (z :: z' :: Zs)
         = (str_int z ++ (" " ++ R))%string by [].
have HR : R <> EmptyString by exact: spaced_nonempty.
rewrite E drop_last_append // [(" " ++ R)%string]/= drop_last_cons //.
by rewrite IH.
Qed.

Lemma Zstr_braces (Zs : seq Z) :
  (drop_last
     (foldl (fun Zstr z => (Zstr ++ (str_int z ++ " "))%string) "{" Zs) ++ "}")%string
  = braces Zs.
Proof.
case: Zs => [//|z Zs]; rewrite foldl_append.
rewrite (drop_last_append _ (@spaced_nonempty z Zs)).
by rewrite drop_last_spaced // /braces append_assoc.
Qed.

(** *** What [dataset_to_params] returns *)

Section ParamsTheory.

Variable atomic_number : string -> res Z.

(** The atomic number of a symbol that has one. *)
Definition number_of (el : string) : Z :=
  if atomic_number el is Ok z then z else 0%Z.

(** The dictionary built for [S] species whose atomic numbers, sorted,
    are [Zs]. *)
Definition params_for (S : nat) (Zs : seq Z) : dict :=
  [:: ("n_Z", PyInt (Z.of_nat S)); ("n_species", PyInt (Z.of_nat S));
      ("Z", PyStr (braces Zs)); ("species_Z", PyStr (braces Zs));
      ("n_max", PyInt 6); ("l_max", PyInt 3); ("soap cutoff", PyInt 5);
      ("atom_sigma", PyFloat 0.4)]%string.

Lemma params_of_species_ok (sp : seq string) (Zs : seq Z) :
  mapM atomic_number sp = Ok Zs ->
  params_of_species atomic_number sp
  = Ok (params_for (size sp) (sort Z.leb Zs)).
Proof. by rewrite /params_of_species => -> /=; rewrite Zstr_braces. Qed.

Lemma params_of_species_perm (sp sp' : seq string) :
  perm_eq sp sp' ->
  (forall el, el \in sp -> exists z, atomic_number el = Ok z) ->
  params_of_species atomic_number sp'
  = Ok (params_for (size sp) (sort Z.leb [seq number_of el | el <- sp])).
Proof.
move=> Hp Hall.
have Hall' : forall el, el \in sp' -> exists z, atomic_number el = Ok z.
  by move=> el; rewrite -(perm_mem Hp); exact: Hall.
rewrite (params_of_species_ok (mapM_all 0%Z Hall')) (perm_size Hp).
congr (Ok (params_for _ _)).
apply/(perm_sortP Zleb_total Zleb_trans Zleb_anti).
by rewrite perm_sym; exact: perm_map.
Qed.

(** The species the loops collect are the distinct symbols, and when all
    have an atomic number the dictionary is the one of their numbers. *)
Lemma species_perm (dataset : seq (seq string)) :
  perm_eq (undup (flatten dataset)) (species_of dataset).
Proof.
have [Hu Hm] := species_of_spec dataset.
apply: uniq_perm => //; first exact: undup_uniq.
by move=> y; rewrite Hm mem_undup.
Qed.

Lemma dataset_params (dataset : seq (seq string)) :
  (forall el, el \in flatten dataset -> exists z, atomic_number el = Ok z) ->
  params_of_species atomic_number (species_of dataset)
  = Ok (params_for (size (undup (flatten dataset)))
          (sort Z.leb [seq number_of el | el <- undup (flatten dataset)])).
Proof.
move=> Hall; apply: params_of_species_perm (species_perm dataset) _.
by move=> el; rewrite mem_undup; exact: Hall.
Qed.

End ParamsTheory.

(** X14: when every symbol of the dataset has an atomic number,
    [dataset_to_params] returns the eight entries n_Z, n_species, Z,
    species_Z, n_max, l_max, soap cutoff and atom_sigma, in this order:
    n_Z and n_species hold the number of distinct symbols, Z and species_Z
    the atomic numbers of the distinct symbols in increasing order,
    separated by spaces between braces (and the lone closing brace for a
    dataset without atoms), n_max is 6 and l_max is 3. *)
Theorem dataset_to_params_dict (atomic_number : string -> res Z)
        (dataset : seq (seq string)) :
  (forall el, el \in flatten dataset -> exists z, atomic_number el = Ok z) ->
  dataset_to_params atomic_number dataset
  = Ok (params_for (size (undup (flatten dataset)))
          (sort Z.leb [seq number_of atomic_number el
                      | el <- undup (flatten dataset)])).
Proof.
move=> Hall; have [Hu Hm] := species_of_spec dataset.
apply: params_of_species_perm.
  apply: uniq_perm => //; first exact: undup_uniq.
  by move=> y; rewrite Hm mem_undup.
by move=> el; rewrite mem_undup; exact: Hall.
Qed.

(** The atomic numbers of the symbols of the dataset of the notebook that
    the runs below use. *)
Definition atomic_number_LiO (el : string) : res Z :=
  if String.eqb el "Li" then Ok 3%Z
  else if String.eqb el "O" then Ok 8%Z
  else Err (KeyError el).

(** X14, witness: two structures of lithium and oxygen. *)
Lemma dataset_to_params_dict_witness :
  dataset_to_params atomic_number_LiO
    [:: [:: "O"; "Li"; "O"]; [:: "Li"]]%string
  = Ok (params_for
          (size (undup (flatten [:: [:: "O"; "Li"; "O"]; [:: "Li"]]%string)))
          (sort Z.leb [seq number_of atomic_number_LiO el
                      | el <- undup (flatten
                                 [:: [:: "O"; "Li"; "O"]; [:: "Li"]]%string)])).
Proof.
apply: (@dataset_to_params_dict atomic_number_LiO
          [:: [:: "O"; "Li"; "O"]; [:: "Li"]]%string).
move=> el; rewrite !inE.
by case/or4P => /eqP ->; eexists.
Defined.

(** X15: the order in which Python iterates over the set [species] does
    not matter: when [dataset_to_params] returns for one order of the
    species, it returns the same dictionary for every other order. *)
Theorem species_order_irrelevant (atomic_number : string -> res Z)
        (sp sp' : seq string) (p : dict) :
  perm_eq sp sp' ->
  params_of_species atomic_number sp = Ok p ->
  params_of_species atomic_number sp' = Ok p.
Proof.
move=> Hp Hsp.
case E : (mapM atomic_number sp) Hsp => [Zs|e]; last first.
  by rewrite /params_of_species E.
rewrite (params_of_species_ok E) => -[<-].
have [EZs Hall] := mapM_ok 0%Z E.
by rewrite (params_of_species_perm Hp Hall) EZs.
Qed.

(** X15, witness: oxygen and lithium in the two orders. *)
Lemma species_order_irrelevant_witness :
  params_of_species atomic_number_LiO [:: "Li"; "O"]%string
  = Ok (params_for 2 [:: 3%Z; 8%Z]).
Proof.
apply: (@species_order_irrelevant atomic_number_LiO
          [:: "O"; "Li"]%string [:: "Li"; "O"]%string).
- by [].
- by [].
Defined.

(** X16: [dataset_to_params] returns exactly when every symbol of the
    dataset has an atomic number; the exception it raises otherwise is
    the one the lookup of the atomic number of a symbol of the dataset
    raises. *)
Theorem dataset_to_params_returns (atomic_number : string -> res Z)
        (dataset : seq (seq string)) :
  ((exists p, dataset_to_params atomic_number dataset = Ok p)
   <-> (forall el, el \in flatten dataset ->
          exists z, atomic_number el = Ok z))
  /\ (forall e, dataset_to_params atomic_number dataset = Err e ->
        exists2 el, el \in flatten dataset & atomic_number el = Err e).
Proof.
have [Hu Hm] := species_of_spec dataset.
split; [split|].
- case=> p; rewrite /dataset_to_params /params_of_species.
  case E : (mapM _ _) => [Zs|e] //= _ el; rewrite -Hm.
  by have [_] := mapM_ok 0%Z E; apply.
- by move=> Hall; eexists; exact: dataset_params.
- move=> e; rewrite /dataset_to_params /params_of_species.
  case E : (mapM _ _) => [Zs|e'] //= [Ee]; rewrite Ee in E.
  by have [el Hel Hf] := mapM_err E; exists el; rewrite -?Hm.
Qed.

(** *** The key and the assertions of the driver cell for a dataset *)

Lemma params_for_rounds (S : nat) (Zs : seq Z) :
  [/\ round_param (params_for S Zs) "n_max" = Ok (Z.of_nat 6),
      round_param (params_for S Zs) "l_max" = Ok (Z.of_nat 3)
    & round_param (params_for S Zs) "n_Z" = Ok (Z.of_nat S)].
Proof. by []. Qed.

(** X17: for a dataset of [S] distinct symbols, all with an atomic
    number, the driver cell reads [N = 6], [L = 3] and [S] back from the
    dictionary of [dataset_to_params], and the key [gen_random_key] draws
    from it has [6*S] rows and [min(6*S, 7)] columns. *)
Theorem dataset_key_shape (F : Type) (A : arith F)
        (atomic_number : string -> res Z) (sample : nat -> nat -> F)
        (dataset : seq (seq string)) :
  (forall el, el \in flatten dataset -> exists z, atomic_number el = Ok z) ->
  let S := size (undup (flatten dataset)) in
  exists p RK,
    [/\ dataset_to_params atomic_number dataset = Ok p,
        [/\ round_param p "n_max" = Ok 6%Z, round_param p "l_max" = Ok 3%Z
          & round_param p "n_Z" = Ok (Z.of_nat S)],
        gen_random_key A sample p = Ok RK
      & wf (6 * S) (minn (6 * S) 7) RK].
Proof.
move=> Hall S; rewrite /dataset_to_params (dataset_params Hall) -/S.
set Zs := sort _ _.
have [Hn Hl Hs] := params_for_rounds S Zs.
have [RK HRK Hshape] := gen_random_key_shape A sample 6 3 S.
exists (params_for S Zs), RK; split=> //.
Qed.

(** X17, witness: two structures of lithium and oxygen. *)
Lemma dataset_key_shape_witness :
  let S := size (undup (flatten [:: [:: "O"; "Li"; "O"]; [:: "Li"]]%string)) in
  exists p RK,
    [/\ dataset_to_params atomic_number_LiO
          [:: [:: "O"; "Li"; "O"]; [:: "Li"]]%string = Ok p,
        [/\ round_param p "n_max" = Ok 6%Z, round_param p "l_max" = Ok 3%Z
          & round_param p "n_Z" = Ok (Z.of_nat S)],
        gen_random_key F64.float64 (fun _ _ => 0.5%float) p = Ok RK
      & wf (6 * S) (minn (6 * S) 7) RK].
Proof.
apply: (@dataset_key_shape _ F64.float64 atomic_number_LiO
          (fun _ _ => 0.5%float) [:: [:: "O"; "Li"; "O"]; [:: "Li"]]%string).
move=> el; rewrite !inE.
by case/or4P => /eqP ->; eexists.
Defined.

(** X18: for a dataset of [S] distinct symbols, the compressed slices of
    four slices of size [6*S] x [6*S] hold the [6*S*(3+1)**2] numbers the
    driver cell asserts of [n_short] unless [S = 1]: on a dataset of one
    species the key has 6 columns where the last slice needs 7, and the
    assertion fails. *)
Theorem one_species_assertion (F : Type) (A : arith F)
        (atomic_number : string -> res Z) (sample : nat -> nat -> F)
        (dataset : seq (seq string)) (full_slices : seq (matrix F)) :
  (forall el, el \in flatten dataset -> exists z, atomic_number el = Ok z) ->
  let S := size (undup (flatten dataset)) in
  size full_slices = 3 + 1 ->
  (forall l, l < 3 + 1 -> wf (6 * S) (6 * S) (nth [::] full_slices l)) ->
  exists p RK cs,
    [/\ dataset_to_params atomic_number dataset = Ok p,
        gen_random_key A sample p = Ok RK,
        comp_slices A full_slices RK = Ok cs
      & (n_short cs == 6 * S * (3 + 1) ^ 2) = (S != 1)].
Proof.
move=> Hall S Hsz Hwf; rewrite /dataset_to_params (dataset_params Hall) -/S.
set Zs := sort _ _.
have [Hn Hl Hs] := params_for_rounds S Zs.
have [RK HRK Hshape] := gen_random_key_shape A sample 6 3 S.
have [cs Hcs Hns] := n_short_key A Hshape Hsz Hwf.
exists (params_for S Zs), RK, cs; split=> //.
rewrite Hns sumn_min_eq; case: (S) => [|[|k]] //.
have H : 2 * 3 + 1 <= 6 * k.+2 by natarith.
by rewrite H orbT.
Qed.

(** X18, witness: a structure of lithium and four zero slices. *)
Lemma one_species_assertion_witness :
  let S := size (undup (flatten [:: [:: "Li"; "Li"]]%string)) in
  exists p RK cs,
    [/\ dataset_to_params atomic_number_LiO [:: [:: "Li"; "Li"]]%string = Ok p,
        gen_random_key F64.float64 (fun _ _ => 0.5%float) p = Ok RK,
        comp_slices F64.float64 (zeros3 F64.float64 4 6 6) RK = Ok cs
      & (n_short cs == 6 * S * (3 + 1) ^ 2) = (S != 1)].
Proof.
apply: (@one_species_assertion _ F64.float64 atomic_number_LiO
          (fun _ _ => 0.5%float) [:: [:: "Li"; "Li"]]%string
          (zeros3 F64.float64 4 6 6)).
- by move=> el; rewrite !inE => /orP [] /eqP ->; eexists.
- by [].
- by move=> [|[|[|[|l]]]].
Defined.

(** *** The string handed to quippy *)

(** X19: for a dataset of [S] distinct symbols, all with an atomic
    number, [params2quippy_str] turns the dictionary of
    [dataset_to_params] into the eight [key=value] pairs in the order of
    insertion, each followed by a space, the last one included; the key
    of the cutoff is written with its space. *)
Theorem quippy_str_of_dataset (atomic_number : string -> res Z)
        (str_float : float -> string) (dataset : seq (seq string)) :
  (forall el, el \in flatten dataset -> exists z, atomic_number el = Ok z) ->
  let S := str_int (Z.of_nat (size (undup (flatten dataset)))) in
  let Zstr := braces (sort Z.leb [seq number_of atomic_number el
                                 | el <- undup (flatten dataset)]) in
  exists2 p, dataset_to_params atomic_number dataset = Ok p
    & params2quippy_str str_float p
      = ("n_Z=" ++ S ++ " n_species=" ++ S ++ " Z=" ++ Zstr
         ++ " species_Z=" ++ Zstr
         ++ " n_max=6 l_max=3 soap cutoff=5 atom_sigma="
         ++ str_float 0.4%float ++ " ")%string.
Proof.
move=> Hall S Zstr; rewrite /dataset_to_params (dataset_params Hall).
eexists; first by [].
rewrite /params2quippy_str /params_for /= -/S -/Zstr.
by repeat (progress (rewrite ?append_assoc /=)).
Qed.

(** X19, witness: two structures of lithium and oxygen. *)
Lemma quippy_str_of_dataset_witness :
  let S := str_int (Z.of_nat (size (undup (flatten
             [:: [:: "O"; "Li"; "O"]; [:: "Li"]]%string)))) in
  let Zstr := braces (sort Z.leb [seq number_of atomic_number_LiO el
                | el <- undup (flatten
                          [:: [:: "O"; "Li"; "O"]; [:: "Li"]]%string)]) in
  exists2 p, dataset_to_params atomic_number_LiO
               [:: [:: "O"; "Li"; "O"]; [:: "Li"]]%string = Ok p
    & params2quippy_str (fun _ => "0.4"%string) p
      = ("n_Z=" ++ S ++ " n_species=" ++ S ++ " Z=" ++ Zstr
         ++ " species_Z=" ++ Zstr
         ++ " n_max=6 l_max=3 soap cutoff=5 atom_sigma="
         ++ "0.4" ++ " ")%string.
Proof.
apply: (@quippy_str_of_dataset atomic_number_LiO (fun _ => "0.4"%string)
          [:: [:: "O"; "Li"; "O"]; [:: "Li"]]%string).
move=> el; rewrite !inE.
by case/or4P => /eqP ->; eexists.
Defined.

(** ** The zero branch of [uncompress_slice] *)

Lemma get_IR_none (F : Type) (matrix_rank : matrix F -> res nat)
      (M : matrix F) (m0 : nat) :
  (forall i, i < size M -> matrix_rank [:: nth [::] M i] = Ok 0) ->
  foldM (get_IR_step matrix_rank) ([::], [::], 0) (zip (iota m0 (size M)) M)
  = Ok ([::], [::], 0).
Proof.
elim: M m0 => [//|row M IH] m0 H /=.
by rewrite (H 0) //=; apply: IH => i Hi; exact: (H i.+1).
Qed.

(** X20: when [np.linalg.matrix_rank] gives 0 on every row of the
    compressed slice taken alone, [get_IR] keeps no row and
    [uncompress_slice] returns the zero matrix of the size of the key's
    rows if the rank of the whole slice is 0, and raises [AssertionError]
    otherwise; neither the shape of the slice nor [np.linalg.eigh] is
    looked at. *)
Theorem uncompress_slice_zero_branch (F : Type) (A : arith F)
        (matrix_rank : matrix F -> res nat)
        (eigh : matrix F -> res (vector F * matrix F))
        (WtP RK : matrix F) (l : nat) :
  (forall i, i < size WtP -> matrix_rank [:: nth [::] WtP i] = Ok 0) ->
  uncompress_slice A matrix_rank eigh WtP l RK
  = (r <- matrix_rank WtP ;;
     if r == 0 then Ok (zeros A (size RK) (size RK))
     else Err AssertionError).
Proof.
move=> H; rewrite /uncompress_slice /get_IR (get_IR_none 0 H) /=.
case: (matrix_rank WtP) => [r|e] //=.
by case: (r == 0) => //=; rewrite /nrows /take_cols size_map.
Qed.

(** X20, witness: binary64, a zero slice of three columns under a key of
    two rows. *)
Lemma uncompress_slice_zero_branch_witness :
  uncompress_slice F64.float64 matrix_rank_row eigh_fails
    [:: [:: 0; 0; 0]]%float 0 key_2x1
  = (r <- matrix_rank_row [:: [:: 0; 0; 0]]%float ;;
     if r == 0 then Ok (zeros F64.float64 (size key_2x1) (size key_2x1))
     else Err AssertionError).
Proof.
apply: (@uncompress_slice_zero_branch _ F64.float64 matrix_rank_row
          eigh_fails [:: [:: 0; 0; 0]]%float key_2x1 0).
by move=> [|i].
Defined.

(** ** The rank of the matrix [uncompress_slice] returns *)

Section RankBound.

Local Open Scope ring_scope.

Variable R : realFieldType.
Variables (rsqrt pnh : R -> R) (c0 : R).
Let A := exact_arith rsqrt pnh c0.
Variable eigh : matrix R -> res (vector R * matrix R).

Lemma wf_transpose_any (M : matrix R) :
  wf (ncols M) (size M) (transpose A M).
Proof.
apply: wf_intro; first by rewrite size_mkseq.
by move=> j Hj; rewrite nth_mkseq // size_map.
Qed.

(** X21: in exact arithmetic with the exact rank, whatever
    [np.linalg.eigh] returns, the rank of a matrix that [uncompress_slice]
    returns is at most the rank of the compressed slice: a slice whose
    rank the key has lowered is never returned. *)
Theorem uncompress_slice_rank (k n l : nat) (WtP RK P : matrix R) :
  (0 < k)%nat -> (0 < n)%nat -> wf k n WtP ->
  uncompress_slice A (@exact_rank R) eigh WtP l RK = Ok P ->
  (\rank (mx_of n n P) <= \rank (mx_of k n WtP))%nat
  /\ forall P0, (\rank (mx_of k n WtP) < \rank (mx_of n n P0))%nat ->
       P <> P0.
Proof.
move=> Hk Hn HWtP Hun.
suff Hle : (\rank (mx_of n n P) <= \rank (mx_of k n WtP))%nat.
  by split=> // P0 Hlt E; move: Hlt; rewrite -E ltnNge Hle.
move: Hun; rewrite /uncompress_slice.
case/wfP: (HWtP) => SWtP RWtP; case/andP: (HWtP) => _ rowsWtP.
have [T [inds [-> [HT Hall Hrk Hsp]]]] := get_IR_exact Hn rowsWtP.
rewrite SWtP take_oversize ?SWtP // in Hall Hsp.
rewrite [bind _ _]/=; case: eqP => Hinds.
  rewrite /exact_rank /=; case: (_ == 0%nat) => //= -[<-].
  have -> : mx_of n n (zeros A (nrows (take_cols (2 * l + 1) RK))
                              (nrows (take_cols (2 * l + 1) RK))) = 0.
    apply/matrixP => i j; rewrite !mxE /zeros.
    by rewrite nth_nseq; case: ifP => _; rewrite ?nth_nseq ?nth_nil ?if_same.
  by rewrite mxrank0.
have Hr : (0 < size inds)%nat by rewrite lt0n; apply/eqP.
have wfT : wf (size inds) n T.
  apply: wf_intro; first by rewrite HT size_map.
  move=> a Ha; rewrite HT (nth_map 0%nat) // RWtP //.
  by move/(all_nthP 0%nat): Hall; apply.
rewrite /reconstruct.
case: (dot A WtP _) => [C0|e] //=; case: (select_rows _ _) => [C1|e] //=.
case: (select_cols _ _) => [C|e] //=; case: (eigh C) => [[vals Ut]|e] //=.
case: (dot A (diag A vals) _) => [LU|e] //=.
case: (dot A _ LU) => [R0|e] //=; case: (allclose A R0 C) => [[]|e] //=.
case Ecl : (clamp_roots A vals) => [roots|e] //=.
case EUT : (dot A _ T) => [UT|e] //=.
case EX : (dot A _ UT) => [X|e] //=.
have Hr' := clamp_roots_size Ecl.
have [HUT1 HUT2 HUT3] := dot_rows EUT.
have [HX1 HX2 HX3] := dot_rows EX.
have [wfD ED] := mx_diag_size rsqrt pnh c0 (erefl (size roots)).
have HncD : ncols (diag A roots) = size roots by exact: (ncols_wf wfD Hr').
have SUT : size UT = size roots by rewrite -[LHS]/(nrows UT) -HX1 HncD.
have SU : size (transpose A Ut) = size roots by rewrite -HUT2.
have HncT : ncols T = n by exact: (ncols_wf wfT Hr).
have wfU : wf (size roots) (size inds) (transpose A Ut).
  have SU' : ncols Ut = size roots by rewrite -SU /transpose size_mkseq.
  have HU := wf_transpose_any Ut; rewrite SU' in HU.
  have E := ncols_wf HU Hr'; rewrite HUT1 /nrows in E.
  by case/wfP: wfT => ST _; rewrite -E ST in HU.
have [UT' [EUT' wfUT EUTm]] := mx_dot rsqrt pnh c0 wfU wfT Hr' Hr.
move: EUT' wfUT EUTm; rewrite -/A EUT => -[<-] wfUT EUTm.
have [X' [EX' wfX EXm]] := mx_dot rsqrt pnh c0 wfD wfUT Hr' Hr'.
move: EX' wfX EXm; rewrite -/A EX => -[<-] wfX EXm.
have [wfXt EXt] := mx_transpose rsqrt pnh c0 wfX Hr'.
have [P' [EP' wfP' EPm]] := mx_dot rsqrt pnh c0 wfXt wfX Hn Hr'.
rewrite -/A in EP'; rewrite EP' [bind _ _]/=.
case: (verify A _ P' WtP) => [[]|e] //= -[<-].
rewrite EPm -Hsp.1 Hrk.
apply: leq_trans (mxrankM_maxr _ _) _.
rewrite EXm; apply: leq_trans (mxrankM_maxr _ _) _.
rewrite EUTm; apply: leq_trans (mxrankM_maxr _ _) _.
exact: rank_leq_row.
Qed.

End RankBound.

(** A run of the eigen route in exact arithmetic, with [x ** -0.5] read as
    the identity, which it is at 1. *)
Section RankRun.

Local Open Scope ring_scope.

Variable R : realFieldType.
Variables (rsqrt : R -> R) (c0 : R).
Let A := exact_arith rsqrt id c0.

Lemma run_uncompress :
  uncompress_slice A (@exact_rank R) (@eigh_1x1_exact R) (row_ones R) 0
                   (key_e1 R)
  = Ok (ones_2x2 R).
Proof.
rewrite /uncompress_slice /get_IR /= /exact_rank /= run_rank_compressed //=.
rewrite /reconstruct /dot /= /dotp /=.
have Ea : 0 + 1 * 1 + 1 * 0 = 1 :> R by rewrite mul1r mulr0 add0r addr0.
rewrite Ea !mul1r !add0r (isclose_refl rsqrt id c0) /=.
rewrite /clamp_roots /=.
have H01 : (0 < (1 : R)) = true by exact: ltr01.
rewrite !H01 /= /ncols /mkseq /= !mul1r !add0r !mulr1 /=.
rewrite /verify /dot /= /dotp /= !mul1r !mul0r !add0r !addr0.
by rewrite !(isclose_refl rsqrt id c0).
Qed.

End RankRun.

(** X21, witness: the compressed slice (1, 1) under the key (1, 0)^T, over
    the rationals. *)
Lemma uncompress_slice_rank_witness :
  (\rank (mx_of 2 2 (ones_2x2 rat)) <= \rank (mx_of 1 2 (row_ones rat)))%nat
  /\ forall P0,
       (\rank (mx_of 1 2 (row_ones rat)) < \rank (mx_of 2 2 P0))%nat ->
       ones_2x2 rat <> P0.
Proof.
apply: (@uncompress_slice_rank rat id id 0%R (@eigh_1x1_exact rat) 1 2 0
          (row_ones rat) (key_e1 rat) (ones_2x2 rat)).
- by [].
- by [].
- by [].
- exact: run_uncompress.
Defined.

(** ** The driver cell, from the power spectrum to the assertion on [n_short] *)

(** The body of the loop of the driver cell for one structure, from the
    power spectrum [ps] that quippy returns to the third assertion: the
    length of [ps] is asserted, [ps] is split into l-slices, their norm is
    asserted, each slice is compressed and the total length of the
    compressed slices is asserted. *)
Definition driver_compress (ps : vector float) (N L S : nat)
           (RK : matrix float) : res (seq (matrix float) * nat) :=
  _ <- assert (size ps == ps_len N L S) ;;
  full_slices <- ps2slices F64.float64 ps (N * S) L ;;
  let ps2 := flatten (flatten full_slices) in
  _ <- assert (abs (norm F64.float64 ps2 - 1) <? 1e-6)%float ;;
  cs <- comp_slices F64.float64 full_slices RK ;;
  let n := n_short cs in
  _ <- assert (n == N * S * (L + 1) ^ 2) ;;
  Ok (cs, n).

(** C7 (the defect): on a power spectrum of the asserted length
    [N*S*(N*S+1)*(L+1)/2], under the key that [gen_random_key] draws, the
    compressed slices hold [N*S * min(2l+1, N*S)] numbers each.  Once the
    assertion on the norm has passed, the assertion
    [n_short == N*S*(L+1)**2] of the driver cell holds when [2L+1 <= N*S]
    (or [N*S = 0]) and raises [AssertionError] when [0 < N*S < 2L+1]: the
    key has [N*S] columns only and the compressed vector is shorter than
    asserted.  For [N*S > 2L+1] the compressed vector is strictly shorter
    than the power spectrum. *)
Theorem driver_n_short_assertion (sample : nat -> nat -> float)
        (N L S : nat) (ps : vector float) :
  size ps = ps_len N L S ->
  exists fs RK cs,
    [/\ ps2slices F64.float64 ps (N * S) L = Ok fs,
        gen_random_key F64.float64 sample (params_of N L S) = Ok RK,
        comp_slices F64.float64 fs RK = Ok cs,
        n_short cs
        = sumn [seq N * S * minn (2 * l + 1) (N * S) | l <- iota 0 (L + 1)]
      & driver_compress ps N L S RK
        = (_ <- assert (abs (norm F64.float64 (flatten (flatten fs)) - 1)
                        <? 1e-6)%float ;;
           if (N * S == 0) || (2 * L + 1 <= N * S)
           then Ok (cs, N * S * (L + 1) ^ 2)
           else Err AssertionError)]
    /\ (0 < N * S < 2 * L + 1 -> n_short cs < N * S * (L + 1) ^ 2)
    /\ (2 * L + 1 < N * S -> n_short cs < size ps).
Proof.
move=> Hsz.
have [|fs [Hfs _ Hsize Hwf]] := @ps2slices_long _ F64.float64 ps (N * S) L.
  by rewrite Hsz /ps_len.
have [RK HRK Hshape] := gen_random_key_shape F64.float64 sample N L S.
have Hwf' l : l < L + 1 -> wf (N * S) (N * S) (nth [::] fs l).
  by move=> /Hwf [].
have [cs Hcs Hn] := n_short_key F64.float64 Hshape Hsize Hwf'.
have Heq := sumn_min_eq (N * S) L.
exists fs, RK, cs; split; first split=> //.
- rewrite /driver_compress Hsz eqxx [bind (assert true) _]/= Hfs.
  rewrite [bind (Ok fs) _]/=.
  case: (assert _) => [u|e] //; rewrite [bind (Ok u) _]/= Hcs [bind (Ok cs) _]/=.
  rewrite Hn; move: Heq; case: (orb _ _) => [/eqP -> | ->] //=.
  by rewrite eqxx.
split.
- case/andP => H0 H1; rewrite Hn; apply: sumn_min_lt => //.
  by move: H1; natarith.
- move=> H; have H2 : 2 * (L + 1) <= N * S + 1 by move: H; natarith.
  by rewrite Hn Hsz /ps_len (sumn_odds _ H2); exact: compression_gain.
Qed.

(** C7, witness: [N = S = 1] and [L = 1], the power spectrum (0.6, 0.8) of
    norm 1.  The key has one column and each of the two compressed slices
    one number: [n_short] is 2 where 4 is asserted. *)
Lemma driver_n_short_assertion_witness :
  exists fs RK cs,
    [/\ ps2slices F64.float64 [:: 0.6%float; 0.8%float] (1 * 1) 1 = Ok fs,
        gen_random_key F64.float64 (fun _ _ => 0.5%float) (params_of 1 1 1)
        = Ok RK,
        comp_slices F64.float64 fs RK = Ok cs,
        n_short cs
        = sumn [seq 1 * 1 * minn (2 * l + 1) (1 * 1) | l <- iota 0 (1 + 1)]
      & driver_compress [:: 0.6%float; 0.8%float] 1 1 1 RK
        = (_ <- assert (abs (norm F64.float64 (flatten (flatten fs)) - 1)
                        <? 1e-6)%float ;;
           if (1 * 1 == 0) || (2 * 1 + 1 <= 1 * 1)
           then Ok (cs, 1 * 1 * (1 + 1) ^ 2)
           else Err AssertionError)]
    /\ (0 < 1 * 1 < 2 * 1 + 1 -> n_short cs < 1 * 1 * (1 + 1) ^ 2)
    /\ (2 * 1 + 1 < 1 * 1 -> n_short cs < size [:: 0.6%float; 0.8%float]).
Proof.
by apply: (@driver_n_short_assertion (fun _ _ => 0.5%float) 1 1 1
             [:: 0.6%float; 0.8%float]).
Defined.

(** C7, the failing run: with [N = S = 1] and [L = 1] the power spectrum
    (0.6, 0.8) passes the assertions on its length and on its norm, the
    two compressed slices hold 2 numbers in all, and the driver cell stops
    at [assert n_short == N*S*(L+1)**2], which asks for 4. *)
Lemma driver_one_column :
  exists fs RK cs,
    [/\ gen_random_key F64.float64 (fun _ _ => 0.5%float) (params_of 1 1 1)
        = Ok RK,
        ps2slices F64.float64 [:: 0.6%float; 0.8%float] (1 * 1) 1 = Ok fs
        /\ (abs (norm F64.float64 (flatten (flatten fs)) - 1) <? 1e-6)%float,
        comp_slices F64.float64 fs RK = Ok cs,
        n_short cs = 2 /\ 1 * 1 * (1 + 1) ^ 2 = 4
      & driver_compress [:: 0.6%float; 0.8%float] 1 1 1 RK
        = Err AssertionError].
Proof.
exists [:: [:: [:: 0.6%float]]; [:: [:: 0.8%float]]], [:: [:: 0.5%float]].
eexists; split; first by vm_compute.
- by split; vm_compute.
- by vm_compute; reflexivity.
- by split; vm_compute.
- by vm_compute.
Qed.

(** ** [ps2slices] followed by the inverse packing *)

(** Modelled from the spec: the inverse packing of section 8, which the
    notebook does not define, with the inverse of the scaling read as the
    division by [2 ** -0.5].  It flattens the triangle [n2 <= n1] of the
    l-slices in the order [ps2slices] reads it, [L+1] values per pair: a
    diagonal entry as it is, an off-diagonal one divided by [2 ** -0.5]. *)
Definition repack (F : Type) (A : arith F) (l_slices : seq (matrix F))
           (NS L : nat) : vector F :=
  flatten (mkseq (fun n1 =>
    flatten (mkseq (fun n2 =>
      mkseq (fun l =>
        let p := nth (f0 A) (nth [::] (nth [::] l_slices l) n1) n2 in
        if n1 == n2 then p else fdiv A p (two_pow_neg_half A))
      (L + 1)) (n1 + 1))) NS).

Section FlattenBlocks.

Variable T : Type.
Variables (off len : nat -> nat) (g : nat -> seq T).
Hypothesis off0 : off 0 = 0.
Hypothesis offS : forall i, off i.+1 = off i + len i.

Lemma off_le (i n : nat) : i <= n -> off i <= off n.
Proof.
elim: n => [|n IH]; first by rewrite leqn0 => /eqP ->.
rewrite leq_eqVlt => /orP [/eqP -> //|]; rewrite ltnS => /IH H.
by rewrite offS; apply: leq_trans H (leq_addr _ _).
Qed.

Lemma size_flatten_blocks (n : nat) :
  (forall i, i < n -> size (g i) = len i) ->
  size (flatten (mkseq g n)) = off n.
Proof.
elim: n => [|n IH] Hg; first by rewrite off0.
rewrite mkseqS flatten_rcons size_cat IH ?offS ?Hg // => i Hi.
by apply: Hg; apply: ltnW.
Qed.

(** The element [j] of the block [i] of a concatenation of blocks. *)
Lemma nth_flatten_blocks (d : T) (n i j : nat) :
  (forall i, i < n -> size (g i) = len i) ->
  i < n -> j < len i ->
  nth d (flatten (mkseq g n)) (off i + j) = nth d (g i) j.
Proof.
elim: n => [//|n IH] Hg; rewrite ltnS leq_eqVlt => Hi Hj.
have Hg' k : k < n -> size (g k) = len k by move=> Hk; apply: Hg; apply: ltnW.
rewrite mkseqS flatten_rcons nth_cat (size_flatten_blocks Hg').
case/orP: Hi => [/eqP E|Hi].
  by rewrite E ltnNge leq_addr /= addKn.
have H : off i + j < off n.
  apply: leq_trans (off_le Hi); rewrite offS; move: Hj.
  by rewrite -(ltn_add2l (off i)).
by rewrite H; exact: IH.
Qed.

End FlattenBlocks.

Section Repacking.

Variable F : Type.
Variable A : arith F.

Lemma repack_pack (ls : seq (matrix F)) (NS L : nat) :
  repack A ls NS L
  = pack A (fun p => fdiv A p (two_pow_neg_half A)) ls NS L.
Proof. by []. Qed.

(** The triangle of an [(L+1, NS, NS)] array, flattened: its length and
    its elements. *)
Lemma flatten_triangle (G : nat -> nat -> nat -> F) (NS L : nat) :
  let v := flatten (mkseq (fun n1 =>
             flatten (mkseq (fun n2 => mkseq (fun l => G n1 n2 l) (L + 1))
                            (n1 + 1))) NS) in
  size v = (L + 1) * tri NS
  /\ forall n1 n2 l, n1 < NS -> n2 <= n1 -> l < L + 1 ->
       nth (f0 A) v ((L + 1) * (tri n1 + n2) + l) = G n1 n2 l.
Proof.
have H0 : (L + 1) * tri 0 = 0 by rewrite /tri mul0n /= muln0.
have HS i : (L + 1) * tri i.+1 = (L + 1) * tri i + (L + 1) * (i + 1).
  by rewrite tri_S [i + 1]addn1 mulnDr.
have K0 : (L + 1) * 0 = 0 by rewrite muln0.
have KS i : (L + 1) * i.+1 = (L + 1) * i + (L + 1) by rewrite mulnS addnC.
have Hin n1 k : k < n1 + 1 ->
    size (mkseq (fun l => G n1 k l) (L + 1)) = L + 1.
  by rewrite size_mkseq.
have Hout n1 : n1 < NS ->
    size (flatten (mkseq (fun n2 => mkseq (fun l => G n1 n2 l) (L + 1))
                         (n1 + 1))) = (L + 1) * (n1 + 1).
  move=> _.
  by rewrite (@size_flatten_blocks _ (fun i => (L + 1) * i) (fun=> L + 1) _
                K0 KS _ (Hin n1)).
move=> v; split.
  by rewrite /v (@size_flatten_blocks _ (fun i => (L + 1) * tri i)
                   (fun i => (L + 1) * (i + 1)) _ H0 HS _ Hout).
move=> n1 n2 l H1 H2 Hl.
have Hn2 : n2 < n1 + 1 by rewrite addn1 ltnS.
have Hj : (L + 1) * n2 + l < (L + 1) * (n1 + 1).
  apply: (@leq_trans ((L + 1) * n2.+1)); first by rewrite mulnSr ltn_add2l.
  by rewrite leq_mul2l [n1 + 1]addn1 ltnS H2 orbT.
rewrite mulnDr -addnA /v.
rewrite (@nth_flatten_blocks _ (fun i => (L + 1) * tri i)
           (fun i => (L + 1) * (i + 1)) _ H0 HS (f0 A) _ _ _ Hout H1 Hj).
rewrite (@nth_flatten_blocks _ (fun i => (L + 1) * i) (fun=> L + 1) _
           K0 KS (f0 A) _ _ _ (Hin n1) Hn2 Hl).
by rewrite nth_mkseq.
Qed.

(** The index of the pair [(n1, n2)] and of [l] lies in the vector. *)
Lemma triangle_index (NS L n1 n2 l : nat) :
  n1 < NS -> n2 <= n1 -> l < L + 1 ->
  (L + 1) * (tri n1 + n2) + l < (L + 1) * tri NS.
Proof.
move=> H1 H2 Hl.
have := pair_index_lt H1 (leq_ltn_trans H2 H1).
rewrite /pair_index /maxn /minn.
case: (ltnP n1 n2) => [H|_]; first by move: H2; rewrite leqNgt H.
by move: (tri n1 + n2) (tri NS) Hl => x y; natarith.
Qed.

(** Unpacking then packing: the length of the vector is kept, the
    element of a diagonal pair comes back as it is, that of an
    off-diagonal pair multiplied and then divided by [2 ** -0.5]. *)
Lemma repack_unpacked (ps : vector F) (NS L : nat) :
  size ps = vec_len NS L ->
  let c := two_pow_neg_half A in
  let v := repack A (arr3 (L + 1) NS NS (entry A ps L)) NS L in
  size v = size ps
  /\ forall n1 n2 l, n1 < NS -> n2 <= n1 -> l < L + 1 ->
       let k := (L + 1) * ((n1 * n1.+1)./2 + n2) + l in
       k < size ps
       /\ nth (f0 A) v k
          = if n1 == n2 then nth (f0 A) ps k
            else fdiv A (fmul A (nth (f0 A) ps k) c) c.
Proof.
move=> Hsz c v.
have [Hs Hn] := flatten_triangle
  (fun n1 n2 l => let p := nth (f0 A) ps ((L + 1) * (tri n1 + n2) + l) in
                  if n1 == n2 then p else fdiv A (fmul A p c) c) NS L.
have Ev : v = flatten (mkseq (fun n1 => flatten (mkseq (fun n2 =>
            mkseq (fun l =>
              let p := nth (f0 A) ps ((L + 1) * (tri n1 + n2) + l) in
              if n1 == n2 then p else fdiv A (fmul A p c) c) (L + 1))
            (n1 + 1))) NS).
  by rewrite /v repack_pack pack_unpacked.
split; first by rewrite Ev Hs Hsz vec_len_tri.
move=> n1 n2 l H1 H2 Hl k; split.
  by rewrite Hsz vec_len_tri; exact: triangle_index.
by rewrite Ev /k -/(tri n1) (Hn n1 n2 l H1 H2 Hl).
Qed.

End Repacking.

(** C8 (amended): for a vector [ps] of length [NS*(NS+1)*(L+1)/2],
    [ps2slices] followed by the inverse packing gives a vector of the same
    length in which the element of every diagonal pair [n1 = n2] is that
    of [ps] exactly, and the element [p] of every off-diagonal pair is
    [(p * c) / c] with [c = 2 ** -0.5].  The vector that comes back is
    [ps] exactly when [(p * c) / c = p] for the elements of the
    off-diagonal pairs, and only then. *)
Theorem repack_ps2slices (F : Type) (A : arith F) (ps : vector F)
        (NS L : nat) :
  size ps = vec_len NS L ->
  let c := two_pow_neg_half A in
  exists ls,
    [/\ ps2slices A ps NS L = Ok ls,
        size (repack A ls NS L) = size ps,
        forall n1 n2 l, n1 < NS -> n2 <= n1 -> l < L + 1 ->
          let k := (L + 1) * ((n1 * n1.+1)./2 + n2) + l in
          k < size ps
          /\ nth (f0 A) (repack A ls NS L) k
             = if n1 == n2 then nth (f0 A) ps k
               else fdiv A (fmul A (nth (f0 A) ps k) c) c
      & repack A ls NS L = ps
        <-> forall n1 n2 l, n2 < n1 -> n1 < NS -> l < L + 1 ->
              let p := nth (f0 A) ps ((L + 1) * ((n1 * n1.+1)./2 + n2) + l) in
              fdiv A (fmul A p c) c = p].
Proof.
move=> Hsz c; exists (arr3 (L + 1) NS NS (entry A ps L)).
have [Hs Hn] := repack_unpacked A Hsz.
split=> //; first by rewrite ps2slices_closed -vec_len_tri Hsz leqnn.
split.
- move=> E n1 n2 l H21 H1 Hl p.
  have [_] := Hn n1 n2 l H1 (ltnW H21) Hl.
  by rewrite E -/p -/c; move: H21; rewrite ltn_neqAle eq_sym => /andP [/negbTE ->].
- move=> Hoff; rewrite repack_pack pack_unpacked.
  rewrite -[RHS](mkseq_nth (f0 A)) Hsz vec_len_tri.
  rewrite -flatten_packed; congr flatten; apply: mkseq_ext => n1 H1.
  congr flatten; apply: mkseq_ext => n2; rewrite addn1 ltnS => H2.
  apply: mkseq_ext => l Hl /=; case: eqP => // /eqP Hne.
  apply: Hoff => //; by rewrite ltn_neqAle eq_sym Hne.
Qed.

(** ** Binary64 runs of the inverse packing *)

(** C8, witness: the vector (7.0, 3.0, 1.0) for [NS = 2] and [L = 0]; its
    only off-diagonal element is 3.0, which the division gives back. *)
Lemma repack_ps2slices_witness :
  exists ls,
    ps2slices F64.float64 [:: 7%float; 3%float; 1%float] 2 0 = Ok ls
    /\ repack F64.float64 ls 2 0 = [:: 7%float; 3%float; 1%float].
Proof.
have [|ls [Hls _ _ [_ H]]] :=
  @repack_ps2slices _ F64.float64 [:: 7%float; 3%float; 1%float] 2 0.
  by vm_compute.
exists ls; split=> //; apply: H.
by move=> [|[|n1]] // [|n2] // [|l] // _ _ _; vm_compute.
Defined.

(** C8, counterexample: in binary64 the element 7.0 of an off-diagonal
    pair comes back as 6.9999999999999991 through the division by
    [2 ** -0.5], and as 7.0000000000000009 through the multiplication by
    [2 ** 0.5], the other reading of the inverse scaling. *)
Lemma repack_not_exact :
  let v := [:: 1%float; 7%float; 1%float] in
  size v = vec_len 2 0
  /\ exists ls,
       [/\ ps2slices F64.float64 v 2 0 = Ok ls,
           repack F64.float64 ls 2 0
           = [:: 1%float; 6.9999999999999991%float; 1%float],
           pack F64.float64 unscale_mul ls 2 0
           = [:: 1%float; 7.0000000000000009%float; 1%float],
           repack F64.float64 ls 2 0 <> v
         & pack F64.float64 unscale_mul ls 2 0 <> v].
Proof.
split; first by vm_compute.
eexists; split; first by vm_compute; reflexivity.
- by vm_compute.
- by vm_compute.
- move=> E; have := congr1 (fun s => PrimFloat.eqb (nth 0%float s 1) 7%float) E.
  by vm_compute.
- move=> E; have := congr1 (fun s => PrimFloat.eqb (nth 0%float s 1) 7%float) E.
  by vm_compute.
Qed.

(** In the arithmetic of a real closed field the division by [2 ** -0.5]
    undoes the scaling, and every vector comes back. *)
Lemma repack_real (R : rcfType) (ps : vector R) (NS L : nat) :
  size ps = vec_len NS L ->
  exists ls,
    ps2slices (real_arith R) ps NS L = Ok ls
    /\ repack (real_arith R) ls NS L = ps.
Proof.
move=> Hsz.
have [|ls [Hls Hp]] := @pack_unpack _ (real_arith R)
    (fun x => fdiv (real_arith R) x (two_pow_neg_half (real_arith R)))
    ps NS L Hsz.
  by move=> k _ /=; rewrite mulfK // invr_eq0 sqrtr_eq0 -ltNge ltr0n.
by exists ls; rewrite repack_pack.
Qed.

(** ** The numbers [compress_ps] returns *)

Section CompressContent.

Variable F : Type.
Variable A : arith F.

Lemma foldl_map (X Y Z : Type) (f : Z -> Y -> Z) (h : X -> Y) (a : Z)
      (s : seq X) :
  foldl f a (map h s) = foldl (fun acc x => f acc (h x)) a s.
Proof. by elim: s a => [|x s IH] a //=. Qed.

Lemma foldl_zip_nth (d a : F) (u v : vector F) :
  size v = size u ->
  foldl (fun acc xy => fadd A acc (fmul A xy.1 xy.2)) a (zip u v)
  = foldl (fun acc k => fadd A acc (fmul A (nth d u k) (nth d v k))) a
          (iota 0 (size u)).
Proof.
elim: u v a => [|x u IH] [|y v] a //= [Hv].
by rewrite (IH v _ Hv) -[1]/(1 + 0) iotaDl foldl_map.
Qed.

(** The inner product of two sequences of length [n], term by term. *)
Lemma dotp_nth (n : nat) (u v : vector F) :
  size u = n -> size v = n ->
  dotp A u v
  = foldl (fun acc k => fadd A acc (fmul A (nth (f0 A) u k) (nth (f0 A) v k)))
          (f0 A) (iota 0 n).
Proof. by move=> <- Hv; rewrite /dotp (foldl_zip_nth (f0 A)). Qed.

Lemma dotp_sumsq_fold (v : vector F) :
  dotp A v v = foldl (fun acc x => fadd A acc (fmul A x x)) (f0 A) v.
Proof. by rewrite /dotp; elim: v (f0 A) => [|x v IH] a //=. Qed.

Lemma eq_in_foldl (f g : F -> nat -> F) (a : F) (s : seq nat) :
  (forall acc x, x \in s -> f acc x = g acc x) -> foldl f a s = foldl g a s.
Proof.
elim: s a => [//|x s IH] a H /=; rewrite H ?mem_head // IH // => acc y Hy.
by apply: H; rewrite inE Hy orbT.
Qed.

(** [short/np.linalg.norm(short)]: the division by the square root of the
    sum of the squares. *)
Lemma normalize_sumsq (short : vector F) :
  normalize A short
  = [seq fdiv A x
           (fsqrt A (foldl (fun acc y => fadd A acc (fmul A y y)) (f0 A) short))
    | x <- short].
Proof. by rewrite /normalize /norm dotp_sumsq_fold. Qed.

Lemma mapM_iota (Y : Type) (f : nat -> res Y) (g : nat -> Y) (m n : nat) :
  (forall l, m <= l < m + n -> f l = Ok (g l)) ->
  mapM f (iota m n) = Ok [seq g l | l <- iota m n].
Proof.
elim: n m => [//|n IH] m H /=.
rewrite H ?leqnn ?addnS ?ltnS ?leq_addr //= IH // => l /andP [H1 H2].
by apply: H; rewrite (ltnW H1) addnS -addSn.
Qed.

(** The entries of [np.dot(RK[:, :k].T, Pl)]: the sums over the rows [q]
    of [RK[q][i] * Pl[q][j]], accumulated from the first row on. *)
Lemma compressed_slice_entries (NS c k : nat) (RK Pl : matrix F) :
  0 < NS -> 0 < c -> 0 < k -> wf NS c RK -> wf NS NS Pl ->
  dot A (transpose A (take_cols k RK)) Pl
  = Ok (mkseq (fun i => mkseq (fun j =>
          foldl (fun acc q =>
                   fadd A acc (fmul A (nth (f0 A) (nth [::] RK q) i)
                                      (nth (f0 A) (nth [::] Pl q) j)))
                (f0 A) (iota 0 NS)) NS) (minn k c)).
Proof.
move=> H0 Hc Hk HRK HPl.
have HW := wf_take_cols k HRK.
have HWt := wf_transpose A HW H0.
have Hmin : 0 < minn k c by rewrite leq_min Hk Hc.
rewrite /dot (ncols_wf HWt Hmin) /nrows; case/wfP: (HPl) => SP RP.
rewrite SP eqxx (ncols_wf HPl H0) /transpose (ncols_wf HW H0); congr Ok.
rewrite /mkseq -map_comp; apply/eq_in_map => i; rewrite mem_iota add0n /= => Hi.
apply/eq_in_map => j; rewrite mem_iota add0n /= => Hj.
case/wfP: (HRK) => SR RR.
have S1 : size [seq nth (f0 A) r i | r <- take_cols k RK] = NS.
  by rewrite !size_map.
have S2 : size (col A j Pl) = NS by rewrite size_map.
rewrite (dotp_nth S1 S2); apply: eq_in_foldl => acc q.
rewrite mem_iota add0n /= => Hq; congr (fadd A _ (fmul A _ _)).
  rewrite (nth_map [::]) ?size_map ?SR // /take_cols (nth_map [::]) ?SR //.
  by rewrite nth_take //; move: Hi; rewrite leq_min => /andP [].
by rewrite /col (nth_map [::]) ?SP.
Qed.

End CompressContent.

(** C3 (amended): from [L+1] slices of size [NS] x [NS] on, under a key
    of [NS] rows and [c] columns, [compress_ps] returns, slice after slice
    and row after row, the numbers [sum_q RK[q][i] * P_l[q][j]] for
    [i < min(2l+1, c)] and [j < NS], the entries of [W_l^T P_l] with [W_l]
    the first [2l+1] columns of the key, each sum taken from [q = 0] on.
    With [norm=False] these numbers are the result; with [norm=True], the
    default, every one of them is divided by the square root of the sum of
    their squares.  The result depends on nothing but the arguments. *)
Theorem compress_slices_entries (F : Type) (A : arith F) (NS c L : nat)
        (l_slices : seq (matrix F)) (random_key : matrix F) (norm : bool) :
  0 < NS -> 0 < c -> wf NS c random_key -> L < size l_slices ->
  (forall l, l < L + 1 -> wf NS NS (nth [::] l_slices l)) ->
  let WtP l :=
    mkseq (fun i => mkseq (fun j =>
      foldl (fun acc q =>
               fadd A acc
                 (fmul A (nth (f0 A) (nth [::] random_key q) i)
                         (nth (f0 A) (nth [::] (nth [::] l_slices l) q) j)))
            (f0 A) (iota 0 NS)) NS) (minn (2 * l + 1) c) in
  let short := flatten (mkseq (fun l => flatten (WtP l)) (L + 1)) in
  let sumsq := foldl (fun acc x => fadd A acc (fmul A x x)) (f0 A) short in
  compress_slices A l_slices L random_key norm
  = Ok (if norm then [seq fdiv A x (fsqrt A sumsq) | x <- short] else short).
Proof.
move=> H0 Hc HRK HL Hwf WtP short sumsq.
have E : mapM (fun l => Pl <- getitem l_slices l ;;
                dot A (transpose A (take_cols (2 * l + 1) random_key)) Pl)
              (iota 0 (L + 1))
         = Ok [seq WtP l | l <- iota 0 (L + 1)].
  apply: mapM_iota => l; rewrite add0n => /andP [_ Hl].
  have Hsz : l < size l_slices.
    by apply: leq_ltn_trans HL; move: Hl; rewrite addn1 ltnS.
  rewrite (getitem_nth [::]) Hsz [bind _ _]/=.
  by apply: compressed_slice_entries => //; [rewrite addn1 | exact: Hwf].
rewrite compress_slices_mapM E [bind _ _]/= -map_comp -/(mkseq _ _) -/short.
by rewrite normalize_sumsq -/sumsq.
Qed.

(** C3, witness: binary64.  The slices [[1, 2], [2, 3]] and
    [[0, 1], [1, 0]] under the key [[1, 2], [3, 4]], without the
    normalisation; the slice [[3, 0], [0, 4]] under the key (1, 1)^T with
    it: the products 3 and 4 are divided by 5. *)
Lemma compress_slices_entries_witness :
  compress_slices F64.float64
    [:: [:: [:: 1; 2]; [:: 2; 3]]; [:: [:: 0; 1]; [:: 1; 0]]]%float 1
    [:: [:: 1; 2]; [:: 3; 4]]%float false
  = Ok [:: 7; 11; 3; 1; 4; 2]%float
  /\ compress_slices F64.float64 [:: [:: [:: 3; 0]; [:: 0; 4]]]%float 0
       [:: [:: 1]; [:: 1]]%float true
     = Ok [:: 0.6; 0.8]%float.
Proof.
split.
  rewrite (@compress_slices_entries _ F64.float64 2 2 1
             [:: [:: [:: 1; 2]; [:: 2; 3]]; [:: [:: 0; 1]; [:: 1; 0]]]%float
             [:: [:: 1; 2]; [:: 3; 4]]%float false) //.
  by move=> [|[|l]].
rewrite (@compress_slices_entries _ F64.float64 2 1 0
           [:: [:: [:: 3; 0]; [:: 0; 4]]]%float
           [:: [:: 1]; [:: 1]]%float true) //.
by move=> [|l].
Defined.

(** In exact arithmetic the compressed slice is the matrix product
    [W_l^T P_l]. *)
Lemma compressed_slice_product (R : realFieldType) (rsqrt pnh : R -> R)
      (c0 : R) (NS c k : nat) (RK Pl : matrix R) :
  let A := exact_arith rsqrt pnh c0 in
  0 < NS -> 0 < c -> 0 < k -> wf NS c RK -> wf NS NS Pl ->
  exists WtP,
    [/\ dot A (transpose A (take_cols k RK)) Pl = Ok WtP,
        wf (minn k c) NS WtP
      & mx_of (minn k c) NS WtP
        = ((mx_of NS (minn k c) (take_cols k RK))^T *m mx_of NS NS Pl)%R].
Proof.
move=> A H0 Hc Hk HRK HPl.
have Hmin : 0 < minn k c by rewrite leq_min Hk Hc.
have [HWt EWt] := mx_transpose rsqrt pnh c0 (wf_take_cols k HRK) H0.
have [WtP [E Hwf Emx]] := mx_dot rsqrt pnh c0 HWt HPl Hmin H0.
by exists WtP; split=> //; rewrite Emx EWt.
Qed.

(** ** The last assertion of [uncompress_slice] *)

Section FinalAssertion.

Variable F : Type.
Variable A : arith F.
Variable matrix_rank : matrix F -> res nat.
Variable eigh : matrix F -> res (vector F * matrix F).

(** The matrix that the eigen route reconstructs from rows of length [n]
    is [n] x [n]. *)
Lemma reconstruct_wf (n : nat) (WtP W T P : matrix F) (inds : seq nat) :
  0 < n -> ncols T = n -> reconstruct A eigh WtP W T inds = Ok P ->
  wf n n P.
Proof.
move=> Hn HncT; rewrite /reconstruct.
case: (dot A WtP _) => [C0|e] //=; case: (select_rows _ _) => [C1|e] //=.
case: (select_cols _ _) => [C|e] //=; case: (eigh C) => [[vals Ut]|e] //=.
case: (dot A (diag A vals) _) => [LU|e] //=.
case: (dot A _ LU) => [R0|e] //=; case: (allclose A R0 C) => [[]|e] //=.
case Ecl : (clamp_roots A vals) => [roots|e] //=.
case EUT : (dot A _ T) => [UT|e] //=.
case EX : (dot A _ UT) => [X|e] //=.
have Hr := clamp_roots_size Ecl.
have [HUT1 HUT2 HUT3] := dot_rows EUT.
have [HX1 HX2 HX3] := dot_rows EX.
have SD : size (diag A roots) = size roots by rewrite size_mkseq.
have HncD : ncols (diag A roots) = size roots.
  rewrite /ncols /diag; case: (size roots) Hr => [//|k] _.
  by rewrite /= size_map size_iota.
have SUT : size UT = size roots by rewrite -[LHS]/(nrows UT) -HX1 HncD.
have HncUT : ncols UT = n by rewrite /ncols -nth0 HUT3 // -HUT2 SUT.
have wfX : wf (size roots) n X.
  apply: wf_intro; first by rewrite HX2 SD.
  by move=> i Hi; rewrite HX3 ?SD // HncUT.
by rewrite (gram_mkseq A wfX Hr Hn) => -[<-]; exact: wf_mkseq.
Qed.

(** The rows [get_IR] keeps have the length of those of its argument. *)
Lemma get_IR_ncols (m n : nat) (M T : matrix F) (inds : seq nat) :
  wf m n M -> get_IR matrix_rank M = Ok (T, inds) -> size inds <> 0 ->
  ncols T = n.
Proof.
move=> /wfP [Hsz Hrow] /get_IR_ok_rows [HT _ Hall] Hinds.
case: (inds) Hinds HT Hall => [//|i0 s] _ -> /= /andP [Hi0 _].
by rewrite /ncols /= Hrow // -Hsz.
Qed.

(** [np.allclose] of two arrays of the same shape: every entry of the
    first is close to the entry of the second at the same place. *)
Lemma allclose_same_shape (m n : nat) (M1 M2 : matrix F) :
  0 < m -> 0 < n -> wf m n M1 -> wf m n M2 ->
  allclose A M1 M2
  = Ok (all (fun i => all (fun j =>
          isclose A (nth (f0 A) (nth [::] M1 i) j)
                    (nth (f0 A) (nth [::] M2 i) j)) (iota 0 n)) (iota 0 m)).
Proof.
move=> Hm Hn H1 H2; rewrite /allclose /nrows.
rewrite (ncols_wf H1 Hm) (ncols_wf H2 Hm).
case/wfP: H1 => -> _; case/wfP: H2 => -> _.
rewrite /broadcast_dim !eqxx /=; congr Ok.
apply: eq_in_all => i; rewrite mem_iota add0n /= => Hi.
have -> : (if m == 1 then 0 else i) = i.
  by case: eqP => // E; move: Hi; rewrite E ltnS leqn0 => /eqP.
apply: eq_in_all => j; rewrite mem_iota add0n /= => Hj.
have -> // : (if n == 1 then 0 else j) = j.
by case: eqP => // E; move: Hj; rewrite E ltnS leqn0 => /eqP.
Qed.

End FinalAssertion.

(** C5 (amended): on the eigen route, that is when [get_IR] has kept a row
    of the compressed slice [WtP], and once [P] is reconstructed,
    [uncompress_slice] compares every entry [sum_q RK[q][i] * P[q][j]] of
    [W^T P] with the entry [WtP[i][j]]: two finite numbers [a] and [b]
    pass when [|a - b| <= atol + rtol * |b|], two numbers of which one is
    not finite when they are equal.  It returns [P] when every entry
    passes and raises [AssertionError] as soon as one does not. *)
Theorem reconstruction_checked (F : Type) (A : arith F)
        (matrix_rank : matrix F -> res nat)
        (eigh : matrix F -> res (vector F * matrix F))
        (n c l : nat) (WtP RK T : matrix F) (inds : seq nat)
        (P : matrix F) :
  0 < n -> 0 < c -> wf n c RK -> wf (minn (2 * l + 1) c) n WtP ->
  get_IR matrix_rank WtP = Ok (T, inds) -> size inds <> 0 ->
  reconstruct A eigh WtP (take_cols (2 * l + 1) RK) T inds = Ok P ->
  let WtP' i j :=
    foldl (fun acc q =>
             fadd A acc (fmul A (nth (f0 A) (nth [::] RK q) i)
                                (nth (f0 A) (nth [::] P q) j)))
          (f0 A) (iota 0 n) in
  let close a b :=
    if fisfinite A a && fisfinite A b
    then fleb A (fabs A (fsub A a b))
                (fadd A (atol A) (fmul A (rtol A) (fabs A b)))
    else feqb A a b in
  let ok :=
    all (fun i => all (fun j =>
           close (WtP' i j) (nth (f0 A) (nth [::] WtP i) j)) (iota 0 n))
        (iota 0 (minn (2 * l + 1) c)) in
  uncompress_slice A matrix_rank eigh WtP l RK
  = if ok then Ok P else Err AssertionError.
Proof.
move=> Hn Hc HRK HWtP HIR Hinds HP WtP' close ok.
have Hk : 0 < 2 * l + 1 by rewrite addn1.
have Hmin : 0 < minn (2 * l + 1) c by rewrite leq_min Hk Hc.
have HncT := get_IR_ncols HWtP HIR Hinds.
have HwfP := reconstruct_wf Hn HncT HP.
rewrite (@uncompress_slice_eigen_route _ A matrix_rank eigh WtP RK T l inds
           HIR Hinds) HP [bind _ _]/= /verify.
rewrite (compressed_slice_entries A Hn Hc Hk HRK HwfP) [bind (Ok _) _]/=.
rewrite (allclose_same_shape A Hmin Hn (wf_mkseq _ _ _) HWtP) [bind _ _]/=.
have -> // : all (fun i => all (fun j =>
               isclose A
                 (nth (f0 A) (nth [::] (mkseq (fun i => mkseq (fun j => WtP' i j) n)
                                              (minn (2 * l + 1) c)) i) j)
                 (nth (f0 A) (nth [::] WtP i) j)) (iota 0 n))
             (iota 0 (minn (2 * l + 1) c)) = ok.
apply: eq_in_all => i; rewrite mem_iota add0n /= => Hi.
apply: eq_in_all => j; rewrite mem_iota add0n /= => Hj.
by rewrite nth_mkseq // nth_mkseq.
Qed.

(** C5, witness: binary64, the key (0.5, 0.5)^T and [l = 0].  On the
    compressed slice (1, 1) the matrix of ones is reconstructed, [W^T P] is
    (1, 1) and the matrix is returned.  On the compressed slice (1, -1) the
    reduced Gram matrix is [[0.0]], [P] is reconstructed with infinite
    entries, [W^T P] is a nan and the run ends in [AssertionError]. *)
Lemma reconstruction_checked_witness :
  uncompress_slice F64.float64 matrix_rank_row eigh_1x1
    [:: [:: 1; 1]]%float 0 key_2x1
  = Ok [:: [:: 1; 1]; [:: 1; 1]]%float
  /\ uncompress_slice F64.float64 matrix_rank_row eigh_1x1
       [:: [:: 1; -1]]%float 0 key_2x1
     = Err AssertionError.
Proof.
split.
  by rewrite (@reconstruction_checked _ F64.float64 matrix_rank_row eigh_1x1
                2 1 0 [:: [:: 1; 1]]%float key_2x1 [:: [:: 1; 1]]%float
                [:: 0] [:: [:: 1; 1]; [:: 1; 1]]%float) //; vm_compute.
by rewrite (@reconstruction_checked _ F64.float64 matrix_rank_row eigh_1x1
              2 1 0 [:: [:: 1; -1]]%float key_2x1 [:: [:: 1; -1]]%float
              [:: 0]
              [:: [:: infinity; neg_infinity]; [:: neg_infinity; infinity]])
     //; vm_compute.
Defined.

(** C5, counterexample: binary64, the compressed slice (inf, 1) under the
    key (0.5, 0.5)^T for [l = 0].  The slice is not zero, yet
    [matrix_rank] gives 0 on a row that holds an infinity: [get_IR] keeps
    no row and [uncompress_slice] returns the zero matrix from the branch
    of the zero slices, which ends without the comparison; [W^T P] is
    (0, 0) there and [np.allclose] of it and the compressed slice is
    [False]. *)
Lemma zero_branch_unchecked :
  let WtP := [:: [:: infinity; 1%float]] in
  [/\ is_zero_matrix F64.float64 WtP = false,
      get_IR matrix_rank_row WtP = Ok ([::], [::]),
      uncompress_slice F64.float64 matrix_rank_row eigh_1x1 WtP 0 key_2x1
      = Ok (zeros F64.float64 2 2)
    & verify F64.float64 (take_cols (2 * 0 + 1) key_2x1)
             (zeros F64.float64 2 2) WtP
      = Ok false].
Proof. by split; vm_compute. Qed.

(** ** The round trip under a key that nearly cancels the slice *)

(** The slice [[49, -7], [-7, 1]] is the Gram matrix of the column
    (7, -1)^T.  Under the key (0.1, 0.7)^T the compressed slice would be
    zero if 0.1 and 0.7 were the decimal numbers; the binary64 numbers of
    these names are not, and 7 times the first is not the second. *)

Section ExactValue.

Local Open Scope ring_scope.

Variable R : realFieldType.

(** A binary positive number in the field. *)
Fixpoint posR (p : positive) : R :=
  match p with
  | xH => 1
  | xO p => posR p *+ 2
  | xI p => posR p *+ 2 + 1
  end.

(** The real number that a finite binary64 number stands for,
    [(-1)^s * m * 2^e]; 0 for the infinities and nan. *)
Definition exact_of (x : float) : R :=
  match Prim2SF x with
  | S754_finite s m e =>
      let v := if (0 <=? e)%Z then posR m * 2%:R ^+ Z.to_nat e
               else posR m / 2%:R ^+ Z.to_nat (- e) in
      if s then - v else v
  | _ => 0
  end.

Lemma posRE (p : positive) : posR p = (Pos.to_nat p)%:R.
Proof.
elim: p => [p IH|p IH|] //.
- rewrite [LHS]/= IH Pos2Nat.inj_xI multE -natr1 mulnC natrM.
  by rewrite mulr_natr.
- by rewrite [LHS]/= IH Pos2Nat.inj_xO multE mulnC natrM mulr_natr.
Qed.

Lemma posR_eq (a b : nat) (p q : positive) :
  a%:R * posR p = b%:R * posR q ->
  (Z.of_nat a * Z.pos p = Z.of_nat b * Z.pos q)%Z.
Proof.
rewrite !posRE -!natrM => /eqP; rewrite eqr_nat => /eqP H.
by have := congr1 Z.of_nat H; rewrite -!multE !Nat2Z.inj_mul !positive_nat_Z.
Qed.

Lemma exact_of_pos (x : float) (m e : positive) :
  Prim2SF x = S754_finite false m (Z.neg e) ->
  exact_of x = posR m / 2%:R ^+ Pos.to_nat e.
Proof. by rewrite /exact_of => ->. Qed.

Lemma exact_0_1 : exact_of 0.1 = posR 7205759403792794 / 2%:R ^+ 56.
Proof.
have H : Prim2SF 0.1 = S754_finite false 7205759403792794 (-56) by vm_compute.
rewrite (exact_of_pos H).
by have -> : Pos.to_nat 56 = 56%nat by vm_compute.
Qed.

Lemma exact_0_7 : exact_of 0.7 = posR 6305039478318694 / 2%:R ^+ 53.
Proof.
have H : Prim2SF 0.7 = S754_finite false 6305039478318694 (-53) by vm_compute.
rewrite (exact_of_pos H).
by have -> : Pos.to_nat 53 = 53%nat by vm_compute.
Qed.

(** Seven times the binary64 number 0.1 is not the binary64 number 0.7. *)
Lemma exact_key_0_1_0_7 : 7%:R * exact_of 0.1 != exact_of 0.7.
Proof.
rewrite exact_0_1 exact_0_7; apply/eqP => E.
set p1 := posR 7205759403792794 in E; set p2 := posR 6305039478318694 in E.
have H2 n : (2%:R : R) ^+ n != 0 by rewrite expf_neq0 // pnatr_eq0.
have E1 : 7%:R * p1 = 7%:R * (p1 / 2%:R ^+ 56) * 2%:R ^+ 56.
  by rewrite -mulrA divfK.
have E2 : p2 / 2%:R ^+ 53 * 2%:R ^+ 56 = 8%:R * p2.
  have -> : (2%:R : R) ^+ 56 = 2%:R ^+ 53 * 2%:R ^+ 3 by rewrite -exprD.
  by rewrite mulrA divfK // mulrC -natrX.
have E' : 7%:R * p1 = 8%:R * p2 by rewrite E1 E E2.
by have := posR_eq E'.
Qed.

End ExactValue.

Section CancellingKey.

Local Open Scope ring_scope.

Variable R : realFieldType.
Variables (rsqrt pnh : R -> R) (c0 : R).
Let A := exact_arith rsqrt pnh c0.

Variables w1 w2 : R.
Hypothesis Hw : 7%:R * w1 != w2.

Definition slice_49 : matrix R := [:: [:: 49%:R; - 7%:R]; [:: - 7%:R; 1]].
Definition key_col : matrix R := [:: [:: w1]; [:: w2]].
Definition compressed_49 : matrix R :=
  [:: [:: 0 + w1 * 49%:R + w2 * - 7%:R; 0 + w1 * - 7%:R + w2 * 1]].

Lemma run49_compress :
  dot A (transpose A (take_cols (2 * 0 + 1) key_col)) slice_49
  = Ok compressed_49.
Proof. by rewrite /dot /transpose /= /dotp /= /ncols /slice_49 /mkseq /=. Qed.

Lemma run49_gram :
  mx_of 2 2 slice_49
  = mx_of 2 1 [:: [:: 7%:R]; [:: - 1]] *m (mx_of 2 1 [:: [:: 7%:R]; [:: - 1]])^T.
Proof.
apply/matrixP => i j; rewrite !mxE big_ord1 !mxE.
case: i => [[|[|i]]] //= _; case: j => [[|[|j]]] //= _.
- by rewrite -natrM.
- by rewrite mulrN1.
- by rewrite mulN1r.
- by rewrite mulrNN mulr1.
Qed.

Lemma run49_rank_slice : \rank (mx_of 2 2 slice_49) = 1%nat.
Proof.
apply/eqP; rewrite eqn_leq {1}run49_gram mulmx_max_rank /= lt0n mxrank_eq0.
apply/eqP => /matrixP /(_ ord0 ord0); rewrite !mxE /=.
by move/eqP; rewrite pnatr_eq0.
Qed.

Lemma run49_rank_compressed (m : nat) :
  m = 1%nat -> \rank (mx_of m 2 compressed_49) = 1%nat.
Proof.
move=> ->; rewrite rank_rV.
have -> // : mx_of 1 2 compressed_49 != 0.
apply/eqP => /matrixP /(_ ord0 (Ordinal (isT : (1 < 2)%nat))); rewrite !mxE /=.
move/eqP; rewrite add0r mulr1 mulrN addrC subr_eq0 mulrC => /eqP E.
by move: Hw; rewrite -E eqxx.
Qed.

Lemma run49_eigh_returns (T : matrix R) (inds : seq nat) (C : matrix R) :
  get_IR (@exact_rank R) compressed_49 = Ok (T, inds) ->
  reduced_gram A compressed_49 (take_cols (2 * 0 + 1) key_col) inds = Ok C ->
  exists res, eigh_1x1_exact C = Ok res.
Proof.
rewrite /get_IR /= /exact_rank /= run49_rank_compressed //= => -[_ <-].
by rewrite /reduced_gram /dot /= => -[<-]; eexists.
Qed.

End CancellingKey.

(** C1, witness: over the real algebraic numbers, for [l = 0].  The slice
    of ones under the key (1, 0)^T; the slice [[49, -7], [-7, 1]] under
    the key whose entries are the binary64 numbers 0.1 and 0.7, taken as
    the real numbers they stand for. *)
Lemma round_trip_witness :
  uncompress_slice (real_arith algR) (@exact_rank algR)
                   (@eigh_1x1_exact algR) (row_ones algR) 0 (key_e1 algR)
  = Ok (ones_2x2 algR)
  /\ (let RK := [:: [:: exact_of algR 0.1]; [:: exact_of algR 0.7]] in
      let P := [:: [:: 49%:R; - 7%:R]; [:: - 7%:R; 1]]%R : matrix algR in
      exists WtP,
        dot (real_arith algR)
            (transpose (real_arith algR) (take_cols (2 * 0 + 1) RK)) P
        = Ok WtP
        /\ uncompress_slice (real_arith algR) (@exact_rank algR)
                            (@eigh_1x1_exact algR) WtP 0 RK
           = Ok P).
Proof.
split.
  apply: (@round_trip algR Num.sqrt (fun x => (Num.sqrt x)^-1)%R
            (Num.sqrt 2)^-1%R (@eigh_1x1_exact algR) 2 1 1 0 (const_mx 1%R)).
  - by [].
  - by [].
  - by [].
  - by [].
  - exact: run_gram.
  - exact: run_compress.
  - by rewrite run_rank_slice run_rank_compressed.
  - exact: eigh_1x1_sound.
  - exact: run_eigh_returns.
  - exact: real_pow_neg_half.
move=> RK P.
exists (compressed_49 (exact_of algR 0.1) (exact_of algR 0.7)); split.
  exact: run49_compress.
have Hw := exact_key_0_1_0_7 algR.
apply: (@round_trip algR Num.sqrt (fun x => (Num.sqrt x)^-1)%R
          (Num.sqrt 2)^-1%R (@eigh_1x1_exact algR) 2 1 1 0
          (mx_of 2 1 [:: [:: 7%:R]; [:: - 1]]%R)).
- by [].
- by [].
- by [].
- by [].
- exact: run49_gram.
- exact: run49_compress.
- by rewrite run49_rank_slice run49_rank_compressed.
- exact: eigh_1x1_sound.
- exact: run49_eigh_returns.
- exact: real_pow_neg_half.
Defined.

(** C1, counterexample: binary64, [l = 0].
    (i) The slice [[1, -1], [-1, 1]] (symmetric, positive semi-definite,
    of rank 1) under the key (0.5, 0.5)^T (of rank 1): the compressed
    slice is [[0, 0]], the decompressor returns the zero matrix, and
    [np.allclose] of it and the slice is [False].
    (ii) The slice [[49, -7], [-7, 1]] under the key (0.1, 0.7)^T: the
    compressed slice is (2^-50, -2^-53), all of it rounding error, not
    zero and of rank 1 as the slice; the decompressor raises nothing and
    returns a matrix with entries below 1e-12, and [np.allclose] of it
    and the slice is [False]. *)
Lemma round_trip_not_within_tolerance :
  (let P := [:: [:: 1; -1]; [:: -1; 1]]%float in
   [/\ dot F64.float64 (transpose F64.float64 (take_cols (2 * 0 + 1) key_2x1)) P
       = Ok (zeros F64.float64 1 2),
       uncompress_slice F64.float64 matrix_rank_row eigh_1x1
                        (zeros F64.float64 1 2) 0 key_2x1
       = Ok (zeros F64.float64 2 2)
     & allclose F64.float64 (zeros F64.float64 2 2) P = Ok false])
  /\ (let P := [:: [:: 49; -7]; [:: -7; 1]]%float in
      let RK := [:: [:: 0.1]; [:: 0.7]]%float in
      let WtP := [:: [:: 0x1p-50; -0x1p-53]]%float in
      exists P' : matrix float,
        [/\ dot F64.float64 (transpose F64.float64 (take_cols (2 * 0 + 1) RK)) P
            = Ok WtP,
            matrix_rank_row WtP = Ok 1,
            uncompress_slice F64.float64 matrix_rank_row eigh_1x1 WtP 0 RK
            = Ok P',
            all (all (fun x => abs x <? 1e-12)%float) P'
          & allclose F64.float64 P' P = Ok false]).
Proof.
split; first by split; vm_compute.
eexists; split.
- by vm_compute.
- by vm_compute.
- by vm_compute; reflexivity.
- by vm_compute.
- by vm_compute.
Qed.

